(** * auto-phone-scheduler: the observer side of the step streaming protocol

    A shallow embedding of the TypeScript front end that consumes the
    execution event stream:

    - [components/ChatSteps.tsx]: [parseActionToObject];
    - [lib/utils.ts]: [formatDateTime];
    - [pages/ExecutionDetail.tsx]: [parseStepData],
      [convertStepsToChatItems] and the [EventSource] listeners;
    - [pages/Debug.tsx]: [executeStream] with its reading loop,
      [handleSend], [handleConfirmSensitive], [handleCancelSensitive];
    - [components/ScrcpyPlayer] and [components/ScreenshotViewer]: the
      live-screen watchdog, the packets handed to the decoder,
      [disconnect], and the polled fallback.

    JavaScript strings are sequences of UTF-16 code units, and regular
    expressions without the [u] flag work on code units, so a string is a
    [list N].  Plain objects are finite maps from property names to
    values; the enumeration order of properties is not modelled.  React
    state is threaded explicitly: every handler is a function from the
    component state to the component state. *)

From Stdlib Require Import NArith ZArith Ascii String.
From stdpp Require Import gmap list option.

#[local] Set Warnings "-register-all".
#[local] Open Scope N_scope.

(** ** Strings *)

Module JsString.

Definition jsstring := list N.

(** UTF-8 source text to UTF-16 code units, for writing literals. *)
Definition cont (b : N) : N := N.land b 63.

Definition surrogates (cp : N) : list N :=
  if cp <? 65536 then [cp]
  else [55296 + N.shiftr (cp - 65536) 10; 56320 + N.land (cp - 65536) 1023].

Fixpoint utf16_of_utf8 (bs : list N) : list N :=
  match bs with
  | [] => []
  | b0 :: r0 =>
      if b0 <? 128 then b0 :: utf16_of_utf8 r0
      else match r0 with
      | [] => [b0]
      | b1 :: r1 =>
          if b0 <? 224 then
            (N.shiftl (N.land b0 31) 6 + cont b1) :: utf16_of_utf8 r1
          else match r1 with
          | [] => [b0; b1]
          | b2 :: r2 =>
              if b0 <? 240 then
                (N.shiftl (N.land b0 15) 12 + N.shiftl (cont b1) 6 + cont b2)
                  :: utf16_of_utf8 r2
              else match r2 with
              | [] => [b0; b1; b2]
              | b3 :: r3 =>
                  surrogates (N.shiftl (N.land b0 7) 18 + N.shiftl (cont b1) 12
                              + N.shiftl (cont b2) 6 + cont b3)
                    ++ utf16_of_utf8 r3
              end
          end
      end
  end.

Definition js (s : string) : jsstring :=
  utf16_of_utf8 (N_of_ascii <$> list_ascii_of_string s).

(** [\d] *)
Definition is_digit (c : N) : bool := (48 <=? c) && (c <=? 57).

(** [\w] without the [u] flag: [[A-Za-z0-9_]], also under [/i]. *)
Definition is_word (c : N) : bool :=
  ((65 <=? c) && (c <=? 90)) || ((97 <=? c) && (c <=? 122))
  || is_digit c || (c =? 95).

(** [\s], and the characters removed by [String.prototype.trim]:
    WhiteSpace and LineTerminator of ECMA-262. *)
Definition is_space (c : N) : bool :=
  ((9 <=? c) && (c <=? 13)) || (c =? 32) || (c =? 160) || (c =? 5760)
  || ((8192 <=? c) && (c <=? 8202)) || (c =? 8232) || (c =? 8233)
  || (c =? 8239) || (c =? 8287) || (c =? 12288) || (c =? 65279).

(** Canonicalize of ECMA-262 for [/i] without [u], restricted to what the
    patterns of this program need: an ASCII pattern character matches an
    input character that is equal to it or is its other ASCII case (no
    character above 127 canonicalizes to an ASCII character). *)
Definition upper (c : N) : N :=
  if (97 <=? c) && (c <=? 122) then c - 32 else c.

Definition eq_ci (p c : N) : bool := upper p =? upper c.

Fixpoint skip_while (f : N -> bool) (s : jsstring) : jsstring :=
  match s with
  | [] => []
  | c :: r => if f c then skip_while f r else s
  end.

Fixpoint take_while (f : N -> bool) (s : jsstring) : jsstring :=
  match s with
  | [] => []
  | c :: r => if f c then c :: take_while f r else []
  end.

(** [s.trim()] *)
Definition trim (s : jsstring) : jsstring :=
  reverse (skip_while is_space (reverse (skip_while is_space s))).

(** Truthiness of a string: [!!s]. *)
Definition nonempty (s : jsstring) : bool :=
  match s with [] => false | _ => true end.

End JsString.
Export JsString.

(** ** Values *)

(** A number is kept as the decimal it was read from, [m * 10^e]; the
    rounding to a double is not modelled. *)
Inductive jsval :=
| VUndefined
| VNull
| VBool (b : bool)
| VNumber (m e : Z)
| VString (s : jsstring)
| VArray (l : list jsval)
| VObject (o : gmap jsstring jsval).

Abbreviation jsobject := (gmap jsstring jsval).

(** [!!v] *)
Definition truthy (v : jsval) : bool :=
  match v with
  | VUndefined | VNull => false
  | VBool b => b
  | VNumber m _ => negb (m =? 0)%Z
  | VString s => nonempty s
  | VArray _ | VObject _ => true
  end.

(** [typeof v === 'object'] *)
Definition typeof_object (v : jsval) : bool :=
  match v with
  | VNull | VArray _ | VObject _ => true
  | _ => false
  end.

(** [o[k] = v] on an object literal, for a primitive [v]: the key
    [__proto__] reaches the inherited setter, which ignores primitives. *)
Definition set_prop (k : jsstring) (v : jsval) (o : jsobject) : jsobject :=
  if decide (k = js "__proto__") then o else <[k := v]> o.

(** ** [JSON.parse]

    The built-in parser, as ECMA-404 defines it: a lexer working one code
    unit at a time and a stack machine over the tokens.  [None] stands for
    the [SyntaxError] it throws.  Both passes are structural, so the
    function is total. *)

Module Json.

Inductive token :=
| TLBrace | TRBrace | TLBrack | TRBrack | TColon | TComma
| TStr (s : jsstring)
| TVal (v : jsval).

Definition digits_val (ds : jsstring) : Z :=
  fold_left (λ a d, 10 * a + (Z.of_N d - 48))%Z ds 0%Z.

Definition hex_val (c : N) : option N :=
  if is_digit c then Some (c - 48)
  else if (97 <=? c) && (c <=? 102) then Some (c - 87)
  else if (65 <=? c) && (c <=? 70) then Some (c - 55)
  else None.

(** The number grammar: an optional minus, an integer part without a
    leading zero, an optional fraction, an optional exponent. *)
Definition parse_number (s : jsstring) : option jsval :=
  let '(neg, s1) := match s with 45 :: r => (true, r) | _ => (false, s) end in
  let ip := take_while is_digit s1 in
  let s2 := skip_while is_digit s1 in
  let int_ok := match ip with [] => false | [_] => true | d :: _ => negb (d =? 48) end in
  let frac := match s2 with
              | 46 :: r => match take_while is_digit r with
                           | [] => None
                           | f => Some (f, skip_while is_digit r)
                           end
              | _ => Some ([], s2)
              end in
  '(fp, s3) ← frac;
  ex ← match s3 with
       | [] => Some 0%Z
       | c :: r =>
           if (c =? 101) || (c =? 69) then
             let '(eneg, r') := match r with
                                | 43 :: t => (false, t)
                                | 45 :: t => (true, t)
                                | _ => (false, r)
                                end in
             match take_while is_digit r', skip_while is_digit r' with
             | (_ :: _) as ds, [] => Some (if eneg then - digits_val ds else digits_val ds)%Z
             | _, _ => None
             end
           else None
       end;
  if int_ok then
    let m := digits_val (ip ++ fp) in
    Some (VNumber (if neg then - m else m) (ex - Z.of_nat (length fp)))
  else None.

Definition parse_word (s : jsstring) : option jsval :=
  if decide (s = js "true") then Some (VBool true)
  else if decide (s = js "false") then Some (VBool false)
  else if decide (s = js "null") then Some VNull
  else None.

Inductive lexmode :=
| LStart
| LStr (acc : jsstring)
| LEsc (acc : jsstring)
| LHex (acc : jsstring) (ds : list N)
| LNum (acc : jsstring)
| LWord (acc : jsstring).

Definition is_lower (c : N) : bool := (97 <=? c) && (c <=? 122).
Definition is_numchar (c : N) : bool :=
  is_digit c || (c =? 45) || (c =? 43) || (c =? 46) || (c =? 101) || (c =? 69).

(** One code unit seen between two tokens. *)
Definition lex_start (c : N) (out : list token) : option (lexmode * list token) :=
  if (c =? 32) || (c =? 9) || (c =? 10) || (c =? 13) then Some (LStart, out)
  else if c =? 123 then Some (LStart, TLBrace :: out)
  else if c =? 125 then Some (LStart, TRBrace :: out)
  else if c =? 91 then Some (LStart, TLBrack :: out)
  else if c =? 93 then Some (LStart, TRBrack :: out)
  else if c =? 58 then Some (LStart, TColon :: out)
  else if c =? 44 then Some (LStart, TComma :: out)
  else if c =? 34 then Some (LStr [], out)
  else if is_digit c || (c =? 45) then Some (LNum [c], out)
  else if is_lower c then Some (LWord [c], out)
  else None.

Definition lex_escape (c : N) : option N :=
  if (c =? 34) || (c =? 92) || (c =? 47) then Some c
  else if c =? 98 then Some 8
  else if c =? 102 then Some 12
  else if c =? 110 then Some 10
  else if c =? 114 then Some 13
  else if c =? 116 then Some 9
  else None.

(** Tokens are accumulated in reverse. *)
Fixpoint lex (m : lexmode) (out : list token) (s : jsstring) : option (list token) :=
  match s with
  | [] =>
      match m with
      | LStart => Some (reverse out)
      | LNum acc => v ← parse_number (reverse acc); Some (reverse (TVal v :: out))
      | LWord acc => v ← parse_word (reverse acc); Some (reverse (TVal v :: out))
      | _ => None
      end
  | c :: r =>
      match m with
      | LStart => '(m', out') ← lex_start c out; lex m' out' r
      | LStr acc =>
          if c =? 34 then lex LStart (TStr (reverse acc) :: out) r
          else if c =? 92 then lex (LEsc acc) out r
          else if c <? 32 then None
          else lex (LStr (c :: acc)) out r
      | LEsc acc =>
          if c =? 117 then lex (LHex acc []) out r
          else e ← lex_escape c; lex (LStr (e :: acc)) out r
      | LHex acc ds =>
          h ← hex_val c;
          match ds with
          | [d2; d1; d0] => lex (LStr ((((d0 * 16 + d1) * 16 + d2) * 16 + h) :: acc)) out r
          | _ => lex (LHex acc (h :: ds)) out r
          end
      | LNum acc =>
          if is_numchar c then lex (LNum (c :: acc)) out r
          else v ← parse_number (reverse acc);
               '(m', out') ← lex_start c (TVal v :: out); lex m' out' r
      | LWord acc =>
          if is_lower c then lex (LWord (c :: acc)) out r
          else v ← parse_word (reverse acc);
               '(m', out') ← lex_start c (TVal v :: out); lex m' out' r
      end
  end.

(** A container that is waiting for the value being read. *)
Inductive frame :=
| FArr (items : list jsval)
| FObj (o : jsobject) (key : jsstring).

Inductive pmode :=
| PValue (st : list frame)
| PArrOpen (st : list frame)
| PArrNext (items : list jsval) (st : list frame)
| PObjOpen (st : list frame)
| PObjKey (o : jsobject) (st : list frame)
| PObjColon (o : jsobject) (key : jsstring) (st : list frame)
| PObjNext (o : jsobject) (st : list frame)
| PDone (v : jsval).

(** A value is complete: hand it to the enclosing container. *)
Definition reduce (v : jsval) (st : list frame) : pmode :=
  match st with
  | [] => PDone v
  | FArr items :: st' => PArrNext (items ++ [v]) st'
  | FObj o key :: st' => PObjNext (<[key := v]> o) st'
  end.

Definition value_start (t : token) (st : list frame) : option pmode :=
  match t with
  | TLBrace => Some (PObjOpen st)
  | TLBrack => Some (PArrOpen st)
  | TStr s => Some (reduce (VString s) st)
  | TVal v => Some (reduce v st)
  | _ => None
  end.

Definition pstep (m : pmode) (t : token) : option pmode :=
  match m, t with
  | PValue st, _ => value_start t st
  | PArrOpen st, TRBrack => Some (reduce (VArray []) st)
  | PArrOpen st, _ => value_start t (FArr [] :: st)
  | PArrNext items st, TComma => Some (PValue (FArr items :: st))
  | PArrNext items st, TRBrack => Some (reduce (VArray items) st)
  | PObjOpen st, TRBrace => Some (reduce (VObject ∅) st)
  | PObjOpen st, TStr k => Some (PObjColon ∅ k st)
  | PObjKey o st, TStr k => Some (PObjColon o k st)
  | PObjColon o k st, TColon => Some (PValue (FObj o k :: st))
  | PObjNext o st, TComma => Some (PObjKey o st)
  | PObjNext o st, TRBrace => Some (reduce (VObject o) st)
  | _, _ => None
  end.

Fixpoint run (m : pmode) (ts : list token) : option jsval :=
  match ts with
  | [] => match m with PDone v => Some v | _ => None end
  | t :: r => m' ← pstep m t; run m' r
  end.

Definition parse (s : jsstring) : option jsval :=
  ts ← lex LStart [] s; run (PValue []) ts.

End Json.

(** ** Regular expressions

    The patterns of the program are written with a few matchers.  A
    matcher reads a prefix of its input and returns the text it matched
    and the rest of the input. *)

Module Regex.

Definition matcher := jsstring → option (jsstring * jsstring).

(** A literal under the [i] flag. *)
Fixpoint lit (p : jsstring) : matcher := λ s,
  match p with
  | [] => Some ([], s)
  | a :: p' =>
      match s with
      | c :: r => if eq_ci a c then '(m, r') ← lit p' r; Some (c :: m, r') else None
      | [] => None
      end
  end.

Definition seq (m1 m2 : matcher) : matcher := λ s,
  '(a, r) ← m1 s; '(b, r') ← m2 r; Some (a ++ b, r').

(** [(?:m)?k]: with [m] when the rest then matches, else without. *)
Definition opt_then (m k : matcher) : matcher := λ s,
  match seq m k s with
  | Some x => Some x
  | None => k s
  end.

(** [[\s\S]*?] followed by [k]: [k] is tried here first, and one more
    character is given up each time it fails.  Returns the characters
    given up and what [k] returned. *)
Fixpoint lazy_any {A} (k : jsstring → option A) (s : jsstring)
  : option (jsstring * A) :=
  match k s with
  | Some a => Some ([], a)
  | None =>
      match s with
      | [] => None
      | c :: r => '(sk, a) ← lazy_any k r; Some (c :: sk, a)
      end
  end.

Definition lazy_then (k : matcher) : matcher := λ s,
  '(sk, (a, r)) ← lazy_any k s; Some (sk ++ a, r).

(** An unanchored pattern: the leftmost place where [m] matches.
    Returns the text before the match and what [m] returned. *)
Definition search {A} (m : jsstring → option A) (s : jsstring)
  : option (jsstring * A) := lazy_any m s.

(** [s.replace(/m/g, '')]: every match is cut out, scanning from the
    left; [skip] counts the characters of the current match that are
    still to be dropped (the engine's [lastIndex] lies that far ahead). *)
Fixpoint remove_all (m : matcher) (skip : nat) (s : jsstring) : jsstring :=
  match s with
  | [] => []
  | c :: r =>
      match skip with
      | S n => remove_all m n r
      | O =>
          match m s with
          | Some (_ :: a, _) => remove_all m (length a) r
          | _ => c :: remove_all m 0 r
          end
      end
  end.

End Regex.

(** ** components/ChatSteps.tsx *)

Module ChatSteps.
Import Regex.

Definition dquote : N := 34.
Definition squote : N := 39.

(** The quoted key and then [[\s\S]*?\}]: the tail of [jsonRegex]. *)
Definition key_close : matcher :=
  seq (lit ([dquote] ++ js "action" ++ [dquote])) (lazy_then (lit (js "}"))).

(** [/\{[\s\S]*?"action"[\s\S]*?\}/i] *)
Definition jsonRegex : matcher :=
  seq (lit (js "{")) (lazy_then key_close).

(** [actionStr.match(jsonRegex)], giving [jsonMatch[0]]. *)
Definition jsonMatch (actionStr : jsstring) : option jsstring :=
  '(_, (m, _)) ← search jsonRegex actionStr; Some m.

(** The pattern [^(\w+)\(( .* )\)$] with the [s] flag, giving
    [funcMatch[1]] and [funcMatch[2]].  The name is a run of word
    characters followed by an opening parenthesis, so it is the longest
    such run; the dot matches every character and the closing parenthesis
    is the last character. *)
Definition funcMatch (actionStr : jsstring) : option (jsstring * jsstring) :=
  match take_while is_word actionStr, skip_while is_word actionStr with
  | (_ :: _) as name, c :: r =>
      if c =? 40 then
        match reverse r with
        | d :: p => if d =? 41 then Some (name, reverse p) else None
        | [] => None
        end
      else None
  | _, _ => None
  end.

(** The capture groups 3 to 6 of [paramRegex]: exactly one takes part
    in a match. *)
Inductive captured :=
| Group3 (s : jsstring)
| Group4 (s : jsstring)
| Group5 (s : jsstring)
| Group6 (s : jsstring).

(** A quote [q], characters other than [q], and [q] again, at the head
    of the input: the content and the rest. *)
Definition quoted (q : N) (s : jsstring) : option (jsstring * jsstring) :=
  match s with
  | c :: r =>
      if c =? q then
        match skip_while (λ x, negb (x =? q)) r with
        | _ :: r' => Some (take_while (λ x, negb (x =? q)) r, r')
        | [] => None
        end
      else None
  | [] => None
  end.

(** The pattern [(\w+)=(D([^D]* )D|S([^S]* )S|(\d+)|(\w+))], where [D] is
    the double and [S] the single quote, at the head of the input: the
    key, the capture that took part, and the rest. *)
Definition paramRegex (s : jsstring) : option (jsstring * captured * jsstring) :=
  match take_while is_word s, skip_while is_word s with
  | (_ :: _) as key, c :: r =>
      if c =? 61 then
        match quoted dquote r with
        | Some (b, r') => Some (key, Group3 b, r')
        | None =>
            match quoted squote r with
            | Some (b, r') => Some (key, Group4 b, r')
            | None =>
                match take_while is_digit r with
                | (_ :: _) as d => Some (key, Group5 d, skip_while is_digit r)
                | [] =>
                    match take_while is_word r with
                    | (_ :: _) as w => Some (key, Group6 w, skip_while is_word r)
                    | [] => None
                    end
                end
            end
        end
      else None
  | _, _ => None
  end.

(** [parseInt] of a run of digits. *)
Definition parseInt (d : jsstring) : jsval := VNumber (Json.digits_val d) 0.

(** [match[3] || match[4] || (match[5] ? parseInt(match[5]) : match[6])]:
    the groups that took no part are [undefined]. *)
Definition param_value (g : captured) : jsval :=
  match g with
  | Group3 s => if nonempty s then VString s else VUndefined
  | Group4 s => if nonempty s then VString s else VUndefined
  | Group5 d => parseInt d
  | Group6 w => VString w
  end.

(** [while ((match = paramRegex.exec(paramsStr)) !== null) result[key] = value]:
    the global pattern is tried at every position from [lastIndex] on;
    [skip] is the distance to [lastIndex]. *)
Fixpoint exec_loop (skip : nat) (paramsStr : jsstring) (result : jsobject)
  : jsobject :=
  match paramsStr with
  | [] => result
  | _ :: r =>
      match skip with
      | S n => exec_loop n r result
      | O =>
          match paramRegex paramsStr with
          | Some (key, g, rest) =>
              exec_loop (length r - length rest) r
                (set_prop key (param_value g) result)
          | None => exec_loop 0 r result
          end
      end
  end.

(** [/^\[?(\w+)\]?$/i], giving [simpleMatch[1]]. *)
Definition simpleMatch (actionStr : jsstring) : option jsstring :=
  let s1 := match actionStr with
            | c :: r => if c =? 91 then r else actionStr
            | [] => actionStr
            end in
  match take_while is_word s1, skip_while is_word s1 with
  | (_ :: _) as w, [] => Some w
  | (_ :: _) as w, [c] => if c =? 93 then Some w else None
  | _, _ => None
  end.

(** The result is a value: [VNull] is the [null] of the source. *)
Definition parseActionToObject (action : jsval) : jsval :=
  if negb (truthy action) then VNull
  else if typeof_object action then action
  else
    match action with
    | VString a =>
        let actionStr := trim a in
        if negb (nonempty actionStr) then VNull
        else
          match jsonMatch actionStr ≫= Json.parse with
          | Some v => v
          | None =>
              match funcMatch actionStr with
              | Some (actionName, paramsStr) =>
                  VObject (exec_loop 0 paramsStr {[ js "action" := VString actionName ]})
              | None =>
                  match simpleMatch actionStr with
                  | Some w => VObject {[ js "action" := VString w ]}
                  | None => VNull
                  end
              end
          end
    | _ => VNull
    end.

End ChatSteps.

(** ** Shared records: components/ChatSteps.tsx and types/index.ts *)

(** A value of type [string | null]. *)
Definition truthy_str (s : option jsstring) : bool :=
  match s with
  | Some t => nonempty t
  | None => false
  end.

(** [new Date(s)] and [new Date()] at a clock reading. *)
Inductive date :=
| DateOf (s : jsstring)
| DateAt (now : Z).

Record StepInfo := {
  si_step : Z;
  si_thinking : jsstring;
  si_action : jsval;
  si_finished : bool;
  si_success : bool;
  si_message : option jsstring
}.

Inductive ChatItemType :=
| user | thinking | action | result | error | takeover | sensitive.

Record ChatItem := {
  id : Z;
  type : ChatItemType;
  content : jsstring;
  timestamp : date;
  stepInfo : option StepInfo;
  actionData : option jsval
}.

Record ExecutionStep := {
  step : Z;
  step_action : jsval;
  step_thinking : option jsstring;
  description : option jsstring;
  screenshot : option jsstring;
  step_timestamp : jsstring
}.

(** ** lib/utils.ts *)

Module Utils.

(** [s.endsWith(c)] and [s.includes(c, position)] for one character. *)
Definition endsWith (c : N) (s : jsstring) : bool :=
  bool_decide (head (reverse s) = Some c).

Definition includes (c : N) (position : nat) (s : jsstring) : bool :=
  bool_decide (c ∈ drop position s).

(** The value of [dateStr] when the date is built: a [Z] is added to a
    text that does not end with [Z], has no [+], and has no [-] from
    position 10 on. *)
Definition dateStr (utcDateStr : jsstring) : jsstring :=
  if negb (endsWith 90 utcDateStr) && negb (includes 43 0 utcDateStr)
     && negb (includes 45 10 utcDateStr)
  then utcDateStr ++ js "Z"
  else utcDateStr.

Section formatDateTime.

(** [new Date(s).toLocaleString('zh-CN')]: it depends on the time zone
    of the browser. *)
Variable toLocaleString : jsstring → jsstring.

Definition formatDateTime (utcDateStr : option jsstring) : jsstring :=
  if negb (truthy_str utcDateStr) then js "-"
  else toLocaleString (dateStr (default [] utcDateStr)).

End formatDateTime.

End Utils.

(** ** pages/ExecutionDetail.tsx *)

Module ExecutionDetail.
Import Regex ChatSteps.

(** [<think(?:ing)?>] and [<\/think(?:ing)?>], under [i]. *)
Definition think_open : matcher :=
  seq (lit (js "<think")) (opt_then (lit (js "ing")) (lit (js ">"))).
Definition think_close : matcher :=
  seq (lit (js "</think")) (opt_then (lit (js "ing")) (lit (js ">"))).

(** [description.match(/<think(?:ing)?>([\s\S]*?)<\/think(?:ing)?>/i)],
    giving [thinkMatch[1]]. *)
Definition thinkRegex (s : jsstring) : option (jsstring * (jsstring * jsstring)) :=
  '(_, r) ← think_open s; lazy_any think_close r.

Definition thinkMatch (description : jsstring) : option jsstring :=
  '(_, (g, _)) ← search thinkRegex description; Some g.

(** [description.match(/<answer>([\s\S]*?)<\/answer>/i)], giving
    [answerMatch[1]]. *)
Definition answerRegex (s : jsstring) : option (jsstring * (jsstring * jsstring)) :=
  '(_, r) ← lit (js "<answer>") s; lazy_any (lit (js "</answer>")) r.

Definition answerMatch (description : jsstring) : option jsstring :=
  '(_, (g, _)) ← search answerRegex description; Some g.

(** The two [replace] calls and the [trim] that strip the markup. *)
Definition think_block : matcher := seq think_open (lazy_then think_close).
Definition answer_tag : matcher :=
  seq (lit (js "<")) (opt_then (lit (js "/")) (lit (js "answer>"))).

Definition strip_markup (description : jsstring) : jsstring :=
  trim (remove_all answer_tag 0 (remove_all think_block 0 description)).

Record StepData := {
  sd_thinking : option jsstring;
  sd_action : jsval
}.

Definition parseStepData (step : ExecutionStep) : StepData :=
  let thinking := if truthy_str (step_thinking step) then step_thinking step else None in
  let action := if truthy (step_action step)
                then parseActionToObject (step_action step) else VNull in
  if truthy_str thinking || truthy action then
    {| sd_thinking := thinking; sd_action := action |}
  else
    let description := default [] (description step) in
    if negb (nonempty description) then
      {| sd_thinking := None; sd_action := VNull |}
    else
      let thinking := match thinkMatch description with
                      | Some g => Some (trim g)
                      | None => thinking
                      end in
      let answer := match answerMatch description with
                    | Some g => trim g
                    | None => strip_markup description
                    end in
      {| sd_thinking := thinking;
         sd_action := parseActionToObject (VString answer) |}.

(** One turn of the loop of [convertStepsToChatItems]: the items pushed
    for [step], and the counter [id] after them. *)
Definition step_items (id : Z) (st : ExecutionStep) : list ChatItem * Z :=
  let d := parseStepData st in
  let timestamp := DateOf (step_timestamp st) in
  let '(items, id) :=
    if truthy_str (sd_thinking d) then
      ([ {| id := id; type := thinking; content := default [] (sd_thinking d);
            timestamp := timestamp;
            stepInfo := Some {| si_step := step st;
                                si_thinking := default [] (sd_thinking d);
                                si_action := sd_action d;
                                si_finished := false; si_success := true;
                                si_message := None |};
            actionData := None |} ], (id + 1)%Z)
    else ([], id) in
  if truthy (sd_action d) then
    (items ++ [ {| id := id; type := action; content := [];
                   timestamp := timestamp;
                   stepInfo := Some {| si_step := step st;
                                       si_thinking := if truthy_str (sd_thinking d)
                                                      then default [] (sd_thinking d)
                                                      else [];
                                       si_action := sd_action d;
                                       si_finished := false; si_success := true;
                                       si_message := None |};
                   actionData := Some (sd_action d) |} ], (id + 1)%Z)
  else if negb (truthy_str (sd_thinking d)) && truthy_str (description st) then
    let cleanDesc := strip_markup (default [] (description st)) in
    if nonempty cleanDesc then
      (items ++ [ {| id := id; type := thinking; content := cleanDesc;
                     timestamp := timestamp;
                     stepInfo := Some {| si_step := step st;
                                         si_thinking := cleanDesc;
                                         si_action := VNull;
                                         si_finished := false; si_success := true;
                                         si_message := None |};
                     actionData := None |} ], (id + 1)%Z)
    else (items, id)
  else (items, id).

Definition convert_loop (acc : list ChatItem * Z) (st : ExecutionStep)
  : list ChatItem * Z :=
  let '(new, id) := step_items acc.2 st in (acc.1 ++ new, id).

Definition convertStepsToChatItems (steps : list ExecutionStep) : list ChatItem :=
  (foldl convert_loop ([], 1%Z) steps).1.

(** *** The [EventSource] listeners of the running view *)

Record TokenEvent := {
  tk_step : Z;
  phase : jsstring;
  tk_content : jsstring
}.

(** The React state of the component, the variable [currentStep] the
    listeners close over, and what was done to the event source. *)
Record state := {
  streamSteps : list ExecutionStep;
  isStreaming : bool;
  streamingThinking : jsstring;
  streamingAction : jsstring;
  currentStreamStep : Z;
  currentStep : Z;
  closed : bool;
  refetched : bool
}.

(** The state when the effect has subscribed. *)
Definition subscribed (steps : list ExecutionStep) : state :=
  {| streamSteps := steps; isStreaming := true; streamingThinking := [];
     streamingAction := []; currentStreamStep := 0; currentStep := 0;
     closed := false; refetched := false |}.

Definition append_token (token : TokenEvent) (s : state) : state :=
  if decide (phase token = js "thinking") then
    {| streamSteps := streamSteps s; isStreaming := isStreaming s;
       streamingThinking := streamingThinking s ++ tk_content token;
       streamingAction := streamingAction s;
       currentStreamStep := currentStreamStep s; currentStep := currentStep s;
       closed := closed s; refetched := refetched s |}
  else if decide (phase token = js "action") then
    {| streamSteps := streamSteps s; isStreaming := isStreaming s;
       streamingThinking := streamingThinking s;
       streamingAction := streamingAction s ++ tk_content token;
       currentStreamStep := currentStreamStep s; currentStep := currentStep s;
       closed := closed s; refetched := refetched s |}
  else s.

(** [eventSource.addEventListener('token', ...)] *)
Definition on_token (token : TokenEvent) (s : state) : state :=
  let s1 :=
    if decide (tk_step token ≠ currentStep s) then
      {| streamSteps := streamSteps s; isStreaming := isStreaming s;
         streamingThinking := []; streamingAction := [];
         currentStreamStep := tk_step token; currentStep := tk_step token;
         closed := closed s; refetched := refetched s |}
    else s in
  append_token token s1.

(** [eventSource.addEventListener('step', ...)] *)
Definition on_step (st : ExecutionStep) (s : state) : state :=
  {| streamSteps := if existsb (λ x, (step x =? step st)%Z) (streamSteps s)
                    then streamSteps s
                    else streamSteps s ++ [st];
     isStreaming := isStreaming s;
     streamingThinking := []; streamingAction := [];
     currentStreamStep := currentStreamStep s; currentStep := currentStep s;
     closed := closed s; refetched := refetched s |}.

(** [eventSource.addEventListener('done', ...)] *)
Definition on_done (s : state) : state :=
  {| streamSteps := streamSteps s; isStreaming := false;
     streamingThinking := []; streamingAction := [];
     currentStreamStep := currentStreamStep s; currentStep := currentStep s;
     closed := true; refetched := true |}.

(** [eventSource.addEventListener('error', ...)] *)
Definition on_error (s : state) : state :=
  {| streamSteps := streamSteps s; isStreaming := false;
     streamingThinking := streamingThinking s;
     streamingAction := streamingAction s;
     currentStreamStep := currentStreamStep s; currentStep := currentStep s;
     closed := true; refetched := refetched s |}.

Inductive event :=
| EToken (token : TokenEvent)
| EStep (st : ExecutionStep)
| EDone
| EError.

(** A closed event source delivers nothing more. *)
Definition handle (s : state) (e : event) : state :=
  if closed s then s
  else match e with
       | EToken token => on_token token s
       | EStep st => on_step st s
       | EDone => on_done s
       | EError => on_error s
       end.

Definition run (s : state) (es : list event) : state := foldl handle s es.

End ExecutionDetail.

(** ** pages/Debug.tsx *)

Module Debug.
Import ChatSteps.

Record SensitiveAction := {
  sa_message : jsstring;
  sa_step : Z;
  sa_action : jsval
}.

(** The object parsed from a [data:] line, with the fields that
    [executeStream] reads.  A field that is missing reads as
    [undefined]: [None], [false], or the empty default. *)
Record SseData := {
  d_type : option jsstring;
  d_step : Z;
  d_phase : jsstring;
  d_content : jsstring;
  d_thinking : jsstring;
  d_action : jsval;
  d_finished : bool;
  d_success : bool;
  d_message : option jsstring;
  d_takeover : bool;
  d_sensitive : bool;
  d_paused : bool;
  d_pauseReason : option jsstring
}.

(** The React state of the page, with the timers that are waiting
    ([setTimeout] of the final result: its id and its content) and the
    commands posted to [/debug/execute-stream] so far. *)
Record state := {
  chatItems : list ChatItem;
  input : jsstring;
  isExecuting : bool;
  useFallback : bool;
  sensitiveAction : option SensitiveAction;
  pendingCommand : option jsstring;
  streamingThinking : jsstring;
  streamingAction : jsstring;
  currentStreamStep : Z;
  timers : list (Z * jsstring);
  requests : list jsstring
}.

Definition set_streaming (th ac : jsstring) (cur : Z) (s : state) : state :=
  {| chatItems := chatItems s; input := input s; isExecuting := isExecuting s;
     useFallback := useFallback s; sensitiveAction := sensitiveAction s;
     pendingCommand := pendingCommand s;
     streamingThinking := th; streamingAction := ac; currentStreamStep := cur;
     timers := timers s; requests := requests s |}.

Definition push_item (it : ChatItem) (s : state) : state :=
  {| chatItems := chatItems s ++ [it]; input := input s;
     isExecuting := isExecuting s; useFallback := useFallback s;
     sensitiveAction := sensitiveAction s; pendingCommand := pendingCommand s;
     streamingThinking := streamingThinking s;
     streamingAction := streamingAction s;
     currentStreamStep := currentStreamStep s;
     timers := timers s; requests := requests s |}.

Definition set_isExecuting (b : bool) (s : state) : state :=
  {| chatItems := chatItems s; input := input s; isExecuting := b;
     useFallback := useFallback s; sensitiveAction := sensitiveAction s;
     pendingCommand := pendingCommand s;
     streamingThinking := streamingThinking s;
     streamingAction := streamingAction s;
     currentStreamStep := currentStreamStep s;
     timers := timers s; requests := requests s |}.

Definition set_pendingCommand (c : option jsstring) (s : state) : state :=
  {| chatItems := chatItems s; input := input s; isExecuting := isExecuting s;
     useFallback := useFallback s; sensitiveAction := sensitiveAction s;
     pendingCommand := c;
     streamingThinking := streamingThinking s;
     streamingAction := streamingAction s;
     currentStreamStep := currentStreamStep s;
     timers := timers s; requests := requests s |}.

Definition set_sensitiveAction (a : option SensitiveAction) (s : state) : state :=
  {| chatItems := chatItems s; input := input s; isExecuting := isExecuting s;
     useFallback := useFallback s; sensitiveAction := a;
     pendingCommand := pendingCommand s;
     streamingThinking := streamingThinking s;
     streamingAction := streamingAction s;
     currentStreamStep := currentStreamStep s;
     timers := timers s; requests := requests s |}.

Definition item (i : Z) (t : ChatItemType) (c : jsstring) (now : Z)
    (si : option StepInfo) (ad : option jsval) : ChatItem :=
  {| id := i; type := t; content := c; timestamp := DateAt now;
     stepInfo := si; actionData := ad |}.

Definition has_type (data : SseData) (t : string) : bool :=
  bool_decide (d_type data = Some (js t)).

(** The branch for [token]. *)
Definition on_token (data : SseData) (s : state) : state :=
  let s1 := if decide (d_step data ≠ currentStreamStep s)
            then set_streaming [] [] (d_step data) s else s in
  if decide (d_phase data = js "thinking") then
    set_streaming (streamingThinking s1 ++ d_content data) (streamingAction s1)
      (currentStreamStep s1) s1
  else if decide (d_phase data = js "action") then
    set_streaming (streamingThinking s1) (streamingAction s1 ++ d_content data)
      (currentStreamStep s1) s1
  else s1.

Definition stepInfo_of (data : SseData) : StepInfo :=
  {| si_step := d_step data; si_thinking := d_thinking data;
     si_action := d_action data; si_finished := d_finished data;
     si_success := d_success data; si_message := d_message data |}.

(** The branch for [step]. *)
Definition on_step (now : Z) (data : SseData) (s : state) : state :=
  let stepInfo := stepInfo_of data in
  let s1 := set_streaming [] [] (currentStreamStep s) s in
  let s2 := if nonempty (si_thinking stepInfo)
            then push_item (item (now + si_step stepInfo * 100) thinking
                              (si_thinking stepInfo) now (Some stepInfo) None) s1
            else s1 in
  let s3 := if truthy (si_action stepInfo) && negb (d_takeover data)
               && negb (d_sensitive data)
            then let actionData := parseActionToObject (si_action stepInfo) in
                 if truthy actionData
                 then push_item (item (now + si_step stepInfo * 100 + 1) action
                                   [] now (Some stepInfo) (Some actionData)) s2
                 else s2
            else s2 in
  if si_finished stepInfo && truthy_str (si_message stepInfo) then
    {| chatItems := chatItems s3; input := input s3;
       isExecuting := isExecuting s3; useFallback := useFallback s3;
       sensitiveAction := sensitiveAction s3;
       pendingCommand := pendingCommand s3;
       streamingThinking := streamingThinking s3;
       streamingAction := streamingAction s3;
       currentStreamStep := currentStreamStep s3;
       timers := timers s3 ++ [((now + 2000)%Z, default [] (si_message stepInfo))];
       requests := requests s3 |}
  else s3.

(** The branch for [done]: the state, and whether the function returned. *)
Definition on_done (now : Z) (command : jsstring) (data : SseData) (s : state)
  : state * bool :=
  let s1 := set_streaming [] [] 0 s in
  if d_paused data then
    let s2 := set_isExecuting false s1 in
    (if decide (d_pauseReason data = Some (js "sensitive"))
     then set_pendingCommand (Some command) s2 else s2, true)
  else
    let s2 := if truthy_str (d_message data) && negb (d_success data)
              then push_item (item now result (default [] (d_message data)) now
                                None None) s1
              else s1 in
    (set_isExecuting false s2, true).

(** What the loop does with one [data:] line that parsed, under the
    event name seen last: the state, and whether [executeStream]
    returned. *)
Definition process_data (now : Z) (command eventType : jsstring)
    (data : SseData) (s : state) : state * bool :=
  if bool_decide (eventType = js "token") || has_type data "token" then
    (on_token data s, false)
  else if has_type data "start" then (s, false)
  else if has_type data "step" then (on_step now data s, false)
  else if has_type data "sensitive" then
    (push_item (item now sensitive (default [] (d_message data)) now None None)
       (set_sensitiveAction
          (Some {| sa_message := default [] (d_message data);
                   sa_step := d_step data; sa_action := d_action data |}) s),
     false)
  else if has_type data "takeover" then
    (push_item (item now takeover (default [] (d_message data)) now None None) s,
     false)
  else if has_type data "done" then on_done now command data s
  else if has_type data "error" then
    (set_isExecuting false
       (push_item (item now error (default [] (d_message data)) now None None)
          (set_streaming [] [] 0 s)), true)
  else (s, false).

(** The lines of the response body, each with the clock reading when it
    is handled.  A [data:] line that does not parse is skipped by the
    [catch], like any other line. *)
Inductive line :=
| LEvent (name : jsstring)
| LData (data : SseData)
| LOther.

(** The reading loop of [executeStream]; the body ends when the list
    does. *)
Fixpoint read_loop (command eventType : jsstring) (ls : list (Z * line))
    (s : state) : state :=
  match ls with
  | [] => set_isExecuting false s
  | (now, l) :: r =>
      match l with
      | LEvent name => read_loop command name r s
      | LData data =>
          let '(s', returned) := process_data now command eventType data s in
          if returned then s' else read_loop command eventType r s'
      | LOther => read_loop command eventType r s
      end
  end.

(** [executeStream(command)] up to the [fetch]: the streaming state is
    reset and the command is posted. *)
Definition executeStream (command : jsstring) (s : state) : state :=
  let s1 := set_streaming [] [] 0 s in
  {| chatItems := chatItems s1; input := input s1;
     isExecuting := isExecuting s1; useFallback := useFallback s1;
     sensitiveAction := sensitiveAction s1;
     pendingCommand := pendingCommand s1;
     streamingThinking := streamingThinking s1;
     streamingAction := streamingAction s1;
     currentStreamStep := currentStreamStep s1;
     timers := timers s1; requests := requests s1 ++ [command] |}.

(** The final result scheduled by a finished step is shown. *)
Definition fire_timer (now : Z) (s : state) : state :=
  match timers s with
  | [] => s
  | (i, c) :: r =>
      push_item (item i result c now None None)
        {| chatItems := chatItems s; input := input s;
           isExecuting := isExecuting s; useFallback := useFallback s;
           sensitiveAction := sensitiveAction s;
           pendingCommand := pendingCommand s;
           streamingThinking := streamingThinking s;
           streamingAction := streamingAction s;
           currentStreamStep := currentStreamStep s;
           timers := r; requests := requests s |}
  end.

Definition handleSend (now : Z) (s : state) : state :=
  if negb (nonempty (trim (input s))) || isExecuting s then s
  else
    let cmd := trim (input s) in
    let s1 := push_item (item now user cmd now None None) s in
    let s2 := set_isExecuting true s1 in
    executeStream cmd
      {| chatItems := chatItems s2; input := []; isExecuting := isExecuting s2;
         useFallback := useFallback s2; sensitiveAction := sensitiveAction s2;
         pendingCommand := pendingCommand s2;
         streamingThinking := streamingThinking s2;
         streamingAction := streamingAction s2;
         currentStreamStep := currentStreamStep s2;
         timers := timers s2; requests := requests s2 |}.

(** The fixed instruction sent to continue after a confirmation. *)
Definition continue_command : jsstring := js "继续执行".

Definition handleConfirmSensitive (now : Z) (s : state) : state :=
  let s1 := set_sensitiveAction None s in
  let s2 := push_item (item now result (js "已确认操作，继续执行...") now None None) s1 in
  if truthy_str (pendingCommand s) then
    set_pendingCommand None (executeStream continue_command (set_isExecuting true s2))
  else s2.

Definition handleCancelSensitive (now : Z) (s : state) : state :=
  push_item (item now error (js "已取消操作") now None None)
    (set_pendingCommand None (set_sensitiveAction None s)).

(** The [catch] of [executeStream], reached when the request or the
    reading of the body fails. *)
Definition stream_failed (now : Z) (message : jsstring) (s : state) : state :=
  set_isExecuting false
    (push_item (item now error message now None None) (set_streaming [] [] 0 s)).

(** [setInput(e.target.value)] *)
Definition setInput (text : jsstring) (s : state) : state :=
  {| chatItems := chatItems s; input := text; isExecuting := isExecuting s;
     useFallback := useFallback s; sensitiveAction := sensitiveAction s;
     pendingCommand := pendingCommand s;
     streamingThinking := streamingThinking s;
     streamingAction := streamingAction s;
     currentStreamStep := currentStreamStep s;
     timers := timers s; requests := requests s |}.

(** [onFallback={() => setUseFallback(true)}] *)
Definition setUseFallback (b : bool) (s : state) : state :=
  {| chatItems := chatItems s; input := input s; isExecuting := isExecuting s;
     useFallback := b; sensitiveAction := sensitiveAction s;
     pendingCommand := pendingCommand s;
     streamingThinking := streamingThinking s;
     streamingAction := streamingAction s;
     currentStreamStep := currentStreamStep s;
     timers := timers s; requests := requests s |}.

(** [buffer.split('\n')] *)
Fixpoint split_lines (buffer : jsstring) : list jsstring :=
  match buffer with
  | [] => [[]]
  | c :: r =>
      if c =? 10 then [] :: split_lines r
      else match split_lines r with
           | l :: ls => (c :: l) :: ls
           | [] => [[c]]
           end
  end.

(** One turn of the reading loop: the chunk is added to the buffer, the
    lines before the last one are handled and the last one is the new
    buffer. *)
Definition read_chunk (buffer chunk : jsstring) : list jsstring * jsstring :=
  let lines := split_lines (buffer ++ chunk) in
  (removelast lines, List.last lines []).

(** The lines handled over the chunks of a body, and the buffer when
    the body ends. *)
Definition read_chunks (chunks : list jsstring) : list jsstring * jsstring :=
  foldl (λ acc chunk, let '(lines, buffer) := read_chunk acc.2 chunk in
                      (acc.1 ++ lines, buffer))
    ([], []) chunks.

End Debug.

(** ** The live screen: components/ScrcpyPlayer, components/ScreenshotViewer

    Time is kept as the table of timers that [setTimeout] has armed, each
    with its delay; a timer firing is an event, like a socket message. *)

Module Timers.

Record table := {
  armed : list (nat * Z);
  next : nat
}.

Definition empty : table := {| armed := []; next := 1 |}.

(** [setTimeout(_, delay)]: the new table and the handle returned. *)
Definition setTimeout (delay : Z) (t : table) : table * nat :=
  ({| armed := armed t ++ [(next t, delay)]; next := S (next t) |}, next t).

(** [clearTimeout(h)], also what firing does to the table. *)
Definition clearTimeout (h : nat) (t : table) : table :=
  {| armed := filter (λ x, x.1 ≠ h) (armed t); next := next t |}.

Definition is_armed (h : nat) (t : table) : bool :=
  bool_decide (h ∈ (armed t).*1).

End Timers.

Module ScrcpyPlayer.

Inductive Status := connecting | connected | error | disconnected.

(** [socket_open] is false once the socket was closed by the component;
    [socket_connected] is [socket.connected], which a drop of the
    connection clears until the socket reconnects. *)
Record state := {
  status : Status;
  errorMessage : option jsstring;
  hasReceivedData : bool;
  fallbackTimer : option nat;
  timers : Timers.table;
  socket_open : bool;
  socket_connected : bool;
  handlers : nat
}.

(** [connect()] on a fresh component: the socket is created. *)
Definition connect : state :=
  {| status := connecting; errorMessage := None; hasReceivedData := false;
     fallbackTimer := None; timers := Timers.empty; socket_open := true;
     socket_connected := false; handlers := 0 |}.

Inductive event :=
| SocketConnect
| FallbackTimer (h : nat)
| VideoMetadata (decoder_ok : bool)
| VideoData
| SocketError (message : option jsstring)
| ConnectError (message : jsstring)
| SocketDisconnect.

(** [setStatus('error'); setErrorMessage(msg)], followed by
    [socket.close()] when [close] is set.  Closing a socket that is
    connected runs the [disconnect] listener, whose
    [setStatus('disconnected')] is then the last update of the status. *)
Definition fail (msg : jsstring) (close : bool) (s : state) : state :=
  {| status := if close && socket_connected s then disconnected else error;
     errorMessage := Some msg;
     hasReceivedData := hasReceivedData s; fallbackTimer := fallbackTimer s;
     timers := timers s;
     socket_open := if close then false else socket_open s;
     socket_connected := if close then false else socket_connected s;
     handlers := handlers s |}.

(** The callback given to [setTimeout] in the [connect] listener. *)
Definition on_fallback_timer (h : nat) (s : state) : state * bool :=
  if Timers.is_armed h (timers s) then
    let s1 := {| status := status s; errorMessage := errorMessage s;
                 hasReceivedData := hasReceivedData s;
                 fallbackTimer := fallbackTimer s;
                 timers := Timers.clearTimeout h (timers s);
                 socket_open := socket_open s;
                 socket_connected := socket_connected s;
                 handlers := handlers s |} in
    if negb (hasReceivedData s) then (fail (js "视频流超时") true s1, true)
    else (s1, false)
  else (s, false).

(** [handleVideoData], as far as the watchdog goes. *)
Definition handleVideoData (s : state) : state :=
  {| status := status s; errorMessage := errorMessage s;
     hasReceivedData := true; fallbackTimer := None;
     timers := match fallbackTimer s with
               | Some h => Timers.clearTimeout h (timers s)
               | None => timers s
               end;
     socket_open := socket_open s; socket_connected := socket_connected s;
     handlers := handlers s |}.

(** [error?.message || 'Socket 错误'] *)
Definition error_message (message : option jsstring) : jsstring :=
  if truthy_str message then default [] message else js "Socket 错误".

(** One event: the state, and whether [onFallback] was called.  A
    closed socket delivers nothing; a timer fires all the same. *)
Definition handle (fallbackTimeout : Z) (s : state) (e : event) : state * bool :=
  match e with
  | FallbackTimer h => on_fallback_timer h s
  | _ =>
      if negb (socket_open s) then (s, false)
      else match e with
      | SocketConnect =>
          let '(t, h) := Timers.setTimeout fallbackTimeout (timers s) in
          ({| status := status s; errorMessage := errorMessage s;
              hasReceivedData := hasReceivedData s; fallbackTimer := Some h;
              timers := t; socket_open := socket_open s;
              socket_connected := true;
              handlers := handlers s |}, false)
      | VideoMetadata true =>
          ({| status := connected; errorMessage := errorMessage s;
              hasReceivedData := hasReceivedData s;
              fallbackTimer := fallbackTimer s; timers := timers s;
              socket_open := socket_open s;
              socket_connected := socket_connected s;
              handlers := S (handlers s) |}, false)
      | VideoMetadata false => (fail (js "解码器初始化失败") true s, true)
      | VideoData =>
          match handlers s with
          | O => (s, false)
          | S _ => (handleVideoData s, false)
          end
      | SocketError m => (fail (error_message m) false s, false)
      | ConnectError m => (fail (js "连接失败: " ++ m) false s, true)
      | SocketDisconnect =>
          ({| status := disconnected; errorMessage := errorMessage s;
              hasReceivedData := hasReceivedData s;
              fallbackTimer := fallbackTimer s; timers := timers s;
              socket_open := socket_open s; socket_connected := false;
              handlers := handlers s |}, false)
      | FallbackTimer _ => (s, false)
      end
  end.

(** [disconnect()]: the socket is closed and the timer that
    [fallbackTimerRef] holds is cleared. *)
Definition disconnect (s : state) : state :=
  {| status := disconnected; errorMessage := errorMessage s;
     hasReceivedData := hasReceivedData s; fallbackTimer := None;
     timers := match fallbackTimer s with
               | Some h => Timers.clearTimeout h (timers s)
               | None => timers s
               end;
     socket_open := false; socket_connected := false;
     handlers := handlers s |}.

End ScrcpyPlayer.

(** The packets of [handleVideoData]: the closure that one
    [video-metadata] event creates, with its two local variables, the
    chunks handed to [writer.write] in the order of the calls, and for
    every write that has not completed yet the code that waits for it.  A
    write that fails is not modelled. *)
Module VideoStream.

(** A [video-data] message; [pts] is an integer when it is there. *)
Record VideoPacket := {
  vp_type : jsstring;
  vp_data : list Byte.byte;
  keyframe : option bool;
  pts : option Z
}.

(** The packet built for the decoder: [pts] is [undefined] when it is
    missing or zero. *)
Definition packet_of (data : VideoPacket) : VideoPacket :=
  {| vp_type := vp_type data; vp_data := vp_data data;
     keyframe := keyframe data;
     pts := match pts data with
            | Some p => if (p =? 0)%Z then None else Some p
            | None => None
            end |}.

(** What follows an [await writer.write(...)]: the end of the handler,
    or the [for ... of] loop over the pending packets at index [i]. *)
Inductive continuation :=
| Return
| Flush (i : nat).

Record state := {
  configurationPacketSent : bool;
  pendingDataPackets : list VideoPacket;
  written : list VideoPacket;
  awaiting : list continuation
}.

Definition initial : state :=
  {| configurationPacketSent := false; pendingDataPackets := [];
     written := []; awaiting := [] |}.

(** [await writer.write(packet)], up to the [await]. *)
Definition write (packet : VideoPacket) (k : continuation) (s : state) : state :=
  {| configurationPacketSent := configurationPacketSent s;
     pendingDataPackets := pendingDataPackets s;
     written := written s ++ [packet];
     awaiting := awaiting s ++ [k] |}.

(** [handleVideoData(data)], up to its first [await]. *)
Definition handleVideoData (data : VideoPacket) (s : state) : state :=
  if decide (vp_type data = js "configuration") then
    write (packet_of data) (Flush 0)
      {| configurationPacketSent := true;
         pendingDataPackets := pendingDataPackets s;
         written := written s; awaiting := awaiting s |}
  else if decide (vp_type data = js "data") then
    if negb (configurationPacketSent s) then
      {| configurationPacketSent := configurationPacketSent s;
         pendingDataPackets := pendingDataPackets s ++ [data];
         written := written s; awaiting := awaiting s |}
    else write (packet_of data) Return s
  else s.

(** The code after an [await], up to the next one. *)
Definition resume (k : continuation) (s : state) : state :=
  match k with
  | Return => s
  | Flush i =>
      match pendingDataPackets s !! i with
      | Some p => write (packet_of p) (Flush (S i)) s
      | None =>
          {| configurationPacketSent := configurationPacketSent s;
             pendingDataPackets := [];
             written := written s; awaiting := awaiting s |}
      end
  end.

(** A message arrives, or the oldest write completes and the handler
    that waits for it goes on. *)
Inductive event :=
| VideoData (data : VideoPacket)
| WriteDone.

Definition handle (s : state) (e : event) : state :=
  match e with
  | VideoData data => handleVideoData data s
  | WriteDone =>
      match awaiting s with
      | [] => s
      | k :: w =>
          resume k {| configurationPacketSent := configurationPacketSent s;
                      pendingDataPackets := pendingDataPackets s;
                      written := written s; awaiting := w |}
      end
  end.

Definition run (s : state) (es : list event) : state := foldl handle s es.

End VideoStream.

Module ScreenshotViewer.

(** [imageUrl] is the screenshot URL with the clock reading appended;
    [None] is the empty string it starts as. *)
Record state := {
  imageUrl : option Z;
  error : option jsstring;
  timeoutRef : option nat;
  mounted : bool;
  timers : Timers.table
}.

Definition updateImage (now : Z) (s : state) : state :=
  if negb (mounted s) then s
  else {| imageUrl := Some now; error := error s; timeoutRef := timeoutRef s;
          mounted := mounted s; timers := timers s |}.

Definition scheduleNext (refreshInterval : Z) (s : state) : state :=
  if negb (mounted s) then s
  else let '(t, h) := Timers.setTimeout refreshInterval (timers s) in
       {| imageUrl := imageUrl s; error := error s; timeoutRef := Some h;
          mounted := mounted s; timers := t |}.

(** The effect that runs when the component is mounted. *)
Definition mount (refreshInterval now : Z) : state :=
  scheduleNext refreshInterval
    (updateImage now
       {| imageUrl := None; error := None; timeoutRef := None;
          mounted := true; timers := Timers.empty |}).

(** The cleanup of the effect, when the component is unmounted. *)
Definition unmount (s : state) : state :=
  {| imageUrl := imageUrl s; error := error s; timeoutRef := None;
     mounted := false;
     timers := match timeoutRef s with
               | Some h => Timers.clearTimeout h (timers s)
               | None => timers s
               end |}.

Inductive event :=
| Tick (h : nat) (now : Z)
| Load
| LoadError.

Definition handleLoad (s : state) : state :=
  {| imageUrl := imageUrl s; error := None; timeoutRef := timeoutRef s;
     mounted := mounted s; timers := timers s |}.

Definition handleError (s : state) : state := s.

Definition handle (refreshInterval : Z) (s : state) (e : event) : state :=
  match e with
  | Tick h now =>
      if Timers.is_armed h (timers s) then
        scheduleNext refreshInterval
          (updateImage now
             {| imageUrl := imageUrl s; error := error s;
                timeoutRef := timeoutRef s; mounted := mounted s;
                timers := Timers.clearTimeout h (timers s) |})
      else s
  | Load => handleLoad s
  | LoadError => handleError s
  end.

Inductive shown := ErrorText (e : jsstring) | Loading | Image (t : Z).

Definition render (s : state) : shown :=
  match error s, imageUrl s with
  | Some e, _ => if nonempty e then ErrorText e
                 else match imageUrl s with Some t => Image t | None => Loading end
  | None, Some t => Image t
  | None, None => Loading
  end.

End ScreenshotViewer.

(** The right-hand column of the two pages. *)
Module LiveScreen.

Inductive view :=
| NoDevice
| Player (fallbackTimeout : Z)
| PolledScreenshots (refreshInterval : Z)
| StreamImage
| Recording
| NoRecording.

(** pages/ExecutionDetail.tsx *)
Definition ExecutionDetail_view (isRunning : bool)
    (stableDeviceId : option jsstring) (useFallback has_recording : bool) : view :=
  if isRunning then
    if truthy_str stableDeviceId then
      if useFallback then PolledScreenshots 500 else Player 15000
    else NoDevice
  else if has_recording then Recording else NoRecording.

(** pages/Debug.tsx *)
Definition Debug_view (activeDevice : bool) (useFallback : bool) : view :=
  if activeDevice then
    if useFallback then StreamImage else Player 8000
  else NoDevice.

(** [onFallback={() => setUseFallback(true)}]: the only writer of
    [useFallback] in both pages. *)
Definition onFallback (useFallback called : bool) : bool :=
  if called then true else useFallback.

(** The page and its player, one player event at a time. *)
Definition step (fallbackTimeout : Z) (s : bool * ScrcpyPlayer.state)
    (e : ScrcpyPlayer.event) : bool * ScrcpyPlayer.state :=
  let '(p, called) := ScrcpyPlayer.handle fallbackTimeout s.2 e in
  (onFallback s.1 called, p).

End LiveScreen.

(** * Vocabulary of the properties *)

Module StepLog.
Import ExecutionDetail.

(** The step indices of an accumulated list. *)
Definition indices (steps : list ExecutionStep) : list Z := step <$> steps.

(** Each index is the one before it plus one. *)
Definition increasing_by_one (l : list Z) : Prop :=
  ∀ i a b, l !! i = Some a → l !! S i = Some b → b = (a + 1)%Z.

(** The indices carried by the [step] events of a stream, in order. *)
Definition step_events (es : list event) : list Z :=
  omap (λ e, match e with EStep st => Some (step st) | _ => None end) es.

(** The order the producer promises: an index is repeated or followed by
    its successor. *)
Fixpoint chain (prev : Z) (l : list Z) : Prop :=
  match l with
  | [] => True
  | y :: r => (y = prev ∨ y = (prev + 1)%Z) ∧ chain y r
  end.

Definition gapless (l : list Z) : Prop :=
  match l with
  | [] => True
  | x :: r => chain x r
  end.

(** The log is a run of consecutive indices ending with the index seen
    last, and what is still to come continues it. *)
Definition in_step (s : state) (rest : list Z) : Prop :=
  (indices (streamSteps s) = [] ∧ gapless rest)
  ∨ ∃ a n, indices (streamSteps s) = seqZ a (Z.of_nat (S n))
           ∧ chain (a + Z.of_nat n) rest.

Definition a_step (i : Z) : ExecutionStep :=
  {| step := i; step_action := VNull; step_thinking := None;
     description := None; screenshot := None; step_timestamp := [] |}.

End StepLog.

Module Buffers.

(** The two incremental buffers after a [token]: emptied first when the
    step changed, then extended by the content on the side of its
    phase. *)
Definition after_token (changed : bool) (phase content : jsstring)
    (buffers : jsstring * jsstring) : jsstring * jsstring :=
  let base := if changed then ([], []) else buffers in
  if decide (phase = js "thinking") then (base.1 ++ content, base.2)
  else if decide (phase = js "action") then (base.1, base.2 ++ content)
  else base.

Definition a_token (i : Z) (ph : string) (c : string) : Debug.SseData :=
  {| Debug.d_type := Some (js "token"); Debug.d_step := i;
     Debug.d_phase := js ph; Debug.d_content := js c;
     Debug.d_thinking := []; Debug.d_action := VNull;
     Debug.d_finished := false; Debug.d_success := false;
     Debug.d_message := None; Debug.d_takeover := false;
     Debug.d_sensitive := false; Debug.d_paused := false;
     Debug.d_pauseReason := None |}.

Definition a_step_event (i : Z) (th : string) : Debug.SseData :=
  {| Debug.d_type := Some (js "step"); Debug.d_step := i;
     Debug.d_phase := []; Debug.d_content := [];
     Debug.d_thinking := js th; Debug.d_action := VString (js "Tap(x=1)");
     Debug.d_finished := false; Debug.d_success := true;
     Debug.d_message := None; Debug.d_takeover := false;
     Debug.d_sensitive := false; Debug.d_paused := false;
     Debug.d_pauseReason := None |}.

Definition a_done (paused : bool) (reason : option jsstring) : Debug.SseData :=
  {| Debug.d_type := Some (js "done"); Debug.d_step := 0;
     Debug.d_phase := []; Debug.d_content := [];
     Debug.d_thinking := []; Debug.d_action := VNull;
     Debug.d_finished := false; Debug.d_success := false;
     Debug.d_message := Some (js "paused"); Debug.d_takeover := false;
     Debug.d_sensitive := false; Debug.d_paused := paused;
     Debug.d_pauseReason := reason |}.

(** The page when it is first shown. *)
Definition initial : Debug.state :=
  {| Debug.chatItems := []; Debug.input := []; Debug.isExecuting := false;
     Debug.useFallback := false; Debug.sensitiveAction := None;
     Debug.pendingCommand := None; Debug.streamingThinking := [];
     Debug.streamingAction := []; Debug.currentStreamStep := 0;
     Debug.timers := []; Debug.requests := [] |}.

Definition typing (text : string) (s : Debug.state) : Debug.state :=
  {| Debug.chatItems := Debug.chatItems s; Debug.input := js text;
     Debug.isExecuting := Debug.isExecuting s;
     Debug.useFallback := Debug.useFallback s;
     Debug.sensitiveAction := Debug.sensitiveAction s;
     Debug.pendingCommand := Debug.pendingCommand s;
     Debug.streamingThinking := Debug.streamingThinking s;
     Debug.streamingAction := Debug.streamingAction s;
     Debug.currentStreamStep := Debug.currentStreamStep s;
     Debug.timers := Debug.timers s; Debug.requests := Debug.requests s |}.

(** A command has been sent and its stream has paused for a sensitive
    action. *)
Definition paused_for_payment : Debug.state :=
  Debug.read_loop (js "pay the bill") []
    [(1%Z, Debug.LEvent (js "done"));
     (2%Z, Debug.LData (a_done true (Some (js "sensitive"))))]
    (Debug.handleSend 0 (typing " pay the bill " initial)).

End Buffers.

Module Watchdog.

(** The page and its player over a run of player events. *)
Definition run (fallbackTimeout : Z) (s : bool * ScrcpyPlayer.state)
    (es : list ScrcpyPlayer.event) : bool * ScrcpyPlayer.state :=
  foldl (LiveScreen.step fallbackTimeout) s es.

(** Video data was handled in the run: a [video-data] message came
    while the socket was open and [handleVideoData] was registered. *)
Fixpoint handled (fallbackTimeout : Z) (p : ScrcpyPlayer.state)
    (es : list ScrcpyPlayer.event) : bool :=
  match es with
  | [] => false
  | e :: r =>
      match e with
      | ScrcpyPlayer.VideoData =>
          ScrcpyPlayer.socket_open p && negb (ScrcpyPlayer.handlers p =? 0)%nat
      | _ => false
      end
      || handled fallbackTimeout (ScrcpyPlayer.handle fallbackTimeout p e).1 r
  end.

(** The screenshot viewer over a run of its events. *)
Definition poll (refreshInterval : Z) (v : ScreenshotViewer.state)
    (es : list ScreenshotViewer.event) : ScreenshotViewer.state :=
  foldl (ScreenshotViewer.handle refreshInterval) v es.

Definition is_polled (v : LiveScreen.view) : bool :=
  match v with
  | LiveScreen.PolledScreenshots _ => true
  | _ => false
  end.

(** What holds of the viewer as long as it is mounted. *)
Definition polling (ri : Z) (v : ScreenshotViewer.state) : Prop :=
  ScreenshotViewer.error v = None
  ∧ ScreenshotViewer.mounted v = true
  ∧ (∃ t, ScreenshotViewer.imageUrl v = Some t)
  ∧ ∃ h, ScreenshotViewer.timeoutRef v = Some h
         ∧ Timers.armed (ScreenshotViewer.timers v) = [(h, ri)].

(** The number of [connect] events in a run: more than one when the
    socket reconnects. *)
Fixpoint connects (es : list ScrcpyPlayer.event) : nat :=
  match es with
  | [] => 0
  | ScrcpyPlayer.SocketConnect :: r => S (connects r)
  | _ :: r => connects r
  end.

(** Every timer that is armed is the one [fallbackTimerRef] holds. *)
Definition tracked (p : ScrcpyPlayer.state) : Prop :=
  ∀ h, Timers.is_armed h (ScrcpyPlayer.timers p) = true →
       ScrcpyPlayer.fallbackTimer p = Some h.

(** The player after the socket connected, dropped and connected
    again. *)
Definition reconnected (fallbackTimeout : Z) : ScrcpyPlayer.state :=
  (run fallbackTimeout (false, ScrcpyPlayer.connect)
     [ScrcpyPlayer.SocketConnect; ScrcpyPlayer.SocketDisconnect;
      ScrcpyPlayer.SocketConnect]).2.

(** The player after the first video data was handled. *)
Definition streaming (fallbackTimeout : Z) : ScrcpyPlayer.state :=
  (run fallbackTimeout (false, ScrcpyPlayer.connect)
     [ScrcpyPlayer.SocketConnect; ScrcpyPlayer.VideoMetadata true;
      ScrcpyPlayer.VideoData]).2.

End Watchdog.

Module JsonShape.
Import Json.

(** The bottom frame of the stack is an object. *)
Definition obj_stack (st : list frame) : Prop :=
  ∃ st' o k, st = st' ++ [FObj o k].

(** The outermost container being read is an object. *)
Definition outer_object (m : pmode) : Prop :=
  match m with
  | PValue st | PArrOpen st | PArrNext _ st => obj_stack st
  | PObjOpen st | PObjKey _ st | PObjColon _ _ st | PObjNext _ st =>
      st = [] ∨ obj_stack st
  | PDone v => ∃ o, v = VObject o
  end.

End JsonShape.

(** The formats of an action string, said without the matchers. *)
Module Formats.

(** A run of word characters that is not empty: [\w+]. *)
Definition words (w : jsstring) : Prop :=
  w ≠ [] ∧ Forall (λ c, is_word c = true) w.

(** The text [t] is the pattern [p] up to the case of ASCII letters. *)
Definition same_ci (p t : jsstring) : Prop :=
  Forall2 (λ a c, eq_ci a c = true) p t.

(** The quoted key that the first format looks for. *)
Definition action_key : jsstring := [34] ++ js "action" ++ [34].

(** The key stands at the head of [s]. *)
Definition key_at (s : jsstring) : Prop :=
  ∃ t r, s = t ++ r ∧ same_ci action_key t.

(** Format 1: [m] is the part of [s] from its first opening brace,
    through the first quoted key after it, to the first closing brace
    after that key. *)
Definition json_form (s m : jsstring) : Prop :=
  ∃ pre a t mid post,
    s = pre ++ m ++ post
    ∧ m = [123] ++ a ++ t ++ mid ++ [125]
    ∧ (123 ∉ pre)
    ∧ same_ci action_key t
    ∧ (125 ∉ mid)
    ∧ ∀ i, (i < length a)%nat → ¬ key_at (drop i (a ++ t)).

(** Format 2: [name(args)]. *)
Definition call_form (s name args : jsstring) : Prop :=
  s = name ++ [40] ++ args ++ [41] ∧ words name.

(** Format 3: a bare name, with an opening bracket before it or a closing
    bracket after it or neither or both. *)
Definition bare_form (s w : jsstring) : Prop :=
  words w
  ∧ (s = w ∨ s = [91] ++ w ∨ s = w ++ [93] ∨ s = [91] ++ w ++ [93]).

(** A quoted word, for writing examples. *)
Definition quote (s : string) : jsstring := [34] ++ js s ++ [34].

(** A JSON object with an [action] key and a nested object. *)
Definition nested_action : jsstring :=
  js "{" ++ quote "action" ++ js ":" ++ quote "Tap" ++ js "," ++ quote "p"
  ++ js ":{" ++ quote "x" ++ js ":1}}".

End Formats.

(** The function-call form of an action, as it is written. *)
Module CallSyntax.
Import Formats.

Inductive arg :=
| DoubleQuoted (s : jsstring)
| SingleQuoted (s : jsstring)
| Digits (d : jsstring)
| Bare (w : jsstring).

Definition render_arg (a : arg) : jsstring :=
  match a with
  | DoubleQuoted s => [34] ++ s ++ [34]
  | SingleQuoted s => [39] ++ s ++ [39]
  | Digits d => d
  | Bare w => w
  end.

Definition render_pair (p : jsstring * arg) : jsstring :=
  p.1 ++ [61] ++ render_arg p.2.

(** The pairs, separated by a comma and a space. *)
Fixpoint render_args (l : list (jsstring * arg)) : jsstring :=
  match l with
  | [] => []
  | p :: r =>
      match r with
      | [] => render_pair p
      | _ :: _ => render_pair p ++ js ", " ++ render_args r
      end
  end.

(** [Name(k1=v1, k2=v2, ...)] *)
Definition render_call (name : jsstring) (l : list (jsstring * arg)) : jsstring :=
  name ++ [40] ++ render_args l ++ [41].

(** A value is one of the four kinds: text without the quote that
    delimits it, a run of digits, or a word that does not start with a
    digit. *)
Definition well_formed (a : arg) : Prop :=
  match a with
  | DoubleQuoted s => 34 ∉ s
  | SingleQuoted s => 39 ∉ s
  | Digits d => d ≠ [] ∧ Forall (λ c, is_digit c = true) d
  | Bare w => words w ∧ ∃ c r, w = c :: r ∧ is_digit c = false
  end.

(** The capture group that takes part for each kind. *)
Definition group_of (a : arg) : ChatSteps.captured :=
  match a with
  | DoubleQuoted s => ChatSteps.Group3 s
  | SingleQuoted s => ChatSteps.Group4 s
  | Digits d => ChatSteps.Group5 d
  | Bare w => ChatSteps.Group6 w
  end.

(** The value the record should hold: quoted text and words as strings,
    digits as a number. *)
Definition value_of (a : arg) : jsval :=
  match a with
  | DoubleQuoted s | SingleQuoted s | Bare s => VString s
  | Digits d => VNumber (Json.digits_val d) 0
  end.

Definition quoted_nonempty (a : arg) : Prop :=
  match a with
  | DoubleQuoted s | SingleQuoted s => s ≠ []
  | _ => True
  end.

(** The record built from the name and the pairs, in order. *)
Definition record_of (name : jsstring) (l : list (jsstring * arg)) : jsobject :=
  foldl (λ o p, set_prop p.1 (ChatSteps.param_value (group_of p.2)) o)
    {[ js "action" := VString name ]} l.

(** [Type(text='{"action":"x"}')]: a call whose quoted value holds a JSON
    object. *)
Definition call_with_json : jsstring :=
  render_call (js "Type")
    [(js "text",
      SingleQuoted (js "{" ++ quote "action" ++ js ":" ++ quote "x" ++ js "}"))].

(** [Type] with an empty double-quoted [text]. *)
Definition call_with_empty_text : jsstring :=
  render_call (js "Type") [(js "text", DoubleQuoted [])].

End CallSyntax.

(** The legacy description of a step. *)
Module Legacy.

Definition with_description (d : option jsstring) (st : ExecutionStep)
  : ExecutionStep :=
  {| step := step st; step_action := step_action st;
     step_thinking := step_thinking st; description := d;
     screenshot := screenshot st; step_timestamp := step_timestamp st |}.

(** The opening and the closing tag of the thinking section. *)
Definition think_tags (o c : jsstring) : Prop :=
  (o = js "<think>" ∨ o = js "<thinking>")
  ∧ (c = js "</think>" ∨ c = js "</thinking>").

(** Text without markup: no [<] in it. *)
Definition plain (x : jsstring) : Prop := 60 ∉ x.

(** What [parseStepData] reads from a description. *)
Definition parse_description (d : jsstring) : ExecutionDetail.StepData :=
  {| ExecutionDetail.sd_thinking := trim <$> ExecutionDetail.thinkMatch d;
     ExecutionDetail.sd_action :=
       ChatSteps.parseActionToObject
         (VString match ExecutionDetail.answerMatch d with
                  | Some g => trim g
                  | None => ExecutionDetail.strip_markup d
                  end) |}.

Definition legacy_step (d : string) : ExecutionStep :=
  {| step := 1; step_action := VNull; step_thinking := None;
     description := Some (js d); screenshot := None; step_timestamp := [] |}.

Definition new_step (th : option jsstring) (a : jsval) (d : string) : ExecutionStep :=
  {| step := 1; step_action := a; step_thinking := th;
     description := Some (js d); screenshot := None; step_timestamp := [] |}.

(** The matcher [k] fails wherever it is started inside [x], whatever
    follows [x]. *)
Definition fails_in {A} (k : jsstring → option A) (x : jsstring) : Prop :=
  ∀ s i, (i < length x)%nat → k (drop i (x ++ s)) = None.

End Legacy.

(** The packets of the video stream. *)
Module Packets.
Import VideoStream.

Definition is_data (d : VideoPacket) : Prop := vp_type d = js "data".

Definition is_configuration (d : VideoPacket) : Prop :=
  vp_type d = js "configuration".

(** The messages of a run, in order. *)
Definition arrived (es : list event) : list VideoPacket :=
  omap (λ e, match e with VideoData d => Some d | WriteDone => None end) es.

(** Nothing is written before the configuration is. *)
Definition configured (s : state) : Prop :=
  if configurationPacketSent s
  then ∃ p r, written s = p :: r ∧ is_configuration p
  else written s = [] ∧ awaiting s = [].

(** What holds of the closure after the packets [A] have arrived:
    every one of them is written or pending; a loop that is at index [i]
    has written the pending packets before [i]; after the configuration,
    packets are pending only while a loop is under way; and before it no
    write is awaited. *)
Definition accounted (A : list VideoPacket) (s : state) : Prop :=
  (∀ d, d ∈ A → is_data d ∨ is_configuration d →
        packet_of d ∈ written s ∨ d ∈ pendingDataPackets s)
  ∧ (∀ i j p, Flush i ∈ awaiting s → (j < i)%nat →
              pendingDataPackets s !! j = Some p → packet_of p ∈ written s)
  ∧ (configurationPacketSent s = true →
     pendingDataPackets s = [] ∨ ∃ i, Flush i ∈ awaiting s)
  ∧ (configurationPacketSent s = false → awaiting s = []).

(** A data packet with the time stamp [t], and a configuration packet. *)
Definition frame (t : Z) : VideoPacket :=
  {| vp_type := js "data"; vp_data := []; keyframe := Some false;
     pts := Some t |}.

Definition configuration : VideoPacket :=
  {| vp_type := js "configuration"; vp_data := []; keyframe := None;
     pts := None |}.

End Packets.

(** The items that [convertStepsToChatItems] makes. *)
Module ChatLog.
Import ExecutionDetail.

(** The item with its [id] moved up by [n]. *)
Definition renumber (n : Z) (it : ChatItem) : ChatItem :=
  {| id := id it + n; type := type it; content := content it;
     timestamp := timestamp it; stepInfo := stepInfo it;
     actionData := actionData it |}.

(** The item was made for the step [st]. *)
Definition made_for (st : ExecutionStep) (it : ChatItem) : Prop :=
  timestamp it = DateOf (step_timestamp st)
  ∧ ∃ si, stepInfo it = Some si ∧ si_step si = step st.

(** The two kinds of item that a stored step gives. *)
Definition thinking_item (it : ChatItem) : Prop :=
  type it = thinking ∧ content it ≠ [] ∧ actionData it = None.

Definition action_item (it : ChatItem) : Prop :=
  type it = action ∧ content it = []
  ∧ ∃ v, actionData it = Some v ∧ truthy v = true.

End ChatLog.

(** The debug console as a whole. *)
Module Console.
Import Debug.

(** What can happen to the page: the user types, sends, confirms or
    cancels; a scheduled result is shown; a line of the body of a command
    that was posted is handled; the body ends; the request fails; the
    player tells the page to fall back. *)
Inductive transition : state → state → Prop :=
| t_input text s : transition s (setInput text s)
| t_send now s : transition s (handleSend now s)
| t_confirm now s : transition s (handleConfirmSensitive now s)
| t_cancel now s : transition s (handleCancelSensitive now s)
| t_timer now s : transition s (fire_timer now s)
| t_data now command eventType data s :
    command ∈ requests s →
    transition s (process_data now command eventType data s).1
| t_end s : transition s (set_isExecuting false s)
| t_failed now message s : transition s (stream_failed now message s)
| t_fallback s : transition s (setUseFallback true s).

Definition commands_nonempty (s : state) : Prop :=
  Forall (λ c, c ≠ []) (requests s)
  ∧ ∀ c, pendingCommand s = Some c → c ≠ [].

(** The user has typed [hi] and sent it. *)
Definition greeted : state :=
  handleSend 0 (setInput (js "hi") Buffers.initial).

(** The [sensitive] event that opens the dialog. *)
Definition asking : SseData :=
  {| d_type := Some (js "sensitive"); d_step := 3;
     d_phase := []; d_content := []; d_thinking := [];
     d_action := VString (js "Tap(x=1)");
     d_finished := false; d_success := false;
     d_message := Some (js "pay?"); d_takeover := false;
     d_sensitive := true; d_paused := false; d_pauseReason := None |}.

(** The [step] event of a last step, with its number. *)
Definition last_step (i : Z) : SseData :=
  {| d_type := Some (js "step"); d_step := i;
     d_phase := []; d_content := []; d_thinking := js "all done";
     d_action := VString (js "finish(message=ok)");
     d_finished := true; d_success := true;
     d_message := Some (js "ok"); d_takeover := false;
     d_sensitive := false; d_paused := false; d_pauseReason := None |}.

End Console.

(** * Properties *)

(** The bind of a computed [Some], without unfolding what follows it. *)
Ltac bind_some := unfold mbind, option_bind; cbv beta iota.

(** A value is not in a list that is written out. *)
Ltac not_listed :=
  let H := fresh in
  intros H; repeat (apply elem_of_cons in H as [H|H]; [done|]);
  by apply elem_of_nil in H.

Section step_log.
Import ExecutionDetail StepLog.

Lemma existsb_step_elem_of (st : ExecutionStep) (l : list ExecutionStep) :
  existsb (λ x, (step x =? step st)%Z) l = true ↔ step st ∈ indices l.
Proof.
  unfold indices. induction l as [|x l IH]; simpl.
  - split; [done|]. intros H. by apply elem_of_nil in H.
  - rewrite orb_true_iff, IH, elem_of_cons, Z.eqb_eq.
    split; (intros [H|H]; [left|right]); done.
Qed.

Lemma on_step_known (st : ExecutionStep) (s : state) :
  step st ∈ indices (streamSteps s) → streamSteps (on_step st s) = streamSteps s.
Proof.
  intros H%existsb_step_elem_of. simpl. by rewrite H.
Qed.

Lemma on_step_new (st : ExecutionStep) (s : state) :
  step st ∉ indices (streamSteps s) →
  streamSteps (on_step st s) = streamSteps s ++ [st].
Proof.
  intros H. simpl.
  destruct (existsb _ _) eqn:E; [|done].
  by apply existsb_step_elem_of in E.
Qed.

Lemma run_closed (es : list event) (s : state) :
  closed s = true → run s es = s.
Proof.
  intros H. induction es as [|e es IH]; [done|].
  unfold run in *. simpl. unfold handle at 2. by rewrite H.
Qed.

Lemma handle_NoDup (s : state) (e : event) :
  NoDup (indices (streamSteps s)) → NoDup (indices (streamSteps (handle s e))).
Proof.
  intros H. unfold handle. destruct (closed s); [done|].
  destruct e as [tok|st| |]; simpl; try done.
  - unfold on_token, append_token.
    repeat case_decide; simpl; done.
  - destruct (existsb _ _) eqn:E; [done|].
    unfold indices. rewrite fmap_app. apply list.NoDup_app. split_and!; [done| |apply NoDup_singleton].
    intros x Hx ->%list_elem_of_singleton.
    apply existsb_step_elem_of in Hx. congruence.
Qed.

Lemma run_NoDup (es : list event) (s : state) :
  NoDup (indices (streamSteps s)) → NoDup (indices (streamSteps (run s es))).
Proof.
  revert s. induction es as [|e es IH]; intros s H; [done|].
  apply IH, handle_NoDup, H.
Qed.

Lemma increasing_seqZ (a n : Z) : increasing_by_one (seqZ a n).
Proof.
  intros i x y [-> ?]%lookup_seqZ [-> ?]%lookup_seqZ. lia.
Qed.

Lemma handle_in_step (s : state) (e : event) (es : list event) :
  closed s = false →
  in_step s (step_events (e :: es)) →
  in_step (handle s e) (step_events es).
Proof.
  intros Hc H. unfold handle. rewrite Hc.
  destruct e as [tok|st| |]; try done.
  - unfold on_token, append_token, in_step in *.
    repeat case_decide; done.
  - change (step_events (EStep st :: es)) with (step st :: step_events es) in H.
    right. destruct H as [[Hnil Hg]|(a & n & Hs & [Hy Hch])].
    + exists (step st), 0%nat.
      rewrite on_step_new by (rewrite Hnil; apply not_elem_of_nil).
      unfold indices in *. rewrite fmap_app, Hnil.
      split; [done|]. by rewrite Z.add_0_r.
    + destruct Hy as [Hy|Hy].
      * exists a, n.
        rewrite on_step_known by (rewrite Hs, Hy; apply elem_of_seqZ; lia).
        split; [done|]. by rewrite <-Hy.
      * exists a, (S n).
        rewrite on_step_new
          by (rewrite Hs, Hy; intros E%elem_of_seqZ; lia).
        unfold indices in *. rewrite fmap_app, Hs.
        split.
        -- rewrite (seqZ_S a (S n)). simpl. do 2 f_equal. lia.
        -- replace (a + Z.of_nat (S n))%Z with (step st) by lia. done.
Qed.

Lemma in_step_increasing (s : state) (rest : list Z) :
  in_step s rest → increasing_by_one (indices (streamSteps s)).
Proof.
  intros [[E _]|(a & n & E & _)]; rewrite E.
  - intros i a b Hi. by rewrite lookup_nil in Hi.
  - apply increasing_seqZ.
Qed.

Lemma run_in_step (es : list event) (s : state) :
  in_step s (step_events es) →
  increasing_by_one (indices (streamSteps (run s es))).
Proof.
  revert s. induction es as [|e es IH]; intros s H.
  - by eapply in_step_increasing.
  - destruct (closed s) eqn:Hc.
    + rewrite run_closed by done. by eapply in_step_increasing.
    + apply IH. by apply handle_in_step.
Qed.

(** C1, as the code has it.  The accumulated step indices never repeat,
    whatever events arrive.  They increase by exactly one when the
    [step] events arrive in the order the producer promises (an index
    repeated or followed by its successor).  A [step] event whose index
    is already stored leaves the list as it is. *)
Theorem step_indices_never_repeat (es : list event) :
  let log := indices (streamSteps (run (subscribed []) es)) in
  NoDup log
  ∧ (gapless (step_events es) → increasing_by_one log)
  ∧ ∀ (s : state) (st : ExecutionStep),
      step st ∈ indices (streamSteps s) →
      streamSteps (on_step st s) = streamSteps s.
Proof.
  split_and!.
  - apply run_NoDup. simpl. apply NoDup_nil_2.
  - intros Hg. apply run_in_step. left. done.
  - intros s st. apply on_step_known.
Qed.

Lemma step_indices_never_repeat_witness :
  increasing_by_one
    (indices (streamSteps
       (run (subscribed []) [EStep (a_step 1); EStep (a_step 1); EStep (a_step 2)])))
  ∧ streamSteps (on_step (a_step 1) (subscribed [a_step 1; a_step 2]))
    = [a_step 1; a_step 2].
Proof.
destruct (step_indices_never_repeat
            [EStep (a_step 1); EStep (a_step 1); EStep (a_step 2)])
  as (_ & Hinc & Hsame).
split.
- apply Hinc. simpl. tauto.
- apply (Hsame (subscribed [a_step 1; a_step 2]) (a_step 1)).
  apply list_elem_of_here.
Defined.

(** C1 as stated fails: nothing in the listener orders the indices.  The
    events with indices 1 and 3 leave the log [1; 3]. *)
Lemma step_indices_gap :
  indices (streamSteps (run (subscribed []) [EStep (a_step 1); EStep (a_step 3)]))
  = [1; 3]%Z
  ∧ ¬ increasing_by_one
        (indices (streamSteps
           (run (subscribed []) [EStep (a_step 1); EStep (a_step 3)]))).
Proof.
  split; [reflexivity|].
  intros H. specialize (H 0%nat 1%Z 3%Z eq_refl eq_refl). lia.
Qed.

End step_log.

Section stream_consumers.
Import Buffers.

Lemma has_type_true (data : Debug.SseData) (t : string) :
  Debug.d_type data = Some (js t) → Debug.has_type data t = true.
Proof. intros H. unfold Debug.has_type. by rewrite bool_decide_eq_true. Qed.

Lemma has_type_false (data : Debug.SseData) (t u : string) :
  Debug.d_type data = Some (js t) → js t ≠ js u → Debug.has_type data u = false.
Proof.
  intros H Hne. unfold Debug.has_type. rewrite bool_decide_eq_false, H.
  congruence.
Qed.

(** C2.  A [token] whose step differs from the current streaming step
    empties both buffers before its content is appended; otherwise the
    content is appended to the buffer of its phase.  This holds in the
    execution page and in the debug console, whose loop treats a line as
    a token when the event name or the type of the data says so. *)
Theorem token_flushes_then_appends
    (tok : ExecutionDetail.TokenEvent) (s : ExecutionDetail.state)
    (now : Z) (command eventType : jsstring)
    (data : Debug.SseData) (d : Debug.state) :
  (let s' := ExecutionDetail.on_token tok s in
   (ExecutionDetail.streamingThinking s', ExecutionDetail.streamingAction s')
   = after_token (bool_decide (ExecutionDetail.tk_step tok ≠ ExecutionDetail.currentStep s))
       (ExecutionDetail.phase tok) (ExecutionDetail.tk_content tok)
       (ExecutionDetail.streamingThinking s, ExecutionDetail.streamingAction s)
   ∧ ExecutionDetail.currentStep s' = ExecutionDetail.tk_step tok)
  ∧ (eventType = js "token" ∨ Debug.d_type data = Some (js "token") →
     let '(d', returned) := Debug.process_data now command eventType data d in
     (Debug.streamingThinking d', Debug.streamingAction d')
     = after_token (bool_decide (Debug.d_step data ≠ Debug.currentStreamStep d))
         (Debug.d_phase data) (Debug.d_content data)
         (Debug.streamingThinking d, Debug.streamingAction d)
     ∧ Debug.currentStreamStep d' = Debug.d_step data
     ∧ returned = false).
Proof.
  split.
  - unfold ExecutionDetail.on_token, ExecutionDetail.append_token, after_token.
    case_bool_decide; repeat case_decide; simpl; try done; split; congruence.
  - intros Htok. unfold Debug.process_data.
    assert (bool_decide (eventType = js "token") || Debug.has_type data "token" = true)
      as ->.
    { destruct Htok as [->|H]; [done|].
      rewrite (has_type_true _ _ H). apply orb_true_r. }
    unfold Debug.on_token, after_token.
    case_bool_decide; repeat case_decide; simpl; try done; split_and!; congruence.
Qed.

Lemma token_flushes_then_appends_witness :
  let '(d', returned) :=
    Debug.process_data 0 (js "open the app") (js "token") (a_token 2 "thinking" "Tap")
      (Debug.set_streaming (js "old") (js "old") 1 initial) in
  (Debug.streamingThinking d', Debug.streamingAction d') = (js "Tap", [])
  ∧ Debug.currentStreamStep d' = 2%Z ∧ returned = false.
Proof.
  apply (token_flushes_then_appends
           {| ExecutionDetail.tk_step := 2; ExecutionDetail.phase := js "thinking";
              ExecutionDetail.tk_content := js "Tap" |}
           (ExecutionDetail.subscribed [])
           0 (js "open the app") (js "token") (a_token 2 "thinking" "Tap")
           (Debug.set_streaming (js "old") (js "old") 1 initial)).
  left. reflexivity.
Defined.

Lemma on_step_buffers (now : Z) (data : Debug.SseData) (d : Debug.state) :
  Debug.streamingThinking (Debug.on_step now data d) = []
  ∧ Debug.streamingAction (Debug.on_step now data d) = []
  ∧ Debug.currentStreamStep (Debug.on_step now data d) = Debug.currentStreamStep d.
Proof.
  unfold Debug.on_step.
  repeat match goal with |- context [if ?b then _ else _] => destruct b end;
    done.
Qed.

(** C3.  After a [step] event both in-flight buffers are empty, in the
    execution page and in the debug console. *)
Theorem step_supersedes_tokens
    (st : ExecutionStep) (s : ExecutionDetail.state)
    (now : Z) (command eventType : jsstring)
    (data : Debug.SseData) (d : Debug.state) :
  (ExecutionDetail.streamingThinking (ExecutionDetail.on_step st s) = []
   ∧ ExecutionDetail.streamingAction (ExecutionDetail.on_step st s) = [])
  ∧ (eventType ≠ js "token" → Debug.d_type data = Some (js "step") →
     let '(d', returned) := Debug.process_data now command eventType data d in
     Debug.streamingThinking d' = [] ∧ Debug.streamingAction d' = []
     ∧ returned = false).
Proof.
  split; [done|].
  intros Hev Hty. unfold Debug.process_data.
  rewrite bool_decide_eq_false_2 by done.
  rewrite (has_type_false _ _ "token" Hty) by done.
  rewrite (has_type_false _ _ "start" Hty) by done.
  rewrite (has_type_true _ _ Hty). simpl.
  destruct (on_step_buffers now data d) as (-> & -> & _). done.
Qed.

Lemma step_supersedes_tokens_witness :
  let '(d', returned) :=
    Debug.process_data 7 (js "open the app") (js "step") (a_step_event 1 "look")
      (Debug.set_streaming (js "loo") (js "Ta") 1 initial) in
  Debug.streamingThinking d' = [] ∧ Debug.streamingAction d' = []
  ∧ returned = false.
Proof.
  apply (step_supersedes_tokens (StepLog.a_step 1) (ExecutionDetail.subscribed [])
           7 (js "open the app") (js "step") (a_step_event 1 "look")
           (Debug.set_streaming (js "loo") (js "Ta") 1 initial)).
  - vm_compute. congruence.
  - reflexivity.
Defined.

(** C4.  A [done] event with [paused] set makes [executeStream] return,
    so the rest of the body is not read; no chat item is added and no
    result is scheduled; the page leaves the executing state; and the
    command of the stream becomes the pending command exactly when the
    reason is [sensitive], the pending command being left as it was
    otherwise. *)
Theorem paused_done_ends_segment
    (now : Z) (command eventType : jsstring) (data : Debug.SseData)
    (d : Debug.state) (rest : list (Z * Debug.line)) :
  eventType ≠ js "token" →
  Debug.d_type data = Some (js "done") →
  Debug.d_paused data = true →
  let '(d', returned) := Debug.process_data now command eventType data d in
  returned = true
  ∧ Debug.read_loop command eventType ((now, Debug.LData data) :: rest) d = d'
  ∧ Debug.chatItems d' = Debug.chatItems d
  ∧ Debug.timers d' = Debug.timers d
  ∧ Debug.isExecuting d' = false
  ∧ Debug.requests d' = Debug.requests d
  ∧ (Debug.d_pauseReason data = Some (js "sensitive") →
     Debug.pendingCommand d' = Some command)
  ∧ (Debug.d_pauseReason data ≠ Some (js "sensitive") →
     Debug.pendingCommand d' = Debug.pendingCommand d).
Proof.
  intros Hev Hty Hp.
  assert (Debug.process_data now command eventType data d
          = Debug.on_done now command data d) as E.
  { unfold Debug.process_data.
    rewrite bool_decide_eq_false_2 by done.
    rewrite (has_type_false _ _ "token" Hty) by done.
    rewrite (has_type_false _ _ "start" Hty) by done.
    rewrite (has_type_false _ _ "step" Hty) by done.
    rewrite (has_type_false _ _ "sensitive" Hty) by done.
    rewrite (has_type_false _ _ "takeover" Hty) by done.
    by rewrite (has_type_true _ _ Hty). }
  simpl. rewrite E. unfold Debug.on_done. rewrite Hp.
  case_decide; simpl; split_and!; try done.
Qed.

Lemma paused_done_ends_segment_witness :
  let '(d', returned) :=
    Debug.process_data 9 (js "pay the bill") (js "done")
      (a_done true (Some (js "sensitive"))) (Debug.set_isExecuting true initial) in
  returned = true
  ∧ Debug.chatItems d' = []
  ∧ Debug.isExecuting d' = false
  ∧ Debug.pendingCommand d' = Some (js "pay the bill").
Proof.
  pose proof (paused_done_ends_segment 9 (js "pay the bill") (js "done")
                (a_done true (Some (js "sensitive")))
                (Debug.set_isExecuting true initial) []) as H.
  destruct (Debug.process_data _ _ _ _ _) as [d' returned].
  destruct H as (Hr & _ & Hc & _ & He & _ & Hs & _).
  - vm_compute. congruence.
  - reflexivity.
  - reflexivity.
  - split_and!; [exact Hr | exact Hc | exact He | apply Hs; reflexivity].
Defined.

End stream_consumers.

Section sensitive_pause.
Import Buffers.

(** A command that [handleSend] posts is the trimmed input, and it is
    not empty. *)
Lemma handleSend_posts_nonempty (now : Z) (d : Debug.state) :
  Debug.requests (Debug.handleSend now d) = Debug.requests d
  ∨ ∃ cmd, cmd ≠ [] ∧ cmd = trim (Debug.input d)
           ∧ Debug.requests (Debug.handleSend now d) = Debug.requests d ++ [cmd].
Proof.
  unfold Debug.handleSend.
  destruct (nonempty (trim (Debug.input d))) eqn:E; [|by left].
  destruct (Debug.isExecuting d); [by left|]. right.
  exists (trim (Debug.input d)). split_and!; [|done|done].
  intros H. rewrite H in E. done.
Qed.

(** C5.  With a command pending, confirming posts the fixed instruction
    (whatever the pending command is), puts the page back in the
    executing state and clears the pending command.  Cancelling clears
    the pending command and posts nothing. *)
Theorem confirm_resumes_with_fixed_instruction
    (now : Z) (d : Debug.state) (cmd : jsstring) :
  Debug.pendingCommand d = Some cmd →
  cmd ≠ [] →
  (let d' := Debug.handleConfirmSensitive now d in
   Debug.requests d' = Debug.requests d ++ [js "继续执行"]
   ∧ Debug.isExecuting d' = true
   ∧ Debug.pendingCommand d' = None
   ∧ Debug.sensitiveAction d' = None)
  ∧ (let d' := Debug.handleCancelSensitive now d in
     Debug.requests d' = Debug.requests d
     ∧ Debug.isExecuting d' = Debug.isExecuting d
     ∧ Debug.pendingCommand d' = None
     ∧ Debug.sensitiveAction d' = None).
Proof.
  intros Hp Hne. split; [|done].
  unfold Debug.handleConfirmSensitive. rewrite Hp. simpl.
  destruct cmd; done.
Qed.

Lemma confirm_resumes_with_fixed_instruction_witness :
  Debug.requests paused_for_payment = [js "pay the bill"]
  ∧ Debug.requests (Debug.handleConfirmSensitive 3 paused_for_payment)
    = [js "pay the bill"; js "继续执行"]
  ∧ Debug.isExecuting (Debug.handleConfirmSensitive 3 paused_for_payment) = true
  ∧ Debug.requests (Debug.handleCancelSensitive 3 paused_for_payment)
    = [js "pay the bill"].
Proof.
  destruct (confirm_resumes_with_fixed_instruction 3 paused_for_payment
              (js "pay the bill")) as [(Hr & He & _) (Hc & _)].
  - reflexivity.
  - vm_compute. congruence.
  - split_and!; [reflexivity | exact Hr | exact He | exact Hc].
Defined.

End sensitive_pause.

Section chat_items.
Import ChatSteps ExecutionDetail Legacy.

Lemma parseActionToObject_falsy (v : jsval) :
  truthy v = false → parseActionToObject v = VNull.
Proof. intros H. unfold parseActionToObject. by rewrite H. Qed.

Lemma parseStepData_empty (st : ExecutionStep) :
  parseActionToObject (step_action st) = VNull →
  truthy_str (step_thinking st) = false →
  truthy_str (description st) = false →
  parseStepData st = {| sd_thinking := None; sd_action := VNull |}.
Proof.
  intros Ha Ht Hd. unfold parseStepData. rewrite Ht, Ha. simpl.
  replace (if truthy (step_action st) then VNull else VNull) with VNull
    by by destruct (truthy _).
  simpl. destruct (description st) as [[|c r]|]; done.
Qed.

Lemma step_items_empty (i : Z) (st : ExecutionStep) :
  parseActionToObject (step_action st) = VNull →
  truthy_str (step_thinking st) = false →
  truthy_str (description st) = false →
  step_items i st = ([], i).
Proof.
  intros Ha Ht Hd. unfold step_items.
  rewrite parseStepData_empty by done. simpl. by rewrite Hd.
Qed.

(** C6, as the code has it.  A step whose action parses to null, whose
    thinking is empty and whose legacy description is empty or absent
    adds no chat item: the items are those of the list without it. *)
Theorem empty_step_adds_no_item (pre post : list ExecutionStep) (st : ExecutionStep) :
  parseActionToObject (step_action st) = VNull →
  truthy_str (step_thinking st) = false →
  truthy_str (description st) = false →
  convertStepsToChatItems (pre ++ st :: post) = convertStepsToChatItems (pre ++ post).
Proof.
  intros Ha Ht Hd. unfold convertStepsToChatItems.
  rewrite !foldl_app.
  change (foldl convert_loop ?a (st :: post))
    with (foldl convert_loop (convert_loop a st) post).
  do 2 f_equal.
  destruct (foldl _ _ pre) as [items i].
  unfold convert_loop. simpl.
  rewrite step_items_empty by done. by rewrite app_nil_r.
Qed.

Lemma empty_step_adds_no_item_witness :
  convertStepsToChatItems [legacy_step "Finish"; legacy_step ""; legacy_step "Finish"]
  = convertStepsToChatItems [legacy_step "Finish"; legacy_step "Finish"].
Proof.
  apply (empty_step_adds_no_item [legacy_step "Finish"] [legacy_step "Finish"]
           (legacy_step "")); reflexivity.
Defined.

(** C6 as stated fails: the legacy description is shown when there is
    neither thinking nor action. *)
Lemma legacy_description_is_shown :
  parseActionToObject (step_action (legacy_step "hello world")) = VNull
  ∧ truthy_str (step_thinking (legacy_step "hello world")) = false
  ∧ content <$> convertStepsToChatItems [legacy_step "hello world"]
    = [js "hello world"]
  ∧ convertStepsToChatItems [legacy_step "hello world"] ≠ [].
Proof. split_and!; by vm_compute. Qed.

End chat_items.

Section live_screen.
Import Watchdog.

Section watchdog.
Variable fallbackTimeout : Z.

Lemma step_sticky (es : list ScrcpyPlayer.event) (p : ScrcpyPlayer.state) :
  (run fallbackTimeout (true, p) es).1 = true.
Proof.
revert p. induction es as [|e es IH]; intros p; [done|].
unfold run in *. simpl. unfold LiveScreen.step at 2. simpl.
destruct (ScrcpyPlayer.handle fallbackTimeout p e) as [p' c]. destruct c; apply IH.
Qed.

Lemma is_armed_clear (h h' : nat) (t : Timers.table) :
  h ≠ h' → Timers.is_armed h t = true →
  Timers.is_armed h (Timers.clearTimeout h' t) = true.
Proof.
unfold Timers.is_armed, Timers.clearTimeout. simpl.
rewrite !bool_decide_eq_true, !list_elem_of_fmap.
intros Hne ([a b] & -> & Hin). exists (a, b). split; [done|].
apply list_elem_of_filter. done.
Qed.

Lemma is_armed_set (h : nat) (d : Z) (t : Timers.table) :
  Timers.is_armed h t = true →
  Timers.is_armed h (Timers.setTimeout d t).1 = true.
Proof.
unfold Timers.is_armed, Timers.setTimeout. simpl.
rewrite !bool_decide_eq_true, fmap_app, elem_of_app. by left.
Qed.

(** Until video data is handled or the timer itself fires, the timer
    stays armed and no data has been seen. *)
Lemma watchdog_waits (h : nat) (e : ScrcpyPlayer.event) (p : ScrcpyPlayer.state) :
  e ≠ ScrcpyPlayer.VideoData → e ≠ ScrcpyPlayer.FallbackTimer h →
  ScrcpyPlayer.hasReceivedData p = false →
  Timers.is_armed h (ScrcpyPlayer.timers p) = true →
  ScrcpyPlayer.hasReceivedData (ScrcpyPlayer.handle fallbackTimeout p e).1 = false
  ∧ Timers.is_armed h
      (ScrcpyPlayer.timers (ScrcpyPlayer.handle fallbackTimeout p e).1) = true.
Proof.
intros Hv Ht Hd Ha.
destruct e as [|h'| [|] | |m|m|]; simpl; try done;
  try (destruct (ScrcpyPlayer.socket_open p); done).
- destruct (ScrcpyPlayer.socket_open p); simpl; [|done].
  split; [done|]. by apply is_armed_set.
- unfold ScrcpyPlayer.on_fallback_timer.
  destruct (Timers.is_armed h' _); [|done].
  rewrite Hd. simpl. split; [done|].
  apply is_armed_clear; [|done]. congruence.
Qed.

(** The timer fires with no data seen: the page is told to fall back and
    the socket is closed. *)
Lemma watchdog_fires (h : nat) (es : list ScrcpyPlayer.event)
    (u : bool) (p : ScrcpyPlayer.state) :
  ScrcpyPlayer.VideoData ∉ es → ScrcpyPlayer.FallbackTimer h ∉ es →
  ScrcpyPlayer.hasReceivedData p = false →
  Timers.is_armed h (ScrcpyPlayer.timers p) = true →
  run fallbackTimeout (u, p) (es ++ [ScrcpyPlayer.FallbackTimer h])
  = (true, (run fallbackTimeout (u, p) (es ++ [ScrcpyPlayer.FallbackTimer h])).2)
  ∧ ScrcpyPlayer.socket_open
      (run fallbackTimeout (u, p) (es ++ [ScrcpyPlayer.FallbackTimer h])).2 = false.
Proof.
revert u p. induction es as [|e es IH]; intros u p Hv Ht Hd Ha.
- unfold run. simpl. unfold LiveScreen.step. simpl.
  unfold ScrcpyPlayer.on_fallback_timer. by rewrite Ha, Hd.
- apply not_elem_of_cons in Hv as [Hv1 Hv2].
  apply not_elem_of_cons in Ht as [Ht1 Ht2].
  destruct (watchdog_waits h e p) as [Hd' Ha']; try done.
  unfold run in *. simpl. unfold LiveScreen.step at 2 4 6. simpl.
  destruct (ScrcpyPlayer.handle fallbackTimeout p e) as [p' c]. simpl in *.
  by apply IH.
Qed.

Lemma handle_flag (p : ScrcpyPlayer.state) (e : ScrcpyPlayer.event) :
  ScrcpyPlayer.hasReceivedData (ScrcpyPlayer.handle fallbackTimeout p e).1
  = ScrcpyPlayer.hasReceivedData p
    || match e with
       | ScrcpyPlayer.VideoData =>
           ScrcpyPlayer.socket_open p && negb (ScrcpyPlayer.handlers p =? 0)%nat
       | _ => false
       end.
Proof.
destruct e as [|h|[|]| |m|m|]; simpl;
  try (destruct (ScrcpyPlayer.socket_open p); simpl; by rewrite orb_false_r).
- unfold ScrcpyPlayer.on_fallback_timer.
  destruct (Timers.is_armed h _); [|by rewrite orb_false_r].
  by destruct (ScrcpyPlayer.hasReceivedData p).
- destruct (ScrcpyPlayer.socket_open p); simpl; [|by rewrite orb_false_r].
  destruct (ScrcpyPlayer.handlers p); simpl;
    [by rewrite orb_false_r|by rewrite orb_true_r].
Qed.

(** The flag is set exactly by video data that is handled. *)
Lemma run_flag (es : list ScrcpyPlayer.event) (u : bool) (p : ScrcpyPlayer.state) :
  ScrcpyPlayer.hasReceivedData (run fallbackTimeout (u, p) es).2
  = ScrcpyPlayer.hasReceivedData p || handled fallbackTimeout p es.
Proof.
revert u p. induction es as [|e es IH]; intros u p.
- simpl. by rewrite orb_false_r.
- unfold run in *. cbn [foldl handled]. unfold LiveScreen.step at 2. cbn [fst snd].
  pose proof (handle_flag p e) as E.
  destruct (ScrcpyPlayer.handle fallbackTimeout p e) as [p' c].
  rewrite IH. cbn [fst] in *. rewrite E. by rewrite orb_assoc.
Qed.

(** Every timer of the player carries the configured delay. *)
Lemma run_delays (es : list ScrcpyPlayer.event) (u : bool) (p : ScrcpyPlayer.state) :
  Forall (λ x, x.2 = fallbackTimeout) (Timers.armed (ScrcpyPlayer.timers p)) →
  Forall (λ x, x.2 = fallbackTimeout)
    (Timers.armed (ScrcpyPlayer.timers (run fallbackTimeout (u, p) es).2)).
Proof.
revert u p. induction es as [|e es IH]; intros u p Hp; [done|].
unfold run in *. cbn [foldl]. unfold LiveScreen.step at 2. cbn [fst snd].
assert (Forall (λ x, x.2 = fallbackTimeout)
          (Timers.armed (ScrcpyPlayer.timers
                           (ScrcpyPlayer.handle fallbackTimeout p e).1))) as Hp'.
{ assert (∀ h, Forall (λ x, x.2 = fallbackTimeout)
                 (Timers.armed (Timers.clearTimeout h (ScrcpyPlayer.timers p))))
    as Hclear.
  { intros h. simpl. apply list.Forall_forall.
    intros x [_ Hx]%list_elem_of_filter.
    rewrite list.Forall_forall in Hp. by apply Hp. }
  destruct e as [|h|[|]| |m|m|]; simpl;
    try (destruct (ScrcpyPlayer.socket_open p); done).
  - destruct (ScrcpyPlayer.socket_open p); simpl; [|done].
    apply Forall_app. split; [done|]. by constructor.
  - unfold ScrcpyPlayer.on_fallback_timer.
    destruct (Timers.is_armed h _); [|done].
    destruct (ScrcpyPlayer.hasReceivedData p); simpl; apply Hclear.
  - destruct (ScrcpyPlayer.socket_open p); simpl; [|done].
    destruct (ScrcpyPlayer.handlers p); simpl; [done|].
    destruct (ScrcpyPlayer.fallbackTimer p); [apply Hclear|done]. }
destruct (ScrcpyPlayer.handle fallbackTimeout p e) as [p' c]. by apply IH.
Qed.

End watchdog.

Section viewer.
Variable refreshInterval : Z.

Lemma polling_mount (now : Z) :
  polling refreshInterval (ScreenshotViewer.mount refreshInterval now).
Proof.
unfold polling. simpl. split_and!; [done|done|by eexists|by eexists].
Qed.

Lemma tick_armed (v : ScreenshotViewer.state) (h : nat) (now : Z) :
  ScreenshotViewer.mounted v = true →
  Timers.armed (ScreenshotViewer.timers v) = [(h, refreshInterval)] →
  ScreenshotViewer.handle refreshInterval v (ScreenshotViewer.Tick h now)
  = {| ScreenshotViewer.imageUrl := Some now;
       ScreenshotViewer.error := ScreenshotViewer.error v;
       ScreenshotViewer.timeoutRef := Some (Timers.next (ScreenshotViewer.timers v));
       ScreenshotViewer.mounted := true;
       ScreenshotViewer.timers :=
         {| Timers.armed :=
              [(Timers.next (ScreenshotViewer.timers v), refreshInterval)];
            Timers.next := S (Timers.next (ScreenshotViewer.timers v)) |} |}.
Proof.
destruct v as [u er tr m [a n]]. simpl. intros -> ->.
unfold Timers.is_armed. simpl.
rewrite bool_decide_eq_true_2 by (by apply list_elem_of_singleton).
unfold ScreenshotViewer.scheduleNext, ScreenshotViewer.updateImage,
  Timers.clearTimeout. simpl.
rewrite filter_cons_False by (simpl; intros H; by apply H).
by rewrite filter_nil.
Qed.

Lemma polling_handle (v : ScreenshotViewer.state) (e : ScreenshotViewer.event) :
  polling refreshInterval v →
  polling refreshInterval (ScreenshotViewer.handle refreshInterval v e).
Proof.
intros (He & Hm & Hu & h & Hr & Ht).
destruct e as [h' now| |].
- destruct (decide (h' = h)) as [->|Hne].
  + rewrite (tick_armed v h now) by done.
    unfold polling. simpl. split_and!; [done|done|by eexists|by eexists].
  + simpl. unfold Timers.is_armed. rewrite Ht. simpl.
    rewrite bool_decide_eq_false_2; [by unfold polling; eauto 10|].
    intros H. by apply list_elem_of_singleton in H.
- unfold polling. simpl. eauto 10.
- unfold polling. simpl. eauto 10.
Qed.

Lemma polling_poll (es : list ScreenshotViewer.event) (v : ScreenshotViewer.state) :
  polling refreshInterval v → polling refreshInterval (poll refreshInterval v es).
Proof.
revert v. induction es as [|e es IH]; intros v H; [done|].
apply IH, polling_handle, H.
Qed.

End viewer.




End live_screen.

(** ** [JSON.parse] of a text that opens with a brace *)

Section json_shape.
Import Json JsonShape.

Lemma obj_stack_cons (f : frame) (st : list frame) :
  obj_stack st → obj_stack (f :: st).
Proof. intros (st' & o & k & ->). by exists (f :: st'), o, k. Qed.

Lemma obj_stack_obj (o : jsobject) (k : jsstring) (st : list frame) :
  st = [] ∨ obj_stack st → obj_stack (FObj o k :: st).
Proof.
intros [->|H]; [by exists [], o, k | by apply obj_stack_cons].
Qed.

Lemma obj_stack_tail (f : frame) (st : list frame) :
  obj_stack (f :: st) → (st = [] ∧ ∃ o k, f = FObj o k) ∨ obj_stack st.
Proof.
intros (st' & o & k & E). destruct st' as [|f' st'']; simpl in E.
- left. injection E as -> ->. eauto.
- right. injection E as -> ->. by exists st'', o, k.
Qed.

Lemma reduce_outer (v : jsval) (st : list frame) :
  obj_stack st → outer_object (reduce v st).
Proof.
intros H. destruct st as [|[items|o k] st].
- destruct H as (st' & o & k & E). by destruct st'.
- apply obj_stack_tail in H as [[_ (o & k & ?)]|H]; done.
- apply obj_stack_tail in H as [[-> _]|H]; simpl; eauto.
Qed.

Lemma reduce_object (o : jsobject) (st : list frame) :
  st = [] ∨ obj_stack st → outer_object (reduce (VObject o) st).
Proof.
intros [->|H]; [simpl; eauto | by apply reduce_outer].
Qed.

Lemma value_start_outer (t : token) (st : list frame) (m : pmode) :
  obj_stack st → value_start t st = Some m → outer_object m.
Proof.
intros H. destruct t; simpl; intros E; simplify_eq; simpl; eauto using reduce_outer.
Qed.

Lemma pstep_outer (m m' : pmode) (t : token) :
  outer_object m → pstep m t = Some m' → outer_object m'.
Proof.
destruct m as [st|st|items st|st|o st|o k st|o st|v]; simpl; intros H E.
- by eapply value_start_outer.
- destruct t; simplify_eq; simpl;
    eauto using reduce_outer, obj_stack_cons, value_start_outer.
- destruct t; simplify_eq; simpl; eauto using reduce_outer, obj_stack_cons.
- destruct t; simplify_eq; simpl; eauto using reduce_object.
- destruct t; simplify_eq; simpl; eauto.
- destruct t; simplify_eq; simpl; eauto using obj_stack_obj.
- destruct t; simplify_eq; simpl; eauto using reduce_object.
- done.
Qed.

Lemma run_outer (ts : list token) (m : pmode) (v : jsval) :
  outer_object m → run m ts = Some v → ∃ o, v = VObject o.
Proof.
revert m. induction ts as [|t ts IH]; intros m H; simpl.
- destruct m; try done. intros [= <-]. exact H.
- destruct (pstep m t) as [m'|] eqn:E; [|done]. simpl.
  apply IH. by eapply pstep_outer.
Qed.

Lemma lex_start_out (c : N) (out out' : list token) (m : lexmode) :
  lex_start c out = Some (m, out') → out' = out ∨ ∃ t, out' = t :: out.
Proof.
unfold lex_start.
repeat match goal with |- context [if ?b then _ else _] => destruct b end;
  intros E; simplify_eq; eauto.
Qed.

Lemma lex_keeps (s : jsstring) (m : lexmode) (out ts : list token) :
  lex m out s = Some ts → ∃ ts', ts = reverse out ++ ts'.
Proof.
assert (∀ (t : token) out0 ts0,
          (∃ ts', ts0 = reverse (t :: out0) ++ ts') → ∃ ts', ts0 = reverse out0 ++ ts')
  as Hcons.
{ intros t out0 ts0 [ts' ->]. exists (t :: ts').
  by rewrite reverse_cons, <-app_assoc. }
assert (∀ c out0 out1 m1 ts0,
          lex_start c out0 = Some (m1, out1) →
          (∃ ts', ts0 = reverse out1 ++ ts') → ∃ ts', ts0 = reverse out0 ++ ts')
  as Hstart.
{ intros c out0 out1 m1 ts0 [->|[t ->]]%lex_start_out; eauto. }
revert m out. induction s as [|c r IH]; intros m out; simpl.
- destruct m; intros E; simplify_option_eq;
    try (exists []; by rewrite app_nil_r);
    eexists; by rewrite reverse_cons.
- destruct m as [|acc|acc|acc ds|acc|acc].
  + destruct (lex_start c out) as [[m' out']|] eqn:E; [|done]. simpl.
    intros H%IH. eauto.
  + repeat match goal with |- context [if ?b then _ else _] => destruct b end;
      try done; intros H%IH; eauto.
  + destruct (c =? 117); [intros H%IH; eauto|].
    destruct (lex_escape c); [|done]. simpl. intros H%IH; eauto.
  + destruct (hex_val c); [|done]. simpl.
    destruct ds as [|? [|? [|? [|? ?]]]]; intros H%IH; eauto.
  + destruct (is_numchar c); [intros H%IH; eauto|].
    destruct (parse_number _); [|done]. simpl.
    destruct (lex_start c _) as [[m' out']|] eqn:E; [|done]. simpl.
    intros H%IH. eauto.
  + destruct (is_lower c); [intros H%IH; eauto|].
    destruct (parse_word _); [|done]. simpl.
    destruct (lex_start c _) as [[m' out']|] eqn:E; [|done]. simpl.
    intros H%IH. eauto.
Qed.

(** A text whose first character is an opening brace parses to an
    object or not at all. *)
Lemma parse_brace (r : jsstring) (v : jsval) :
  parse (123 :: r) = Some v → ∃ o, v = VObject o.
Proof.
unfold parse. simpl.
destruct (lex LStart [TLBrace] r) as [ts|] eqn:E; [|done]. simpl.
apply lex_keeps in E as [ts' ->]. simpl.
apply run_outer. simpl. by left.
Qed.

End json_shape.

(** ** The matchers *)

Section matchers.
Import Regex Formats.

Lemma take_skip_while (f : N → bool) (s : jsstring) :
  take_while f s ++ skip_while f s = s.
Proof. induction s as [|c r IH]; simpl; [done|]. destruct (f c); simpl; congruence. Qed.

Lemma take_while_all (f : N → bool) (s : jsstring) :
  Forall (λ c, f c = true) (take_while f s).
Proof.
induction s as [|c r IH]; simpl; [constructor|].
destruct (f c) eqn:E; by constructor.
Qed.

Lemma skip_while_head (f : N → bool) (s : jsstring) (c : N) (r : jsstring) :
  skip_while f s = c :: r → f c = false.
Proof.
induction s as [|d s IH]; simpl; [done|].
destruct (f d) eqn:E; [done|]. by intros [= -> _].
Qed.

(** A run of characters that satisfy [f], then one that does not (or the
    end): the run is what [take_while] takes. *)
Lemma take_while_app (f : N → bool) (w rest : jsstring) :
  Forall (λ c, f c = true) w →
  (rest = [] ∨ ∃ c r, rest = c :: r ∧ f c = false) →
  take_while f (w ++ rest) = w ∧ skip_while f (w ++ rest) = rest.
Proof.
intros Hw Hr. induction Hw as [|c w Hc Hw IH]; simpl.
- destruct Hr as [->|(c & r & -> & E)]; simpl; [done|]. by rewrite E.
- rewrite Hc. destruct IH as [-> ->]. done.
Qed.

Lemma eq_ci_refl (c : N) : eq_ci c c = true.
Proof. unfold eq_ci. apply N.eqb_refl. Qed.

Lemma same_ci_length (p t : jsstring) : same_ci p t → length t = length p.
Proof. intros H. symmetry. by eapply Forall2_length. Qed.

Lemma same_ci_refl (p : jsstring) : same_ci p p.
Proof. induction p; constructor; [apply eq_ci_refl|done]. Qed.

Lemma lit_Some (p s t r : jsstring) :
  lit p s = Some (t, r) ↔ s = t ++ r ∧ same_ci p t.
Proof.
revert s t r. induction p as [|a p IH]; intros s t r; simpl.
- split.
  + intros [= <- <-]. split; [done|constructor].
  + intros [-> H]. apply Forall2_nil_inv_l in H as ->. done.
- destruct s as [|c s].
  + split; [done|]. intros [E H]. apply Forall2_cons_inv_l in H as (c & t' & _ & _ & ->).
    done.
  + destruct (eq_ci a c) eqn:E.
    * destruct (lit p s) as [[m r']|] eqn:El; simpl.
      -- apply IH in El as [-> Hm]. split.
         ++ intros [= <- <-]. split; [done|]. by constructor.
         ++ intros [Es H]. apply Forall2_cons_inv_l in H as (c' & t' & _ & Ht & ->).
            simpl in Es. injection Es as -> Es.
            assert (lit p (m ++ r') = Some (t', r)) as El by (apply IH; done).
            assert (lit p (m ++ r') = Some (m, r')) as El' by (apply IH; done).
            rewrite El in El'. by injection El' as -> ->.
      -- split; [done|]. intros [Es H].
         apply Forall2_cons_inv_l in H as (c' & t' & _ & Ht & ->).
         simpl in Es. injection Es as -> ->.
         assert (lit p (t' ++ r) = Some (t', r)) as El' by (apply IH; done).
         congruence.
    * split; [done|]. intros [Es H].
      apply Forall2_cons_inv_l in H as (c' & t' & Hc & _ & ->).
      simpl in Es. injection Es as -> _. congruence.
Qed.

Lemma lit_here (p r : jsstring) : lit p (p ++ r) = Some (p, r).
Proof. apply lit_Some. split; [done|apply same_ci_refl]. Qed.

(** A pattern fails where its first character does not match. *)
Lemma lit_head (a : N) (p : jsstring) (c : N) (r : jsstring) :
  eq_ci a c = false → lit (a :: p) (c :: r) = None.
Proof. intros H. simpl. by rewrite H. Qed.

Lemma lazy_any_here {A} (k : jsstring → option A) (s : jsstring) (a : A) :
  k s = Some a → lazy_any k s = Some ([], a).
Proof. intros H. destruct s; simpl; by rewrite H. Qed.

Lemma lazy_any_found {A} (k : jsstring → option A) (sk r : jsstring) (a : A) :
  k r = Some a →
  (∀ i, (i < length sk)%nat → k (drop i (sk ++ r)) = None) →
  lazy_any k (sk ++ r) = Some (sk, a).
Proof.
intros Hk. induction sk as [|c sk IH]; intros Hf; simpl.
- by apply lazy_any_here.
- pose proof (Hf 0%nat) as H0. simpl in H0. rewrite H0 by lia.
  rewrite IH; [done|]. intros i Hi. apply (Hf (S i)). simpl. lia.
Qed.

Lemma lazy_any_first {A} (k : jsstring → option A) (s sk : jsstring) (a : A) :
  lazy_any k s = Some (sk, a) →
  ∃ r, s = sk ++ r ∧ k r = Some a
       ∧ ∀ i, (i < length sk)%nat → k (drop i s) = None.
Proof.
revert sk a. induction s as [|c s IH]; intros sk a; simpl.
- destruct (k []) as [a'|] eqn:E; [|done].
  intros [= <- <-]. exists []. split_and!; [done|done|]. simpl. lia.
- destruct (k (c :: s)) as [a'|] eqn:E.
  + intros [= <- <-]. exists (c :: s). split_and!; [done|done|]. simpl. lia.
  + destruct (lazy_any k s) as [[sk' a']|]; [|done]. simpl.
    intros [= <- <-].
    destruct (IH sk' a' eq_refl) as (r & -> & Hk & Hf).
    exists r. split_and!; [done|done|].
    intros [|i] Hi; simpl in *; [done|]. apply Hf. lia.
Qed.

Lemma lazy_any_Some {A} (k : jsstring → option A) (s sk : jsstring) (a : A) :
  lazy_any k s = Some (sk, a)
  ↔ ∃ r, s = sk ++ r ∧ k r = Some a
         ∧ ∀ i, (i < length sk)%nat → k (drop i s) = None.
Proof.
split; [apply lazy_any_first|].
intros (r & -> & Hk & Hf). by apply lazy_any_found.
Qed.

Lemma lazy_any_None {A} (k : jsstring → option A) (s : jsstring) :
  lazy_any k s = None ↔ ∀ i, (i ≤ length s)%nat → k (drop i s) = None.
Proof.
split.
- induction s as [|c s IH]; simpl.
  + destruct (k []) eqn:E; [done|]. intros _ i _. by rewrite drop_nil.
  + destruct (k (c :: s)) eqn:E; [done|].
    destruct (lazy_any k s) as [[sk a]|]; [done|].
    intros _ [|i] Hi; simpl; [done|]. apply IH; [done|lia].
- intros Hf. destruct (lazy_any k s) as [[sk a]|] eqn:E; [|done].
  apply lazy_any_first in E as (r & -> & Hk & _).
  specialize (Hf (length sk)). rewrite drop_app_length in Hf.
  rewrite Hf in Hk; [done|]. rewrite length_app. lia.
Qed.

(** Nothing is found inside a prefix where [k] cannot start. *)
Lemma lazy_any_skip {A} (k : jsstring → option A) (pre s : jsstring) :
  (∀ c r, c ∈ pre → k (c :: r) = None) →
  lazy_any k (pre ++ s)
  = match lazy_any k s with
    | Some (sk, a) => Some (pre ++ sk, a)
    | None => None
    end.
Proof.
intros H. induction pre as [|c pre IH]; simpl.
- by destruct (lazy_any k s) as [[??]|].
- rewrite H by apply list_elem_of_here.
  rewrite IH by (intros c' r Hc; apply H; by apply list_elem_of_further).
  by destruct (lazy_any k s) as [[??]|].
Qed.

End matchers.

(** ** The three formats of [parseActionToObject] *)

Section formats.
Import Regex ChatSteps Formats.

Lemma take_while_words (s : jsstring) (c : N) (w : jsstring) :
  take_while is_word s = c :: w → words (c :: w).
Proof.
intros E. split; [done|]. rewrite <-E. apply take_while_all.
Qed.

Lemma funcMatch_call (s name args : jsstring) :
  funcMatch s = Some (name, args) ↔ call_form s name args.
Proof.
unfold funcMatch, call_form. split.
- pose proof (take_skip_while is_word s) as Hs.
  destruct (take_while is_word s) as [|c w] eqn:Et; [done|].
  destruct (skip_while is_word s) as [|d r] eqn:Es; [done|].
  destruct (d =? 40) eqn:Ed; [|done]. apply N.eqb_eq in Ed as ->.
  destruct (reverse r) as [|e p] eqn:Er; [done|].
  destruct (e =? 41) eqn:Ee; [|done]. apply N.eqb_eq in Ee as ->.
  intros [= <- <-]. split; [|by eapply take_while_words].
  rewrite <-Hs. do 2 f_equal.
  rewrite <-(reverse_involutive r), Er, reverse_cons. done.
- intros [-> [Hne Hw]].
  destruct (take_while_app is_word name ([40] ++ args ++ [41])) as [-> ->];
    [done|right; by eexists _, _|].
  destruct name as [|c w]; [done|]. simpl.
  rewrite reverse_app. simpl. by rewrite reverse_involutive.
Qed.

Lemma word_not_bracket (c : N) : is_word c = true → (c =? 91) = false.
Proof.
intros H. destruct (c =? 91) eqn:E; [|done].
apply N.eqb_eq in E as ->. done.
Qed.

Lemma simpleMatch_bare (s w : jsstring) :
  simpleMatch s = Some w ↔ bare_form s w.
Proof.
unfold simpleMatch, bare_form. split.
- set (s1 := match s with c :: r => if c =? 91 then r else s | [] => s end).
  assert (s = s1 ∨ s = [91] ++ s1) as Hs.
  { destruct s as [|c r]; [by left|]. subst s1. simpl.
    destruct (c =? 91) eqn:E; [|by left]. apply N.eqb_eq in E as ->. by right. }
  pose proof (take_skip_while is_word s1) as Hs1.
  destruct (take_while is_word s1) as [|c v] eqn:Et; [done|].
  destruct (skip_while is_word s1) as [|d [|? ?]] eqn:Es; [| |done].
  + intros [= <-]. split; [by eapply take_while_words|].
    rewrite app_nil_r in Hs1. rewrite <-Hs1 in Hs.
    destruct Hs as [->| ->]; eauto.
  + destruct (d =? 93) eqn:Ed; [|done]. apply N.eqb_eq in Ed as ->.
    intros [= <-]. split; [by eapply take_while_words|].
    rewrite <-Hs1 in Hs. destruct Hs as [->| ->]; eauto.
- intros [[Hne Hw] Hs].
  assert (∃ c v, w = c :: v ∧ (c =? 91) = false) as (c & v & -> & Hc).
  { destruct w as [|c v]; [done|]. exists c, v. split; [done|].
    apply word_not_bracket. by inversion Hw. }
  destruct (take_while_app is_word (c :: v) []) as [E1 E2]; [done|by left|].
  destruct (take_while_app is_word (c :: v) [93]) as [E3 E4];
    [done|right; by eexists _, _|].
  rewrite app_nil_r in E1, E2.
  destruct Hs as [-> | [-> | [-> | ->]]].
  + cbn [app]. rewrite Hc. cbv zeta. by rewrite E1, E2.
  + cbn [app]. rewrite N.eqb_refl. cbv zeta. by rewrite E1, E2.
  + change ((c :: v) ++ [93]) with (c :: (v ++ [93])). cbv beta iota.
    rewrite Hc. cbv zeta. change (c :: (v ++ [93])) with ((c :: v) ++ [93]).
    by rewrite E3, E4.
  + change ([91] ++ (c :: v) ++ [93]) with (91 :: ((c :: v) ++ [93])).
    cbv beta iota. rewrite N.eqb_refl. cbv zeta. by rewrite E3, E4.
Qed.

(** A pattern character that is not a letter matches itself only. *)
Lemma eq_ci_exact (p c : N) :
  (p < 65 ∨ 122 < p ∨ (90 < p ∧ p < 97)) → eq_ci p c = true ↔ c = p.
Proof.
intros Hp. unfold eq_ci, upper. rewrite N.eqb_eq.
destruct (N.leb_spec 97 p), (N.leb_spec p 122), (N.leb_spec 97 c),
  (N.leb_spec c 122); simpl; lia.
Qed.

Lemma lit_char (q c : N) (r : jsstring) :
  (q < 65 ∨ 122 < q ∨ (90 < q ∧ q < 97)) →
  lit [q] (c :: r) = if decide (c = q) then Some ([q], r) else None.
Proof.
intros Hq. simpl. destruct (eq_ci q c) eqn:E.
- apply eq_ci_exact in E as ->; [|done]. by rewrite decide_True.
- rewrite decide_False; [done|]. intros ->. by rewrite eq_ci_refl in E.
Qed.

(** [[\s\S]*?q] for a character [q] that is not a letter: up to the first
    [q]. *)
Lemma lazy_char_Some (q : N) (s x r : jsstring) :
  (q < 65 ∨ 122 < q ∨ (90 < q ∧ q < 97)) →
  lazy_then (lit [q]) s = Some (x, r)
  ↔ ∃ mid, (q ∉ mid) ∧ x = mid ++ [q] ∧ s = x ++ r.
Proof.
intros Hq. unfold lazy_then. revert x. induction s as [|c s IH]; intros x.
- simpl. split; [done|]. intros (mid & _ & -> & E). by destruct mid.
- cbn [lazy_any]. rewrite lit_char by done. case_decide as Hc.
  + subst c. simpl. split.
    * intros [= <- <-]. exists []. split_and!; [apply not_elem_of_nil|done|done].
    * intros (mid & Hm & -> & E). destruct mid as [|d mid]; simpl in E.
      -- by injection E as <-.
      -- injection E as <- _. exfalso. apply Hm, list_elem_of_here.
  + destruct (lazy_any (lit [q]) s) as [[sk [a r']]|] eqn:El; simpl.
    * split.
      -- intros [= <- <-].
         destruct (proj1 (IH (sk ++ a)) eq_refl) as (mid & Hm & E1 & E2).
         exists (c :: mid). split_and!.
         ++ apply not_elem_of_cons. done.
         ++ simpl. by rewrite E1.
         ++ simpl. by rewrite E2.
      -- intros (mid & Hm & -> & E). destruct mid as [|d mid]; simpl in E.
         ++ injection E as -> _. done.
         ++ injection E as <- E. apply not_elem_of_cons in Hm as [_ Hm].
            assert (Some (sk ++ a, r') = Some (mid ++ [q], r)) as E'.
            { apply IH. by exists mid. }
            by injection E' as -> ->.
    * split; [done|]. intros (mid & Hm & -> & E). destruct mid as [|d mid]; simpl in E.
      -- injection E as -> _. done.
      -- injection E as <- E. apply not_elem_of_cons in Hm as [_ Hm].
         assert (None = Some (mid ++ [q], r)) as E'; [|done].
         apply IH. by exists mid.
Qed.

Lemma lazy_char_None (q : N) (s : jsstring) :
  (q < 65 ∨ 122 < q ∨ (90 < q ∧ q < 97)) →
  lazy_then (lit [q]) s = None ↔ q ∉ s.
Proof.
intros Hq. split.
- intros E Hin. apply list_elem_of_split in Hin as (l1 & l2 & ->).
  assert (∃ mid rest, l1 ++ q :: l2 = (mid ++ [q]) ++ rest ∧ q ∉ mid)
    as (mid & rest & Es & Hm).
  { clear E. induction l1 as [|c l1 IH].
    - exists [], l2. split; [done|apply not_elem_of_nil].
    - destruct (decide (c = q)) as [->|Hc].
      + exists [], (l1 ++ q :: l2). split; [done|apply not_elem_of_nil].
      + destruct IH as (mid & rest & Es & Hm).
        exists (c :: mid), rest. split; [simpl; by rewrite Es|].
        by apply not_elem_of_cons. }
  assert (lazy_then (lit [q]) (l1 ++ q :: l2) = Some (mid ++ [q], rest)) as E'.
  { apply lazy_char_Some; [done|]. by exists mid. }
  by rewrite E in E'.
- intros Hn. destruct (lazy_then (lit [q]) s) as [[x r]|] eqn:E; [|done].
  apply lazy_char_Some in E as (mid & _ & -> & ->); [|done].
  exfalso. apply Hn. rewrite <-app_assoc, elem_of_app. right.
  apply list_elem_of_here.
Qed.

Lemma key_at_app (s rest : jsstring) : key_at s → key_at (s ++ rest).
Proof.
intros (t & r & -> & H). exists t, (r ++ rest). by rewrite app_assoc.
Qed.

(** The key is eight characters long, so it stands at the head of a
    text when it stands at the head of a longer one. *)
Lemma key_at_prefix (s rest : jsstring) :
  (length action_key ≤ length s)%nat → key_at (s ++ rest) → key_at s.
Proof.
intros Hl (t & r & E & H). exists t, (drop (length t) s). split; [|done].
pose proof (same_ci_length _ _ H) as Ht.
assert (t = take (length t) s) as Et.
{ rewrite <-(take_app_le s rest) by lia. by rewrite E, take_app_length. }
rewrite Et at 1. by rewrite take_drop.
Qed.

Lemma key_close_found (t mid r : jsstring) :
  same_ci action_key t → 125 ∉ mid →
  key_close (t ++ mid ++ [125] ++ r) = Some (t ++ mid ++ [125], r).
Proof.
intros Ht Hm. unfold key_close, seq.
change ([dquote] ++ js "action" ++ [dquote]) with action_key.
change (js "}") with [125].
rewrite (proj2 (lit_Some action_key _ t (mid ++ [125] ++ r))) by done.
bind_some.
rewrite (proj2 (lazy_char_Some 125 (mid ++ [125] ++ r) (mid ++ [125]) r
                  ltac:(lia))).
- done.
- exists mid. by rewrite <-app_assoc.
Qed.

Lemma key_close_Some (s x r : jsstring) :
  key_close s = Some (x, r) →
  ∃ t mid, same_ci action_key t ∧ (125 ∉ mid) ∧ x = t ++ mid ++ [125] ∧ s = x ++ r.
Proof.
unfold key_close, seq.
change ([dquote] ++ js "action" ++ [dquote]) with action_key.
change (js "}") with [125].
destruct (lit action_key s) as [[t r1]|] eqn:E1; [|done].
bind_some.
destruct (lazy_then (lit [125]) r1) as [[b r']|] eqn:E2; [|done].
intros [= <- <-].
apply lit_Some in E1 as [-> Ht].
apply lazy_char_Some in E2 as (mid & Hm & -> & ->); [|lia].
exists t, mid. split_and!; [done|done|done|]. by rewrite <-!app_assoc.
Qed.

Lemma key_close_None (s : jsstring) :
  key_close s = None ↔ ∀ t r, s = t ++ r → same_ci action_key t → 125 ∉ r.
Proof.
split.
- intros E t r -> Ht Hin.
  apply list_elem_of_split in Hin as (l1 & l2 & ->).
  unfold key_close, seq in E.
  change ([dquote] ++ js "action" ++ [dquote]) with action_key in E.
  change (js "}") with [125] in E.
  rewrite (proj2 (lit_Some action_key _ t (l1 ++ 125 :: l2))) in E by done.
  unfold mbind, option_bind in E. cbv beta iota in E.
  destruct (lazy_then (lit [125]) (l1 ++ 125 :: l2)) as [[b r']|] eqn:E2; [done|].
  apply lazy_char_None in E2; [|lia].
  apply E2. rewrite elem_of_app. right. apply list_elem_of_here.
- intros H. destruct (key_close s) as [[x r]|] eqn:E; [|done].
  apply key_close_Some in E as (t & mid & Ht & Hm & -> & ->).
  exfalso. apply (H t (mid ++ [125] ++ r)); [by rewrite <-!app_assoc|done|].
  rewrite !elem_of_app. right. left. apply list_elem_of_here.
Qed.

Lemma lazy_key_close (s x r : jsstring) :
  lazy_then key_close s = Some (x, r)
  ↔ ∃ a t mid,
      x = a ++ t ++ mid ++ [125] ∧ s = x ++ r ∧ same_ci action_key t
      ∧ (125 ∉ mid)
      ∧ ∀ i, (i < length a)%nat → ¬ key_at (drop i (a ++ t)).
Proof.
unfold lazy_then. split.
- destruct (lazy_any key_close s) as [[a [b r']]|] eqn:E; [|done]. simpl.
  intros [= <- <-].
  apply lazy_any_first in E as (r0 & -> & Hk & Hf).
  apply key_close_Some in Hk as (t & mid & Ht & Hm & -> & ->).
  exists a, t, mid. split_and!; [done|by rewrite <-!app_assoc|done|done|].
  intros i Hi Hkey. specialize (Hf i Hi).
  rewrite key_close_None in Hf.
  destruct Hkey as (t' & r1 & E & Ht').
  apply (Hf t' (r1 ++ mid ++ [125] ++ r')); [|done|].
  + rewrite <-!app_assoc.
    rewrite (app_assoc a t), drop_app_le by (rewrite length_app; lia).
    rewrite E. by rewrite <-!app_assoc.
  + rewrite !elem_of_app. right. right. left. apply list_elem_of_here.
- intros (a & t & mid & -> & -> & Ht & Hm & Hf).
  rewrite <-!app_assoc.
  rewrite (lazy_any_found key_close a (t ++ mid ++ [125] ++ r)
             (t ++ mid ++ [125], r)).
  + done.
  + by apply key_close_found.
  + intros i Hi. apply key_close_None. intros t' r'' E Ht'.
    exfalso. apply (Hf i Hi).
    rewrite (app_assoc a t), drop_app_le in E by (rewrite length_app; lia).
    apply (key_at_prefix _ (mid ++ [125] ++ r)).
    * rewrite length_drop, length_app, (same_ci_length _ _ Ht). lia.
    * exists t', r''. done.
Qed.

Lemma jsonRegex_head (c : N) (r : jsstring) : c ≠ 123 → jsonRegex (c :: r) = None.
Proof.
intros Hc. unfold jsonRegex, seq. change (js "{") with [123].
rewrite lit_char by lia. by rewrite decide_False.
Qed.

Lemma jsonRegex_brace (r : jsstring) :
  jsonRegex (123 :: r)
  = match lazy_then key_close r with
    | Some (b, r') => Some (123 :: b, r')
    | None => None
    end.
Proof.
unfold jsonRegex, seq. change (js "{") with [123].
rewrite lit_char by lia. rewrite decide_True by done.
bind_some.
by destruct (lazy_then key_close r) as [[b r']|].
Qed.

Lemma jsonRegex_Some (s m r : jsstring) :
  jsonRegex s = Some (m, r)
  ↔ ∃ a t mid,
      m = [123] ++ a ++ t ++ mid ++ [125] ∧ s = m ++ r ∧ same_ci action_key t
      ∧ (125 ∉ mid)
      ∧ ∀ i, (i < length a)%nat → ¬ key_at (drop i (a ++ t)).
Proof.
destruct s as [|c s].
- split; [done|]. by intros (a & t & mid & -> & E & _).
- destruct (decide (c = 123)) as [->|Hc].
  + rewrite jsonRegex_brace. split.
    * destruct (lazy_then key_close s) as [[b r']|] eqn:E; [|done].
      intros [= <- <-].
      apply lazy_key_close in E as (a & t & mid & -> & -> & H).
      exists a, t, mid. done.
    * intros (a & t & mid & -> & E & H). simpl in E. injection E as ->.
      rewrite (proj2 (lazy_key_close _ (a ++ t ++ mid ++ [125]) r)); [done|].
      exists a, t, mid. done.
  + rewrite jsonRegex_head by done. split; [done|].
    intros (a & t & mid & -> & E & _). simpl in E. by injection E as ->.
Qed.

Lemma jsonMatch_form (s m : jsstring) : jsonMatch s = Some m ↔ json_form s m.
Proof.
unfold jsonMatch, search, json_form. split.
- destruct (lazy_any jsonRegex s) as [[pre [m' post]]|] eqn:E; [|done]. simpl.
  intros [= <-].
  apply lazy_any_first in E as (r0 & -> & Hk & Hf).
  apply jsonRegex_Some in Hk as (a & t & mid & -> & -> & Ht & Hm & Hfirst).
  exists pre, a, t, mid, post. split_and!; try done.
  intros Hin. apply list_elem_of_split in Hin as (p1 & p2 & ->).
  specialize (Hf (length p1)). rewrite <-app_assoc, drop_app_length in Hf.
  rewrite length_app in Hf. simpl in Hf.
  rewrite jsonRegex_brace in Hf.
  destruct (lazy_then key_close _) as [[b r']|] eqn:E;
    [by specialize (Hf ltac:(lia))|].
  unfold lazy_then in E.
  destruct (lazy_any key_close _) as [[sk [b r']]|] eqn:E2; [done|].
  rewrite lazy_any_None in E2.
  assert (p2 ++ 123 :: (a ++ t ++ mid ++ [125]) ++ post
          = (p2 ++ [123] ++ a) ++ t ++ mid ++ [125] ++ post) as Es
    by (simpl; by rewrite <-!app_assoc).
  rewrite Es in E2.
  specialize (E2 (length (p2 ++ [123] ++ a))).
  rewrite drop_app_length, key_close_found in E2 by done.
  assert (Some (t ++ mid ++ [125], post) = None) as Habs; [|done].
  apply E2. rewrite !length_app. lia.
- intros (pre & a & t & mid & post & -> & -> & Hp & Ht & Hm & Hf).
  rewrite lazy_any_skip.
  + rewrite (lazy_any_here jsonRegex _ ([123] ++ a ++ t ++ mid ++ [125], post)).
    * done.
    * apply jsonRegex_Some. exists a, t, mid. done.
  + intros c r Hc. apply jsonRegex_head. by intros ->.
Qed.

(** What [jsonMatch] gives opens with a brace, so it parses to an object
    or not at all. *)
Lemma jsonMatch_parse (s : jsstring) (v : jsval) :
  jsonMatch s ≫= Json.parse = Some v → ∃ o, v = VObject o.
Proof.
destruct (jsonMatch s) as [m|] eqn:E; [|done]. simpl.
apply jsonMatch_form in E as (pre & a & t & mid & post & _ & -> & _).
apply parse_brace.
Qed.

End formats.

Section parse_action.
Import Regex ChatSteps Formats.

Lemma parseActionToObject_string (a : jsstring) :
  a ≠ [] → trim a ≠ [] →
  parseActionToObject (VString a)
  = match jsonMatch (trim a) ≫= Json.parse with
    | Some v => v
    | None =>
        match funcMatch (trim a) with
        | Some (actionName, paramsStr) =>
            VObject (exec_loop 0 paramsStr {[ js "action" := VString actionName ]})
        | None =>
            match simpleMatch (trim a) with
            | Some w => VObject {[ js "action" := VString w ]}
            | None => VNull
            end
        end
    end.
Proof.
intros Ha Ht. unfold parseActionToObject.
destruct a as [|c a]; [done|]. cbn [truthy nonempty negb typeof_object].
cbv zeta. destruct (trim (c :: a)) as [|d t]; [done|]. done.
Qed.

Lemma skip_while_fixed (f : N → bool) (s : jsstring) :
  (∀ c r, s = c :: r → f c = false) → skip_while f s = s.
Proof.
intros H. destruct s as [|c r]; [done|]. simpl. by rewrite (H c r).
Qed.

Lemma trim_trim (a : jsstring) : trim (trim a) = trim a.
Proof.
unfold trim.
set (b := skip_while is_space a).
set (c := skip_while is_space (reverse b)).
assert (skip_while is_space (reverse c) = reverse c) as E1.
{ apply skip_while_fixed. intros d r Hd.
  pose proof (take_skip_while is_space (reverse b)) as Hb. fold c in Hb.
  apply (f_equal reverse) in Hb.
  rewrite reverse_app, reverse_involutive, Hd in Hb.
  apply (skip_while_head is_space a d (r ++ reverse (take_while is_space (reverse b)))).
  fold b. by rewrite <-Hb at 1. }
rewrite E1, reverse_involutive. f_equal.
apply skip_while_fixed. intros d r Hd.
by apply (skip_while_head is_space (reverse b) d r).
Qed.

(** The parser trims its input, so trimming it beforehand changes
    nothing. *)
Lemma parseActionToObject_trim (a : jsstring) :
  parseActionToObject (VString (trim a)) = parseActionToObject (VString a).
Proof.
destruct (decide (a = [])) as [->|Ha]; [done|].
destruct (decide (trim a = [])) as [Ht|Ht].
- rewrite Ht. unfold parseActionToObject. destruct a; [done|]. simpl.
  simpl in Ht. by rewrite Ht.
- rewrite !parseActionToObject_string by (by rewrite ?trim_trim).
  by rewrite trim_trim.
Qed.

(** Whatever [parseActionToObject] returns is [null] or truthy. *)
Lemma parseActionToObject_truthy (v : jsval) :
  parseActionToObject v = VNull ∨ truthy (parseActionToObject v) = true.
Proof.
unfold parseActionToObject.
destruct (truthy v) eqn:Hv; [|by left]. simpl.
destruct (typeof_object v) eqn:Ho; [by right|].
destruct v as [| |b|m e|a|l|o]; try by left.
destruct (nonempty (trim a)); [|by left]. simpl.
destruct (jsonMatch (trim a) ≫= Json.parse) as [w|] eqn:E.
- apply jsonMatch_parse in E as [o ->]. by right.
- destruct (funcMatch (trim a)) as [[n ps]|]; [by right|].
  destruct (simpleMatch (trim a)); [by right|by left].
Qed.

(** X30.  What the code returns, for every input.  An array or an
    object is returned as it is.  The result is [null] exactly for a falsy
    input, a boolean or a number, a string that is empty once trimmed, and
    a string whose trimmed text is in none of the formats as the code
    reads them: the part from the first opening brace through the first
    quoted [action] to the first closing brace after it does not parse as
    JSON, the text is not [name(args)], and it is not a bare name with
    optional brackets. *)
Theorem parseActionToObject_null (v : jsval) :
  (typeof_object v = true → v ≠ VNull → parseActionToObject v = v)
  ∧ (parseActionToObject v = VNull
     ↔ truthy v = false
       ∨ (∃ b, v = VBool b)
       ∨ (∃ m e, v = VNumber m e)
       ∨ (∃ a, v = VString a ∧ trim a = [])
       ∨ ∃ a, v = VString a
              ∧ (∀ m, json_form (trim a) m → Json.parse m = None)
              ∧ (∀ name args, ¬ call_form (trim a) name args)
              ∧ (∀ w, ¬ bare_form (trim a) w)).
Proof.
split.
- by destruct v.
- split.
  + intros H. destruct v as [| |b|m e|a|l|o];
      [by left|by left|eauto|eauto 10| |done|done].
    destruct (decide (a = [])) as [->|Ha]; [by left|].
    destruct (decide (trim a = [])) as [Ht|Ht]; [eauto 10|].
    rewrite parseActionToObject_string in H by done.
    do 4 right. exists a. split; [done|].
    destruct (jsonMatch (trim a) ≫= Json.parse) as [w|] eqn:E.
    { apply jsonMatch_parse in E as [o ->]. done. }
    destruct (funcMatch (trim a)) as [[n ps]|] eqn:Ef; [done|].
    destruct (simpleMatch (trim a)) as [w|] eqn:Es; [done|].
    split_and!.
    * intros m Hm%jsonMatch_form. rewrite Hm in E. done.
    * intros n ps Hc%funcMatch_call. by rewrite Hc in Ef.
    * intros w Hw%simpleMatch_bare. by rewrite Hw in Es.
  + intros [H|[[b ->]|[(m & e & ->)|[(a & -> & Ht)|(a & -> & Hj & Hc & Hb)]]]].
    * by apply parseActionToObject_falsy.
    * by destruct b.
    * unfold parseActionToObject. simpl. by destruct (m =? 0)%Z.
    * unfold parseActionToObject. destruct a; [done|]. simpl.
      simpl in Ht. by rewrite Ht.
    * destruct (decide (a = [])) as [->|Ha]; [done|].
      destruct (decide (trim a = [])) as [Ht|Ht].
      { unfold parseActionToObject. destruct a; [done|]. simpl.
        simpl in Ht. by rewrite Ht. }
      rewrite parseActionToObject_string by done.
      destruct (jsonMatch (trim a)) as [m|] eqn:E; simpl.
      { apply jsonMatch_form in E. rewrite (Hj m E). simpl.
        destruct (funcMatch (trim a)) as [[n ps]|] eqn:Ef.
        { apply funcMatch_call in Ef. by destruct (Hc n ps). }
        destruct (simpleMatch (trim a)) as [w|] eqn:Es; [|done].
        apply simpleMatch_bare in Es. by destruct (Hb w). }
      destruct (funcMatch (trim a)) as [[n ps]|] eqn:Ef.
      { apply funcMatch_call in Ef. by destruct (Hc n ps). }
      destruct (simpleMatch (trim a)) as [w|] eqn:Es; [|done].
      apply simpleMatch_bare in Es. by destruct (Hb w).
Qed.

Lemma parseActionToObject_null_witness :
  parseActionToObject (VObject {[ js "action" := VString (js "Tap") ]})
  = VObject {[ js "action" := VString (js "Tap") ]}.
Proof.
apply (parseActionToObject_null (VObject {[ js "action" := VString (js "Tap") ]}));
  done.
Defined.

(** C8.  The code fails on a JSON object that has an [action] key and
    a nested object: the whole text parses to an object with that key, but
    the pattern stops at the first closing brace, [JSON.parse] rejects
    the text it is handed, and the result is [null]. *)
Lemma nested_object_gives_null :
  match Json.parse nested_action with
  | Some (VObject o) => o !! js "action" = Some (VString (js "Tap"))
  | _ => False
  end
  ∧ jsonMatch nested_action
    = Some (js "{" ++ quote "action" ++ js ":" ++ quote "Tap" ++ js ","
            ++ quote "p" ++ js ":{" ++ quote "x" ++ js ":1}")
  ∧ parseActionToObject (VString nested_action) = VNull.
Proof. split_and!; by vm_compute. Qed.

End parse_action.

(** ** The function-call format *)

Section call_format.
Import Regex ChatSteps Formats CallSyntax.

Lemma is_word_bounds (c : N) : is_word c = true → 48 ≤ c ≤ 122.
Proof.
unfold is_word, is_digit.
rewrite !orb_true_iff, !andb_true_iff, !N.leb_le, N.eqb_eq. lia.
Qed.

Lemma is_digit_word (c : N) : is_digit c = true → is_word c = true.
Proof.
unfold is_word. intros ->. by rewrite orb_true_r.
Qed.

Lemma word_not_space (c : N) : is_word c = true → is_space c = false.
Proof.
intros H%is_word_bounds. apply not_true_iff_false. unfold is_space.
rewrite !orb_true_iff, !andb_true_iff, !N.leb_le, !N.eqb_eq. lia.
Qed.

Lemma trim_call (c : N) (x : jsstring) :
  is_space c = false → trim (c :: x ++ [41]) = c :: x ++ [41].
Proof.
intros Hc. unfold trim. simpl. rewrite Hc.
change (c :: x ++ [41]) with ((c :: x) ++ [41]).
rewrite reverse_app. simpl.
change (41 :: reverse (c :: x)) with ([41] ++ reverse (c :: x)).
by rewrite reverse_app, reverse_involutive.
Qed.

Lemma exec_loop_skip (x rest : jsstring) (o : jsobject) :
  exec_loop (length x) (x ++ rest) o = exec_loop 0 rest o.
Proof. induction x as [|c x IH]; simpl; [by destruct rest|done]. Qed.

Lemma exec_loop_nomatch (c : N) (r : jsstring) (o : jsobject) :
  is_word c = false → exec_loop 0 (c :: r) o = exec_loop 0 r o.
Proof.
intros H. cbn [exec_loop]. unfold paramRegex. cbn [take_while]. by rewrite H.
Qed.

Lemma quoted_found (q : N) (s rest : jsstring) :
  q ∉ s → quoted q ([q] ++ s ++ [q] ++ rest) = Some (s, rest).
Proof.
intros Hq. simpl. rewrite N.eqb_refl.
destruct (take_while_app (λ x, negb (x =? q)) s (q :: rest)) as [-> ->]; [| |done].
- apply list.Forall_forall. intros c Hc. apply negb_true_iff, N.eqb_neq.
  by intros ->.
- right. exists q, rest. by rewrite N.eqb_refl.
Qed.

Lemma quoted_other (q c : N) (r : jsstring) : c ≠ q → quoted q (c :: r) = None.
Proof. intros H. simpl. by rewrite (proj2 (N.eqb_neq c q)). Qed.

Lemma paramRegex_pair (k : jsstring) (a : arg) (rest : jsstring) :
  words k → well_formed a →
  (rest = [] ∨ ∃ c r, rest = c :: r ∧ is_word c = false) →
  paramRegex (render_pair (k, a) ++ rest) = Some (k, group_of a, rest).
Proof.
intros [Hne Hk] Ha Hr. unfold paramRegex, render_pair. simpl fst. simpl snd.
rewrite <-!app_assoc.
destruct (take_while_app is_word k ([61] ++ render_arg a ++ rest)) as [-> ->];
  [done|right; by eexists _, _|].
destruct k as [|c0 k0]; [done|].
change ([61] ++ render_arg a ++ rest) with (61 :: (render_arg a ++ rest)).
cbv beta iota. change (61 =? 61) with true. cbv iota. unfold dquote, squote.
assert (rest = [] ∨ ∃ c r, rest = c :: r ∧ is_digit c = false) as Hr'.
{ destruct Hr as [->|(c & r & -> & Hc)]; [by left|right].
  exists c, r. split; [done|].
  destruct (is_digit c) eqn:E; [|done]. apply is_digit_word in E. congruence. }
destruct a as [s|s|d|w]; simpl in Ha; simpl group_of.
- change (render_arg (DoubleQuoted s)) with ([34] ++ s ++ [34]).
  rewrite <-!app_assoc. by rewrite quoted_found.
- change (render_arg (SingleQuoted s)) with ([39] ++ s ++ [39]).
  rewrite <-!app_assoc.
  change ([39] ++ s ++ [39] ++ rest) with (39 :: (s ++ [39] ++ rest)) at 1.
  rewrite quoted_other by done.
  change (39 :: (s ++ [39] ++ rest)) with ([39] ++ s ++ [39] ++ rest).
  by rewrite quoted_found.
- change (render_arg (Digits d)) with d.
  destruct Ha as [Hd Hall]. destruct d as [|c d]; [done|].
  assert (is_digit c = true) as Hc by by inversion Hall.
  assert (48 ≤ c ≤ 122) as Hb by by apply is_word_bounds, is_digit_word.
  change ((c :: d) ++ rest) with (c :: (d ++ rest)) at 1 2.
  rewrite !quoted_other by lia.
  by destruct (take_while_app is_digit (c :: d) rest) as [-> ->].
- change (render_arg (Bare w)) with w.
  destruct Ha as [[Hw Hall] (c & w' & -> & Hc)].
  assert (48 ≤ c ≤ 122) as Hb by (apply is_word_bounds; by inversion Hall).
  change ((c :: w') ++ rest) with (c :: (w' ++ rest)) at 1 2 3.
  rewrite !quoted_other by lia.
  cbn [take_while]. rewrite Hc.
  by destruct (take_while_app is_word (c :: w') rest) as [-> ->].
Qed.

Lemma exec_loop_pair (k : jsstring) (a : arg) (rest : jsstring) (o : jsobject) :
  words k → well_formed a →
  (rest = [] ∨ ∃ c r, rest = c :: r ∧ is_word c = false) →
  exec_loop 0 (render_pair (k, a) ++ rest) o
  = exec_loop 0 rest (set_prop k (param_value (group_of a)) o).
Proof.
intros Hk Ha Hr.
pose proof (paramRegex_pair k a rest Hk Ha Hr) as E.
destruct (render_pair (k, a)) as [|c x] eqn:Ep.
{ unfold render_pair in Ep. destruct Hk as [Hne _]. by destruct k. }
change ((c :: x) ++ rest) with (c :: (x ++ rest)) in *.
cbn [exec_loop]. rewrite E.
rewrite length_app.
replace (length x + length rest - length rest)%nat with (length x) by lia.
apply exec_loop_skip.
Qed.

Lemma render_args_cons (p : jsstring * arg) (l : list (jsstring * arg)) :
  render_args (p :: l)
  = render_pair p ++ match l with [] => [] | _ => js ", " ++ render_args l end.
Proof. destruct l; simpl; by rewrite ?app_nil_r. Qed.

Lemma exec_loop_args (l : list (jsstring * arg)) (o : jsobject) :
  Forall (λ p, words p.1 ∧ well_formed p.2) l →
  exec_loop 0 (render_args l) o
  = foldl (λ o p, set_prop p.1 (param_value (group_of p.2)) o) o l.
Proof.
intros H. revert o. induction H as [|[k a] l [Hk Ha] Hl IH]; intros o; [done|].
rewrite render_args_cons. cbn [foldl fst snd].
rewrite exec_loop_pair; [|done|done|].
- destruct l as [|q l]; [done|].
  change (js ", ") with [44; 32]. cbn [app].
  rewrite !exec_loop_nomatch by done. apply IH.
- destruct l; [by left|right]. by eexists _, _.
Qed.

(** A string of the function-call form for which the first format does
    not apply gives the record of its name and pairs. *)
Lemma parseActionToObject_call (name : jsstring) (l : list (jsstring * arg)) :
  words name →
  Forall (λ p, words p.1 ∧ well_formed p.2) l →
  jsonMatch (render_call name l) ≫= Json.parse = None →
  parseActionToObject (VString (render_call name l)) = VObject (record_of name l).
Proof.
intros Hn Hl Hj.
assert (trim (render_call name l) = render_call name l) as Ht.
{ destruct Hn as [Hne Hall]. destruct name as [|c n]; [done|].
  unfold render_call. rewrite !app_assoc. apply trim_call.
  apply word_not_space. by inversion Hall. }
rewrite parseActionToObject_string.
- rewrite Ht, Hj.
  rewrite (proj2 (funcMatch_call _ name (render_args l))) by done.
  by rewrite exec_loop_args.
- destruct Hn as [Hne _]. unfold render_call. by destruct name.
- rewrite Ht. destruct Hn as [Hne _]. unfold render_call. by destruct name.
Qed.

Lemma param_value_of (a : arg) :
  quoted_nonempty a → param_value (group_of a) = value_of a.
Proof. destruct a as [[|??]|[|??]| |]; done. Qed.

Lemma foldl_set_prop (l : list (jsstring * arg)) (o0 : jsobject) :
  NoDup l.*1 →
  (∀ k, k ∈ l.*1 → o0 !! k = None ∧ k ≠ js "__proto__") →
  let o := foldl (λ o p, set_prop p.1 (param_value (group_of p.2)) o) o0 l in
  (∀ k, k ∉ l.*1 → o !! k = o0 !! k)
  ∧ (∀ k a, (k, a) ∈ l → o !! k = Some (param_value (group_of a)))
  ∧ size o = (size o0 + length l)%nat.
Proof.
revert o0. induction l as [|[k a] l IH]; intros o0 Hnd Hk; simpl.
- split_and!; [done| |lia]. intros k a H. by apply elem_of_nil in H.
- apply list.NoDup_cons in Hnd as [Hk1 Hnd].
  destruct (Hk k) as [Hnone Hproto]; [apply list_elem_of_here|].
  unfold set_prop at 2 4 6. rewrite decide_False by done.
  destruct (IH (<[k := param_value (group_of a)]> o0) Hnd) as (H1 & H2 & H3).
  { intros k' Hk'. destruct (Hk k') as [? ?]; [by apply list_elem_of_further|].
    split; [|done]. rewrite lookup_insert_ne; [done|]. by intros ->. }
  split_and!.
  + intros k' Hk'. apply not_elem_of_cons in Hk' as [Hne Hk'].
    rewrite H1 by done. by rewrite lookup_insert_ne.
  + intros k' a' Hin. apply elem_of_cons in Hin as [[= -> ->]|Hin].
    * rewrite H1 by done. by rewrite lookup_insert_eq.
    * by apply H2.
  + rewrite H3, map_size_insert_None by done. lia.
Qed.

Lemma jsonMatch_no_brace (s : jsstring) : 123 ∉ s → jsonMatch s = None.
Proof.
intros H. destruct (jsonMatch s) as [m|] eqn:E; [|done].
apply jsonMatch_form in E as (pre & a & t & mid & post & -> & -> & _).
exfalso. apply H. rewrite !elem_of_app. right. left. left.
apply list_elem_of_here.
Qed.

(** C9, as the code has it.  For a string [Name(k1=v1, k2=v2, ...)]
    whose keys are distinct and are neither [action] nor [__proto__],
    whose values are quoted text that is not empty, runs of digits, or
    words that do not start with a digit, and to which the JSON format
    does not apply, the result is a record with [action] equal to the
    name and one field per pair: quoted text and words as strings, digits
    as a number. *)
Theorem function_call_record (name : jsstring) (l : list (jsstring * arg)) :
  words name →
  Forall (λ p, words p.1 ∧ well_formed p.2 ∧ quoted_nonempty p.2) l →
  NoDup l.*1 →
  js "action" ∉ l.*1 →
  js "__proto__" ∉ l.*1 →
  jsonMatch (render_call name l) ≫= Json.parse = None →
  ∃ o, parseActionToObject (VString (render_call name l)) = VObject o
       ∧ o !! js "action" = Some (VString name)
       ∧ (∀ k a, (k, a) ∈ l → o !! k = Some (value_of a))
       ∧ size o = S (length l).
Proof.
intros Hn Hl Hnd Hact Hproto Hj. exists (record_of name l).
assert (Forall (λ p, words p.1 ∧ well_formed p.2) l) as Hl'.
{ eapply list.Forall_impl; [exact Hl|]. by intros p (? & ? & ?). }
destruct (foldl_set_prop l {[ js "action" := VString name ]} Hnd)
  as (H1 & H2 & H3).
{ intros k Hk. split; [|by intros ->].
  apply lookup_singleton_ne. by intros <-. }
split_and!.
- by apply parseActionToObject_call.
- unfold record_of. rewrite H1 by done. apply lookup_singleton_eq.
- intros k a Hin. unfold record_of. rewrite (H2 k a Hin).
  f_equal. apply param_value_of.
  rewrite list.Forall_forall in Hl. by destruct (Hl _ Hin) as (_ & _ & ?).
- unfold record_of. rewrite H3, map_size_singleton. done.
Qed.

Lemma function_call_record_witness :
  ∃ o, parseActionToObject
         (VString (render_call (js "Tap") [(js "x", Digits (js "100"));
                                           (js "app", DoubleQuoted (js "com.x"))]))
       = VObject o
       ∧ o !! js "action" = Some (VString (js "Tap"))
       ∧ o !! js "x" = Some (VNumber 100 0)
       ∧ o !! js "app" = Some (VString (js "com.x")).
Proof.
destruct (function_call_record (js "Tap")
            [(js "x", Digits (js "100")); (js "app", DoubleQuoted (js "com.x"))])
  as (o & Ho & Ha & Hf & _).
- split; [done|]. by repeat constructor.
- repeat constructor; try done.
  all: not_listed.
- apply (bool_decide_unpack _). by vm_compute.
- apply (bool_decide_unpack _). by vm_compute.
- apply (bool_decide_unpack _). by vm_compute.
- by vm_compute.
- exists o. split_and!; [done|done| |].
  + apply (Hf _ (Digits (js "100"))), list_elem_of_here.
  + apply (Hf _ (DoubleQuoted (js "com.x"))), list_elem_of_further, list_elem_of_here.
Defined.

(** C9 as stated fails: the JSON format is tried first, so a call whose
    quoted value holds a JSON object with an [action] key gives that
    object, and its [action] is not the name of the call. *)
Lemma json_inside_call_wins :
  call_with_json
  = js "Type(text='{" ++ quote "action" ++ js ":" ++ quote "x" ++ js "}')"
  ∧ parseActionToObject (VString call_with_json)
    = VObject {[ js "action" := VString (js "x") ]}
  ∧ ({[ js "action" := VString (js "x") ]} : jsobject) !! js "action"
    ≠ Some (VString (js "Type")).
Proof. split_and!; by vm_compute. Qed.

(** An empty quoted value is lost: the field holds [undefined], not the
    empty string. *)
Lemma empty_quoted_value_is_undefined :
  parseActionToObject (VString call_with_empty_text)
  = VObject (<[ js "text" := VUndefined ]> {[ js "action" := VString (js "Type") ]}).
Proof. by vm_compute. Qed.

End call_format.

(** ** The legacy description *)

Section legacy.
Import Regex ChatSteps ExecutionDetail Formats Legacy.

Lemma lit_lt (p : jsstring) (c : N) (r : jsstring) :
  c ≠ 60 → lit (60 :: p) (c :: r) = None.
Proof.
intros Hc. apply lit_head. apply not_true_iff_false.
rewrite eq_ci_exact by lia. done.
Qed.

Lemma think_open_lt (c : N) (r : jsstring) : c ≠ 60 → think_open (c :: r) = None.
Proof.
intros Hc. unfold think_open, seq. change (js "<think") with (60 :: js "think").
by rewrite lit_lt.
Qed.

Lemma think_close_lt (c : N) (r : jsstring) : c ≠ 60 → think_close (c :: r) = None.
Proof.
intros Hc. unfold think_close, seq. change (js "</think") with (60 :: js "/think").
by rewrite lit_lt.
Qed.

Lemma thinkRegex_lt (c : N) (r : jsstring) : c ≠ 60 → thinkRegex (c :: r) = None.
Proof. intros Hc. unfold thinkRegex. by rewrite think_open_lt. Qed.

Lemma think_block_lt (c : N) (r : jsstring) : c ≠ 60 → think_block (c :: r) = None.
Proof. intros Hc. unfold think_block, seq. by rewrite think_open_lt. Qed.

Lemma answerRegex_lt (c : N) (r : jsstring) : c ≠ 60 → answerRegex (c :: r) = None.
Proof.
intros Hc. unfold answerRegex. change (js "<answer>") with (60 :: js "answer>").
by rewrite lit_lt.
Qed.

Lemma answer_close_lt (c : N) (r : jsstring) :
  c ≠ 60 → lit (js "</answer>") (c :: r) = None.
Proof.
intros Hc. change (js "</answer>") with (60 :: js "/answer>"). by apply lit_lt.
Qed.

Lemma answer_tag_lt (c : N) (r : jsstring) : c ≠ 60 → answer_tag (c :: r) = None.
Proof.
intros Hc. unfold answer_tag, seq. change (js "<") with [60]. by rewrite lit_lt.
Qed.

Lemma plain_head (x : jsstring) (c : N) : plain x → c ∈ x → c ≠ 60.
Proof. intros Hx Hc ->. by apply Hx. Qed.

Lemma lazy_any_plain {A} (k : jsstring → option A) (x s : jsstring) (a : A) :
  (∀ c r, c ≠ 60 → k (c :: r) = None) → plain x → k s = Some a →
  lazy_any k (x ++ s) = Some (x, a).
Proof.
intros Hk Hx Hs. rewrite lazy_any_skip.
- rewrite (lazy_any_here k s a) by done. by rewrite app_nil_r.
- intros c r Hc. apply Hk. by eapply plain_head.
Qed.

Lemma fails_in_app {A} (k : jsstring → option A) (x y : jsstring) :
  fails_in k x → fails_in k y → fails_in k (x ++ y).
Proof.
intros Hx Hy s i Hi. rewrite <-app_assoc.
destruct (decide (i < length x)%nat) as [Hlt|Hge].
- by apply Hx.
- rewrite drop_app_ge by lia. apply Hy. rewrite length_app in Hi. lia.
Qed.

Lemma fails_in_plain {A} (k : jsstring → option A) (x : jsstring) :
  (∀ c r, c ≠ 60 → k (c :: r) = None) → plain x → fails_in k x.
Proof.
intros Hk Hx s i Hi.
destruct (lookup_lt_is_Some_2 x i Hi) as [c Hc].
rewrite drop_app_le by lia.
rewrite (drop_S x c i Hc). simpl. apply Hk.
eapply plain_head; [done|]. by eapply list_elem_of_lookup_2.
Qed.

Lemma lazy_any_fails {A} (k : jsstring → option A) (x s : jsstring) :
  fails_in k x →
  lazy_any k (x ++ s)
  = match lazy_any k s with
    | Some (sk, a) => Some (x ++ sk, a)
    | None => None
    end.
Proof.
intros H. induction x as [|c x IH]; simpl.
- by destruct (lazy_any k s) as [[??]|].
- pose proof (H s 0%nat) as H0. simpl in H0. rewrite H0 by lia.
  rewrite IH.
  + by destruct (lazy_any k s) as [[??]|].
  + intros s' i Hi. apply (H s' (S i)). simpl. lia.
Qed.

Lemma remove_all_skip (m : matcher) (x s : jsstring) :
  remove_all m (length x) (x ++ s) = remove_all m 0 s.
Proof. induction x as [|c x IH]; simpl; [by destruct s|done]. Qed.

Lemma remove_all_fails (m : matcher) (x s : jsstring) :
  fails_in m x → remove_all m 0 (x ++ s) = x ++ remove_all m 0 s.
Proof.
intros H. induction x as [|c x IH]; [done|].
change ((c :: x) ++ s) with (c :: (x ++ s)). cbn [remove_all].
pose proof (H s 0%nat) as H0. simpl in H0. rewrite H0 by lia.
simpl. f_equal. apply IH.
intros s' i Hi. apply (H s' (S i)). simpl. lia.
Qed.

Lemma remove_all_none (m : matcher) (x : jsstring) :
  fails_in m x → remove_all m 0 x = x.
Proof.
intros H. rewrite <-(app_nil_r x) at 1. rewrite remove_all_fails by done.
simpl. apply app_nil_r.
Qed.

Lemma remove_all_match (m : matcher) (x s : jsstring) :
  x ≠ [] → m (x ++ s) = Some (x, s) → remove_all m 0 (x ++ s) = remove_all m 0 s.
Proof.
intros Hx Hm. destruct x as [|c x]; [done|].
change ((c :: x) ++ s) with (c :: (x ++ s)) in *. cbn [remove_all].
rewrite Hm. apply remove_all_skip.
Qed.

Lemma answerRegex_section (A post : jsstring) :
  plain A →
  answerRegex (js "<answer>" ++ A ++ js "</answer>" ++ post)
  = Some (A, (js "</answer>", post)).
Proof.
intros HA. unfold answerRegex. rewrite lit_here. bind_some.
apply lazy_any_plain; [apply answer_close_lt|done|apply lit_here].
Qed.

(** A thinking section between an opening tag [o] and a closing tag
    [c]. *)
Section think_section.
Context (o c : jsstring) (Htags : think_tags o c).

Lemma think_open_tag (r : jsstring) : think_open (o ++ r) = Some (o, r).
Proof. destruct Htags as [[->| ->] _]; by vm_compute. Qed.

Lemma think_close_tag (r : jsstring) : think_close (c ++ r) = Some (c, r).
Proof. destruct Htags as [_ [->| ->]]; by vm_compute. Qed.

Lemma think_tag_nonempty : o ≠ [].
Proof. destruct Htags as [[->| ->] _]; done. Qed.

Lemma thinkRegex_block (body rest : jsstring) :
  plain body →
  thinkRegex (o ++ body ++ c ++ rest) = Some (body, (c, rest)).
Proof.
intros Hb. unfold thinkRegex. rewrite think_open_tag. bind_some.
apply lazy_any_plain; [apply think_close_lt|done|apply think_close_tag].
Qed.

Lemma thinkMatch_block (pre body rest : jsstring) :
  plain pre → plain body →
  thinkMatch (pre ++ o ++ body ++ c ++ rest) = Some body.
Proof.
intros Hp Hb. unfold thinkMatch, search.
rewrite (lazy_any_plain thinkRegex pre _ (body, (c, rest)));
  [done|apply thinkRegex_lt|done|by apply thinkRegex_block].
Qed.

(** The think tags hold nothing that the answer patterns could start
    on. *)
Lemma think_tags_fail :
  fails_in answerRegex o ∧ fails_in answerRegex c
  ∧ fails_in answer_tag o ∧ fails_in answer_tag c.
Proof.
destruct Htags as [[->| ->] [->| ->]]; split_and!; intros s i Hi;
  repeat (destruct i as [|i]; [by vm_compute|]); simpl in Hi; lia.
Qed.

Lemma think_block_found (body rest : jsstring) :
  plain body →
  think_block (o ++ body ++ c ++ rest) = Some (o ++ body ++ c, rest).
Proof.
intros Hb. unfold think_block, seq, lazy_then.
rewrite think_open_tag. bind_some.
rewrite (lazy_any_plain think_close body _ (c, rest));
  [done|apply think_close_lt|done|apply think_close_tag].
Qed.

Lemma answerRegex_fails_around (pre body mid : jsstring) :
  plain pre → plain body → plain mid →
  fails_in answerRegex (pre ++ o ++ body ++ c ++ mid).
Proof.
intros Hp Hb Hm. destruct think_tags_fail as (Ho & Hc & _ & _).
repeat apply fails_in_app; try done;
  by apply fails_in_plain; [apply answerRegex_lt|].
Qed.

(** A description of the usual shape: a thinking section, then an answer
    section. *)
Lemma legacy_think_answer (pre body mid A post : jsstring) :
  plain pre → plain body → plain mid → plain A →
  let d := pre ++ o ++ body ++ c ++ mid ++ js "<answer>" ++ A ++ js "</answer>" ++ post in
  thinkMatch d = Some body ∧ answerMatch d = Some A.
Proof.
intros Hp Hb Hm HA d. split; [by apply thinkMatch_block|].
unfold answerMatch, search. subst d.
replace (pre ++ o ++ body ++ c ++ mid ++ js "<answer>" ++ A ++ js "</answer>" ++ post)
  with ((pre ++ o ++ body ++ c ++ mid) ++ js "<answer>" ++ A ++ js "</answer>" ++ post)
  by (by rewrite <-!app_assoc).
rewrite lazy_any_fails by by apply answerRegex_fails_around.
rewrite (lazy_any_here answerRegex _ (A, (js "</answer>", post)));
  [done|by apply answerRegex_section].
Qed.

(** A description with a thinking section and no answer tags: the action
    is read from what is left when the section is cut out. *)
Lemma legacy_think_only (pre body rest : jsstring) :
  plain pre → plain body → plain rest →
  let d := pre ++ o ++ body ++ c ++ rest in
  thinkMatch d = Some body ∧ answerMatch d = None
  ∧ strip_markup d = trim (pre ++ rest).
Proof.
intros Hp Hb Hr d. split_and!; [by apply thinkMatch_block| |].
- unfold answerMatch, search. subst d.
  rewrite <-(app_nil_r (pre ++ _)), lazy_any_fails; [done|].
  by apply answerRegex_fails_around.
- unfold strip_markup. subst d. f_equal.
  rewrite (remove_all_fails think_block pre)
    by (by apply fails_in_plain; [apply think_block_lt|]).
  replace (o ++ body ++ c ++ rest) with ((o ++ body ++ c) ++ rest)
    by (by rewrite <-!app_assoc).
  rewrite (remove_all_match think_block (o ++ body ++ c) rest).
  + rewrite (remove_all_none think_block rest)
      by (by apply fails_in_plain; [apply think_block_lt|]).
    apply remove_all_none.
    apply fails_in_app; by apply fails_in_plain; [apply answer_tag_lt|].
  + pose proof think_tag_nonempty. by destruct o.
  + rewrite <-!app_assoc. by apply think_block_found.
Qed.

End think_section.

Lemma new_format_action (v : jsval) :
  (if truthy v then parseActionToObject v else VNull) = parseActionToObject v.
Proof.
destruct (truthy v) eqn:E; [done|]. by rewrite parseActionToObject_falsy.
Qed.



End legacy.

(** * More of the code

    Properties of the same files that the statements above do not
    cover. *)

(** ** [parseActionToObject]: the three formats *)

Section parse_action_more.
Import Regex ChatSteps Formats CallSyntax.

(** What [parseActionToObject] returns is [null], an object, or the
    array it was given. *)
Lemma parseActionToObject_result (v : jsval) :
  parseActionToObject v = VNull
  ∨ (∃ o, parseActionToObject v = VObject o)
  ∨ ∃ l, parseActionToObject v = VArray l.
Proof.
unfold parseActionToObject.
destruct (truthy v) eqn:Hv; [|by left]. simpl.
destruct v as [| |b|m e|a|l|o]; simpl; eauto.
destruct (nonempty (trim a)); [|by left]. simpl.
destruct (jsonMatch (trim a) ≫= Json.parse) as [w|] eqn:E.
- apply jsonMatch_parse in E as [o ->]. eauto.
- destruct (funcMatch (trim a)) as [[n ps]|]; [eauto|].
  destruct (simpleMatch (trim a)); eauto.
Qed.

(** X1.  Parsing what was parsed changes nothing: a parsed action can
    be handed to the parser again, as the pages do with the action of a
    step that is already an object. *)
Theorem parseActionToObject_idempotent (v : jsval) :
  parseActionToObject (parseActionToObject v) = parseActionToObject v.
Proof.
destruct (parseActionToObject_result v) as [->|[[o ->]|[l ->]]]; done.
Qed.

Lemma skip_while_spaces (pre s : jsstring) :
  Forall (λ c, is_space c = true) pre →
  skip_while is_space (pre ++ s) = skip_while is_space s.
Proof.
induction 1 as [|c pre Hc Hpre IH]; [done|]. simpl. by rewrite Hc.
Qed.

Lemma trim_padded (pre a post : jsstring) :
  Forall (λ c, is_space c = true) pre →
  Forall (λ c, is_space c = true) post →
  trim (pre ++ a ++ post) = trim a.
Proof.
intros Hpre Hpost. unfold trim.
rewrite skip_while_spaces by done.
destruct (decide (skip_while is_space a = [])) as [E|E].
- rewrite E.
  assert (skip_while is_space (a ++ post) = []) as ->; [|done].
  assert (Forall (λ c, is_space c = true) a) as Ha.
  { pose proof (take_skip_while is_space a) as H. rewrite E, app_nil_r in H.
    rewrite <-H. apply take_while_all. }
  rewrite <-(app_nil_r (a ++ post)). rewrite skip_while_spaces; [done|].
  by apply Forall_app.
- assert (skip_while is_space (a ++ post) = skip_while is_space a ++ post) as ->.
  { clear Hpre. induction a as [|c a IH]; [done|]. simpl in *.
    destruct (is_space c); [by apply IH|done]. }
  rewrite reverse_app. rewrite skip_while_spaces; [done|].
  by apply Forall_reverse.
Qed.

(** X2.  White space before and after the text of an action does not
    matter, whatever the text is. *)
Theorem parseActionToObject_padding (pre a post : jsstring) :
  Forall (λ c, is_space c = true) pre →
  Forall (λ c, is_space c = true) post →
  parseActionToObject (VString (pre ++ a ++ post)) = parseActionToObject (VString a).
Proof.
intros Hpre Hpost.
rewrite <-(parseActionToObject_trim (pre ++ a ++ post)).
rewrite <-(parseActionToObject_trim a). by rewrite trim_padded.
Qed.

Lemma parseActionToObject_padding_witness :
  parseActionToObject (VString ([32; 10] ++ js "Tap(x=1)" ++ [13; 10]))
  = parseActionToObject (VString (js "Tap(x=1)")).
Proof.
apply parseActionToObject_padding; by repeat constructor.
Defined.

Lemma bare_form_chars (s w : jsstring) (c : N) :
  bare_form s w → c ∈ s → is_word c = true ∨ c = 91 ∨ c = 93.
Proof.
intros [[_ Hw] Hs] Hc. rewrite list.Forall_forall in Hw.
destruct Hs as [-> | [-> | [-> | ->]]];
  repeat (apply elem_of_app in Hc as [Hc|Hc]);
  try (apply list_elem_of_singleton in Hc); auto.
Qed.

(** X3.  The third format: a name alone, with an opening bracket before
    it or a closing bracket after it or both, gives a record with that
    name as its action, in the case it was written in. *)
Theorem bare_name_record (a w : jsstring) :
  bare_form (trim a) w →
  parseActionToObject (VString a) = VObject {[ js "action" := VString w ]}.
Proof.
intros Hb.
assert (trim a ≠ []) as Ht.
{ destruct Hb as [[Hne _] Hs]. intros E. rewrite E in Hs.
  destruct Hs as [<- | [Hs | [Hs | Hs]]]; [done|done| |done].
  by destruct w. }
assert (a ≠ []) as Ha by (by intros ->).
rewrite parseActionToObject_string by done.
rewrite jsonMatch_no_brace.
- simpl. destruct (funcMatch (trim a)) as [[n ps]|] eqn:Ef.
  + apply funcMatch_call in Ef as [E _].
    destruct (bare_form_chars (trim a) w 40 Hb) as [H|[H|H]]; try done.
    rewrite E. apply elem_of_app. right. apply list_elem_of_here.
  + by rewrite (proj2 (simpleMatch_bare (trim a) w)).
- intros H. by destruct (bare_form_chars (trim a) w 123 Hb H) as [?|[?|?]].
Qed.

Lemma bare_name_record_witness :
  parseActionToObject (VString (js " [Finish] "))
  = VObject {[ js "action" := VString (js "Finish") ]}.
Proof.
apply bare_name_record. split.
- split; [done|]. by repeat constructor.
- do 3 right. reflexivity.
Defined.

(** X4.  The first format: the text from the first opening brace
    through the first quoted [action] key to the first closing brace after
    it is read as JSON, and what it gives is the result, an object: the
    text around it is ignored and the other formats are not tried. *)
Theorem embedded_json_record (a m : jsstring) (v : jsval) :
  json_form (trim a) m → Json.parse m = Some v →
  parseActionToObject (VString a) = v ∧ ∃ o, v = VObject o.
Proof.
intros Hf Hp.
assert (jsonMatch (trim a) = Some m) as Hm by by apply jsonMatch_form.
assert (trim a ≠ []) as Ht.
{ intros E. by rewrite E in Hm. }
assert (a ≠ []) as Ha by (by intros ->).
rewrite parseActionToObject_string by done.
rewrite Hm. simpl. rewrite Hp. split; [done|].
apply (jsonMatch_parse (trim a)). rewrite Hm. done.
Qed.

Lemma embedded_json_record_witness :
  parseActionToObject
    (VString (js "do {" ++ quote "action" ++ js ":" ++ quote "Tap" ++ js "} now"))
  = VObject {[ js "action" := VString (js "Tap") ]}.
Proof.
apply (embedded_json_record _
         (js "{" ++ quote "action" ++ js ":" ++ quote "Tap" ++ js "}")).
- exists (js "do "), [], action_key, (js ":" ++ quote "Tap"), (js " now").
  split_and!; [reflexivity|reflexivity| |apply same_ci_refl| |simpl; lia].
  + not_listed.
  + not_listed.
- by vm_compute.
Defined.

Lemma exec_loop_proto (ps : jsstring) :
  ∀ (n : nat) (o : jsobject),
    exec_loop n ps o !! js "__proto__" = o !! js "__proto__".
Proof.
induction ps as [|c r IH]; intros n o; [done|].
cbn [exec_loop]. destruct n as [|n]; [|apply IH].
destruct (paramRegex (c :: r)) as [[[k g] rest]|]; [|apply IH].
rewrite IH. unfold set_prop. case_decide as E; [done|].
by rewrite lookup_insert_ne.
Qed.

(** X5.  A record that comes from the function-call format or from a
    bare name never has a [__proto__] field: an assignment to that key
    goes to the inherited setter, which ignores the value. *)
Theorem call_record_has_no_proto (a : jsstring) (o : jsobject) :
  jsonMatch (trim a) ≫= Json.parse = None →
  parseActionToObject (VString a) = VObject o →
  o !! js "__proto__" = None.
Proof.
intros Hj. unfold parseActionToObject.
destruct (truthy (VString a)); [|done]. simpl.
destruct (nonempty (trim a)); [|done]. simpl. rewrite Hj.
destruct (funcMatch (trim a)) as [[n ps]|].
- intros [= <-]. by rewrite exec_loop_proto.
- destruct (simpleMatch (trim a)); [|done]. by intros [= <-].
Qed.

Lemma call_record_has_no_proto_witness :
  exec_loop 0 (js "__proto__=1, x=2") {[ js "action" := VString (js "Tap") ]}
    !! js "__proto__" = None.
Proof.
apply (call_record_has_no_proto (js "Tap(__proto__=1, x=2)")); by vm_compute.
Defined.

Lemma record_lookup (l : list (jsstring * arg)) (o0 : jsobject) (k : jsstring) :
  NoDup l.*1 →
  let o := foldl (λ o p, set_prop p.1 (param_value (group_of p.2)) o) o0 l in
  (k ∉ l.*1 ∨ k = js "__proto__" → o !! k = o0 !! k)
  ∧ (∀ a, (k, a) ∈ l → k ≠ js "__proto__" →
          o !! k = Some (param_value (group_of a))).
Proof.
revert o0. induction l as [|[k' a'] l IH]; intros o0 Hnd; simpl.
- split; [done|]. by intros a H%elem_of_nil.
- apply list.NoDup_cons in Hnd as [Hk' Hnd].
  destruct (IH (set_prop k' (param_value (group_of a')) o0) Hnd) as [H1 H2].
  split.
  + intros H. rewrite H1.
    * unfold set_prop. case_decide as E; [done|].
      rewrite lookup_insert_ne; [done|]. intros ->.
      destruct H as [H|H]; [|done]. apply H, list_elem_of_here.
    * destruct H as [H|H]; [left|by right].
      intros Hin. apply H. by apply list_elem_of_further.
  + intros a [[= -> ->]|Hin]%elem_of_cons Hne.
    * rewrite H1 by (by left). unfold set_prop. rewrite decide_False by done.
      by rewrite lookup_insert_eq.
    * by apply H2.
Qed.



(** X7.  The pair written last decides: it replaces what an earlier
    pair with the same key gave, and a pair with the key [action] replaces
    the name of the call, as in [do(action="Launch")]. *)
Theorem last_pair_wins (name k : jsstring) (a : arg) (l : list (jsstring * arg)) :
  words name →
  Forall (λ p, words p.1 ∧ well_formed p.2) (l ++ [(k, a)]) →
  k ≠ js "__proto__" →
  jsonMatch (render_call name (l ++ [(k, a)])) ≫= Json.parse = None →
  ∃ o, parseActionToObject (VString (render_call name (l ++ [(k, a)]))) = VObject o
       ∧ o !! k = Some (param_value (group_of a)).
Proof.
intros Hn Hl Hk Hj. exists (record_of name (l ++ [(k, a)])).
split; [by apply parseActionToObject_call|].
unfold record_of. rewrite foldl_app. simpl. unfold set_prop at 1.
rewrite decide_False by done. apply lookup_insert_eq.
Qed.

Lemma last_pair_wins_witness :
  ∃ o, parseActionToObject
         (VString (render_call (js "do")
                     ([(js "app", DoubleQuoted (js "Clock"))]
                      ++ [(js "action", DoubleQuoted (js "Launch"))])))
       = VObject o
       ∧ o !! js "action" = Some (VString (js "Launch")).
Proof.
apply (last_pair_wins (js "do") (js "action") (DoubleQuoted (js "Launch"))
         [(js "app", DoubleQuoted (js "Clock"))]).
- split; [done|]. by repeat constructor.
- repeat constructor; try done.
  all: not_listed.
- done.
- by vm_compute.
Defined.

End parse_action_more.

(** ** [convertStepsToChatItems]: the items and their numbers *)

Section chat_log.
Import ExecutionDetail ChatLog StepLog.

Lemma step_items_renumber (n i : Z) (st : ExecutionStep) :
  step_items (i + n) st
  = (renumber n <$> (step_items i st).1, ((step_items i st).2 + n)%Z).
Proof.
unfold step_items.
destruct (truthy_str (sd_thinking (parseStepData st)));
  destruct (truthy (sd_action (parseStepData st))); simpl.
- unfold renumber. simpl.
  replace (i + n + 1 + 1)%Z with (i + 1 + 1 + n)%Z by lia.
  by replace (i + n + 1)%Z with (i + 1 + n)%Z by lia.
- unfold renumber. simpl. by replace (i + n + 1)%Z with (i + 1 + n)%Z by lia.
- unfold renumber. simpl. by replace (i + n + 1)%Z with (i + 1 + n)%Z by lia.
- destruct (truthy_str (description st)); simpl; [|done].
  destruct (nonempty (strip_markup (default [] (description st)))); simpl; [|done].
  unfold renumber. simpl. by replace (i + n + 1)%Z with (i + 1 + n)%Z by lia.
Qed.

Lemma step_items_ids (i : Z) (st : ExecutionStep) :
  id <$> (step_items i st).1 = seqZ i (Z.of_nat (length (step_items i st).1))
  ∧ (step_items i st).2 = (i + Z.of_nat (length (step_items i st).1))%Z.
Proof.
unfold step_items.
destruct (truthy_str (sd_thinking (parseStepData st)));
  destruct (truthy (sd_action (parseStepData st))); simpl.
- split; [|lia]. unfold seqZ. simpl. repeat (apply (f_equal2 cons); [lia|]). done.
- split; [|lia]. unfold seqZ. simpl. repeat (apply (f_equal2 cons); [lia|]). done.
- split; [|lia]. unfold seqZ. simpl. repeat (apply (f_equal2 cons); [lia|]). done.
- destruct (truthy_str (description st)); simpl; [|split; [done|lia]].
  destruct (nonempty (strip_markup (default [] (description st)))); simpl;
    (split; [|lia]); [|done].
  unfold seqZ. simpl. repeat (apply (f_equal2 cons); [lia|]). done.
Qed.

Lemma convert_loop_foldl (steps : list ExecutionStep) (acc : list ChatItem) (i : Z) :
  foldl convert_loop (acc, i) steps
  = (acc ++ (renumber (i - 1) <$> convertStepsToChatItems steps),
     (i + Z.of_nat (length (convertStepsToChatItems steps)))%Z).
Proof.
unfold convertStepsToChatItems.
revert acc i. induction steps as [|st steps IH]; intros acc i.
- simpl. rewrite app_nil_r. f_equal. lia.
- simpl. unfold convert_loop at 2 4. simpl.
  destruct (step_items_ids 1 st) as [_ E1].
  destruct (step_items_ids i st) as [_ Ei].
  pose proof (step_items_renumber (i - 1) 1 st) as Er.
  replace (1 + (i - 1))%Z with i in Er by lia.
  destruct (step_items i st) as [new j] eqn:Es.
  destruct (step_items 1 st) as [new1 j1] eqn:Es1.
  simpl in *. injection Er as -> ->.
  rewrite (IH (acc ++ _)), (IH new1). simpl.
  rewrite <-app_assoc, fmap_app, <-list_fmap_compose.
  assert (convert_loop ([], 1%Z) st = (new1, j1)) as Ec.
  { unfold convert_loop. simpl. by rewrite Es1. }
  rewrite Ec, (IH new1 j1). simpl.
  rewrite !length_app, !length_fmap. f_equal; [|lia].
  f_equal. f_equal. apply list_fmap_ext. intros _ it _.
  unfold renumber. simpl. f_equal. lia.
Qed.

(** X8.  Steps added at the end leave the items of the steps before
    them as they are, ids included: the items of the new steps follow,
    numbered on.  While steps stream in, what is shown is only added
    to. *)
Theorem convertStepsToChatItems_app (a b : list ExecutionStep) :
  convertStepsToChatItems (a ++ b)
  = convertStepsToChatItems a
    ++ (renumber (Z.of_nat (length (convertStepsToChatItems a)))
          <$> convertStepsToChatItems b).
Proof.
unfold convertStepsToChatItems at 1. rewrite foldl_app.
rewrite (convert_loop_foldl a [] 1). rewrite convert_loop_foldl. simpl.
change (1 - 1)%Z with 0%Z.
assert (renumber 0 <$> convertStepsToChatItems a = convertStepsToChatItems a) as ->.
{ rewrite <-(list_fmap_id (convertStepsToChatItems a)) at 2.
  apply list_fmap_ext. intros _ [i t c ts si ad] _. unfold renumber. simpl.
  by rewrite Z.add_0_r. }
f_equal. apply list_fmap_ext. intros _ it _. f_equal. lia.
Qed.

Lemma convertStepsToChatItems_one (st : ExecutionStep) :
  convertStepsToChatItems [st] = (step_items 1 st).1.
Proof.
unfold convertStepsToChatItems. simpl. unfold convert_loop. simpl.
by destruct (step_items 1 st).
Qed.

Lemma convertStepsToChatItems_snoc (steps : list ExecutionStep) (st : ExecutionStep) :
  convertStepsToChatItems (steps ++ [st])
  = convertStepsToChatItems steps
    ++ (renumber (Z.of_nat (length (convertStepsToChatItems steps)))
          <$> (step_items 1 st).1).
Proof.
unfold convertStepsToChatItems at 1. rewrite foldl_app.
rewrite (convert_loop_foldl steps [] 1). rewrite convert_loop_foldl. simpl.
change (1 - 1)%Z with 0%Z. rewrite convertStepsToChatItems_one.
assert (renumber 0 <$> convertStepsToChatItems steps
        = convertStepsToChatItems steps) as ->.
{ rewrite <-(list_fmap_id (convertStepsToChatItems steps)) at 2.
  apply list_fmap_ext. intros _ [i t c ts si ad] _. unfold renumber. simpl.
  by rewrite Z.add_0_r. }
f_equal. apply list_fmap_ext. intros _ it _. f_equal. lia.
Qed.

(** X9.  The items are numbered from 1 in the order they are shown, so
    no two items of a list share their id. *)
Theorem chat_item_ids_count_from_one (steps : list ExecutionStep) :
  id <$> convertStepsToChatItems steps
  = seqZ 1 (Z.of_nat (length (convertStepsToChatItems steps))).
Proof.
induction steps as [|st steps IH] using rev_ind; [done|].
rewrite convertStepsToChatItems_snoc, fmap_app, length_app, IH.
rewrite Nat2Z.inj_add, seqZ_app by lia. f_equal.
rewrite length_fmap.
set (n := Z.of_nat (length (convertStepsToChatItems steps))).
destruct (step_items_ids 1 st) as [E _].
rewrite <-list_fmap_compose.
transitivity ((λ x, x + n)%Z <$> (id <$> (step_items 1 st).1)).
{ by rewrite <-list_fmap_compose. }
rewrite E. replace (1 + n)%Z with (n + 1)%Z by lia.
rewrite <-(fmap_add_seqZ n 1).
apply list_fmap_ext. intros _ x _. lia.
Qed.

Lemma step_items_shape (i : Z) (st : ExecutionStep) (it : ChatItem) :
  it ∈ (step_items i st).1 → made_for st it ∧ (thinking_item it ∨ action_item it).
Proof.
unfold step_items, made_for, thinking_item, action_item.
destruct (truthy_str (sd_thinking (parseStepData st))) eqn:Et;
  destruct (truthy (sd_action (parseStepData st))) eqn:Ea; simpl.
- intros [->|[->|H%elem_of_nil]%elem_of_cons]%elem_of_cons; [| |done]; simpl.
  + split; [eauto|left]. split_and!; [done| |done].
    destruct (sd_thinking (parseStepData st)) as [[|??]|]; done.
  + split; [eauto|right]. eauto.
- intros [->|H%elem_of_nil]%elem_of_cons; [|done]. simpl.
  split; [eauto|left]. split_and!; [done| |done].
  destruct (sd_thinking (parseStepData st)) as [[|??]|]; done.
- intros [->|H%elem_of_nil]%elem_of_cons; [|done]. simpl.
  split; [eauto|right]. eauto.
- destruct (truthy_str (description st)); simpl;
    [|by intros H%elem_of_nil].
  destruct (nonempty (strip_markup (default [] (description st)))) eqn:En; simpl;
    [|by intros H%elem_of_nil].
  intros [->|H%elem_of_nil]%elem_of_cons; [|done]. simpl.
  split; [eauto|left]. split_and!; [done| |done].
  by destruct (strip_markup (default [] (description st))).
Qed.

Lemma step_items_length (i : Z) (st : ExecutionStep) :
  (length (step_items i st).1 ≤ 2)%nat.
Proof.
unfold step_items.
destruct (truthy_str (sd_thinking (parseStepData st)));
  destruct (truthy (sd_action (parseStepData st))); simpl; try lia.
destruct (truthy_str (description st)); simpl; [|lia].
destruct (nonempty (strip_markup (default [] (description st)))); simpl; lia.
Qed.

Lemma convertStepsToChatItems_length (steps : list ExecutionStep) :
  (length (convertStepsToChatItems steps) ≤ 2 * length steps)%nat.
Proof.
induction steps as [|st steps IH] using rev_ind; [done|].
rewrite convertStepsToChatItems_snoc.
rewrite !length_app, length_fmap. simpl.
pose proof (step_items_length 1 st). lia.
Qed.

(** X10.  Every item comes from one of the steps: it carries the index
    and the timestamp of that step, and it is either a thinking bubble
    with text and no action data or an action card with no text and a
    parsed action that is not [null].  A step gives at most two items. *)
Theorem chat_items_come_from_steps (steps : list ExecutionStep) :
  (∀ it, it ∈ convertStepsToChatItems steps →
         ∃ st, st ∈ steps ∧ made_for st it ∧ (thinking_item it ∨ action_item it))
  ∧ (length (convertStepsToChatItems steps) ≤ 2 * length steps)%nat.
Proof.
split; [|apply convertStepsToChatItems_length].
induction steps as [|st steps IH] using rev_ind.
- by intros it H%elem_of_nil.
- rewrite convertStepsToChatItems_snoc.
  intros it [H|H]%elem_of_app.
  + destruct (IH it H) as (st' & Hin & Hst). exists st'. split; [|done].
    apply elem_of_app. by left.
  + apply list_elem_of_fmap in H as (it' & -> & H).
    apply step_items_shape in H. exists st. split; [|done].
    apply elem_of_app. right. apply list_elem_of_here.
Qed.

Lemma step_items_two (i : Z) (st : ExecutionStep) :
  length (step_items i st).1 = 2%nat
  ↔ truthy_str (sd_thinking (parseStepData st)) = true
    ∧ truthy (sd_action (parseStepData st)) = true.
Proof.
unfold step_items.
destruct (truthy_str (sd_thinking (parseStepData st)));
  destruct (truthy (sd_action (parseStepData st))); simpl;
  try (split; [done|by intros [? ?]]).
destruct (truthy_str (description st)); simpl; [|split; [done|by intros [? ?]]].
destruct (nonempty (strip_markup (default [] (description st)))); simpl;
  (split; [done|by intros [? ?]]).
Qed.

(** X11.  The header shows half the number of items as the number of
    steps.  The number of items is twice the number of steps exactly when
    every step has both a thinking text and an action: with any other
    step in the list the header is not the number of steps. *)
Theorem header_counts_steps (steps : list ExecutionStep) :
  length (convertStepsToChatItems steps) = (2 * length steps)%nat
  ↔ Forall (λ st, truthy_str (sd_thinking (parseStepData st)) = true
                  ∧ truthy (sd_action (parseStepData st)) = true) steps.
Proof.
induction steps as [|st steps IH] using rev_ind.
- split; [by constructor|done].
- rewrite convertStepsToChatItems_snoc.
  rewrite !length_app, length_fmap, Forall_app, Forall_singleton. simpl.
  pose proof (step_items_length 1 st) as H2.
  pose proof (convertStepsToChatItems_length steps) as Hn.
  rewrite <-IH, <-(step_items_two 1 st). lia.
Qed.

End chat_log.

(** ** The step listener: a stream delivered again *)

Section replay.
Import ExecutionDetail StepLog.

Lemma handle_log_grows (s : state) (e : event) :
  streamSteps s `prefix_of` streamSteps (handle s e).
Proof.
unfold handle. destruct (closed s); [done|].
destruct e as [tok|st| |]; simpl; try done.
- unfold on_token, append_token. repeat case_decide; simpl; done.
- destruct (existsb _ _); [done|]. by apply prefix_app_r.
Qed.

(** Events never remove or reorder stored steps: the log before is the
    beginning of the log after. *)
Lemma run_log_grows (es : list event) (s : state) :
  streamSteps s `prefix_of` streamSteps (run s es).
Proof.
revert s. induction es as [|e es IH]; intros s; [done|].
etrans; [apply handle_log_grows|apply IH].
Qed.

Lemma run_log_known (es : list event) (s : state) :
  (∀ st, EStep st ∈ es → step st ∈ indices (streamSteps s)) →
  streamSteps (run s es) = streamSteps s.
Proof.
revert s. induction es as [|e es IH]; intros s H; [done|].
assert (streamSteps (handle s e) = streamSteps s) as E.
{ unfold handle. destruct (closed s); [done|].
  destruct e as [tok|st| |]; simpl; try done.
  - unfold on_token, append_token. repeat case_decide; simpl; done.
  - rewrite (proj2 (existsb_step_elem_of st (streamSteps s))); [done|].
    apply H, list_elem_of_here. }
unfold run in *. simpl. rewrite IH; [done|].
intros st Hst. rewrite E. apply H. by apply list_elem_of_further.
Qed.

Lemma run_log_has (es : list event) (s : state) (st : ExecutionStep) :
  closed (run s es) = false → EStep st ∈ es →
  step st ∈ indices (streamSteps (run s es)).
Proof.
revert s. induction es as [|e es IH]; intros s Hc Hin.
- by apply elem_of_nil in Hin.
- unfold run in *. simpl in *.
  apply elem_of_cons in Hin as [<-|Hin]; [|by apply IH].
  assert (closed s = false) as Hs.
  { destruct (closed s) eqn:E; [|done].
    assert (handle s (EStep st) = s) as Eh by (unfold handle; by rewrite E).
    rewrite Eh in Hc. fold (run s es) in Hc. rewrite run_closed in Hc by done.
    congruence. }
  assert (step st ∈ indices (streamSteps (handle s (EStep st)))) as H.
  { unfold handle. rewrite Hs. simpl.
    destruct (existsb _ _) eqn:E.
    - by apply existsb_step_elem_of.
    - unfold indices. rewrite fmap_app. apply elem_of_app. right.
      apply list_elem_of_here. }
  destruct (run_log_grows es (handle s (EStep st))) as [k Hk].
  unfold run in Hk. rewrite Hk. unfold indices. rewrite fmap_app.
  apply elem_of_app. by left.
Qed.

(** X12.  A [step] event whose index was delivered before changes
    nothing, whatever it carries: a stream that is delivered again in part
    or in whole (the steps are sent again to a subscriber that joins late)
    leaves the log as the first delivery made it. *)
Theorem replay_keeps_log (es again : list event) (s : state) :
  (∀ st, EStep st ∈ again → ∃ st0, EStep st0 ∈ es ∧ step st0 = step st) →
  streamSteps (run s (es ++ again)) = streamSteps (run s es).
Proof.
intros H. unfold run. rewrite foldl_app.
fold (run s es). fold (run (run s es) again).
destruct (closed (run s es)) eqn:Hc.
- by rewrite run_closed.
- apply run_log_known. intros st Hst.
  destruct (H st Hst) as (st0 & Hin & <-). by apply run_log_has.
Qed.

Lemma replay_keeps_log_witness :
  streamSteps (run (subscribed []) ([EStep (a_step 1); EStep (a_step 2)]
                                    ++ [EStep (a_step 1)]))
  = streamSteps (run (subscribed []) [EStep (a_step 1); EStep (a_step 2)]).
Proof.
apply replay_keeps_log. intros st Hin.
apply list_elem_of_singleton in Hin. injection Hin as ->.
exists (a_step 1). split; [apply list_elem_of_here|reflexivity].
Defined.

End replay.

(** ** [formatDateTime] *)

Section utils.
Import Utils.

Lemma endsWith_Z (s : jsstring) : endsWith 90 (s ++ js "Z") = true.
Proof.
unfold endsWith. apply bool_decide_eq_true.
change (js "Z") with [90]. by rewrite reverse_app.
Qed.

(** X13.  A time without a zone is read as UTC: it is formatted as the
    same text with [Z] after it is, whatever the time zone of the
    browser.  A text that names a zone is handed on as it is, so the [Z]
    is never added twice. *)
Theorem formatDateTime_reads_utc (toLocaleString : jsstring → jsstring)
    (s : jsstring) :
  s ≠ [] →
  dateStr (dateStr s) = dateStr s
  ∧ formatDateTime toLocaleString (Some (dateStr s))
    = formatDateTime toLocaleString (Some s).
Proof.
intros Hs.
assert (dateStr (dateStr s) = dateStr s) as E.
{ unfold dateStr at 2 3.
  destruct (negb (endsWith 90 s) && negb (includes 43 0 s) && negb (includes 45 10 s))
    eqn:Ez.
  - unfold dateStr. by rewrite endsWith_Z.
  - unfold dateStr. by rewrite Ez. }
split; [done|].
destruct s as [|c r]; [done|].
unfold formatDateTime.
assert (dateStr (c :: r) ≠ []) as Hne.
{ unfold dateStr. by destruct (_ && _). }
destruct (dateStr (c :: r)) as [|d t] eqn:Ed; [done|].
change (toLocaleString (dateStr (d :: t)) = toLocaleString (dateStr (c :: r))).
by rewrite E, Ed.
Qed.

Lemma formatDateTime_reads_utc_witness :
  dateStr (js "2024-01-15T10:00:00") = js "2024-01-15T10:00:00Z"
  ∧ formatDateTime (λ s, s) (Some (js "2024-01-15T10:00:00Z"))
    = formatDateTime (λ s, s) (Some (js "2024-01-15T10:00:00")).
Proof.
split; [reflexivity|].
apply (formatDateTime_reads_utc (λ s, s) (js "2024-01-15T10:00:00")). done.
Defined.

End utils.

(** ** The debug console: commands, items and the end of a stream *)

Section console.
Import Debug Console.

Lemma process_data_requests (now : Z) (command eventType : jsstring)
    (data : SseData) (s : state) :
  requests (process_data now command eventType data s).1 = requests s
  ∧ (pendingCommand (process_data now command eventType data s).1 = pendingCommand s
     ∨ pendingCommand (process_data now command eventType data s).1 = Some command).
Proof.
unfold process_data.
destruct (bool_decide (eventType = js "token") || has_type data "token").
{ unfold on_token. repeat case_decide; simpl; auto. }
destruct (has_type data "start"); [auto|].
destruct (has_type data "step").
{ unfold on_step.
  destruct (nonempty _); destruct (truthy _ && _ && _);
    try destruct (truthy (ChatSteps.parseActionToObject _));
    destruct (si_finished _ && _); simpl; auto. }
destruct (has_type data "sensitive"); [simpl; auto|].
destruct (has_type data "takeover"); [simpl; auto|].
destruct (has_type data "done").
{ unfold on_done. destruct (d_paused data).
  - case_decide; simpl; auto.
  - destruct (truthy_str _ && _); simpl; auto. }
destruct (has_type data "error"); simpl; auto.
Qed.

Lemma transition_commands_nonempty (s s' : state) :
  transition s s' → commands_nonempty s → commands_nonempty s'.
Proof.
intros Hstep [Hr Hp]. destruct Hstep as [text s|now s|now s|now s|now s
  |now command eventType data s Hin|s|now message s|s].
- done.
- split.
  + destruct (handleSend_posts_nonempty now s) as [->|(cmd & Hne & _ & ->)];
      [done|].
    apply Forall_app. split; [done|]. by constructor.
  + unfold handleSend.
    destruct (negb (nonempty (trim (input s))) || isExecuting s); [done|].
    simpl. done.
- unfold handleConfirmSensitive. destruct (truthy_str (pendingCommand s)).
  + split; simpl; [|done]. apply Forall_app. split; [done|]. by constructor.
  + done.
- done.
- unfold fire_timer. destruct (timers s) as [|[i c] r]; done.
- destruct (process_data_requests now command eventType data s) as [E1 E2].
  split; [by rewrite E1|].
  intros c Hc. destruct E2 as [E2|E2]; rewrite E2 in Hc.
  + by apply Hp.
  + injection Hc as <-. rewrite list.Forall_forall in Hr. by apply Hr.
- done.
- done.
- done.
Qed.

(** X14.  However the user and the streams take turns, no empty command
    is posted, and a pending command is never the empty string: with a
    command pending, confirming always posts the instruction to
    continue. *)
Theorem commands_are_never_empty (s : state) :
  rtc transition Buffers.initial s →
  Forall (λ c, c ≠ []) (requests s)
  ∧ ∀ c, pendingCommand s = Some c →
         ∀ now, requests (handleConfirmSensitive now s)
                = requests s ++ [continue_command].
Proof.
intros H.
assert (commands_nonempty s) as [Hr Hp].
{ revert s H. apply rtc_ind_r.
  - split; [by constructor|done].
  - intros s1 s2 _ Hstep IH. by apply (transition_commands_nonempty s1). }
split; [done|]. intros c Hc now. unfold handleConfirmSensitive.
rewrite Hc. specialize (Hp c Hc). destruct c; done.
Qed.

Lemma commands_are_never_empty_witness :
  Forall (λ c, c ≠ []) (requests greeted)
  ∧ requests greeted = [js "hi"].
Proof.
split; [|reflexivity].
apply (commands_are_never_empty greeted).
eapply rtc_l; [apply (t_input (js "hi"))|].
eapply rtc_l; [apply (t_send 0)|]. apply rtc_refl.
Defined.

Lemma process_data_items (now : Z) (command eventType : jsstring)
    (data : SseData) (s : state) :
  chatItems s `prefix_of` chatItems (process_data now command eventType data s).1.
Proof.
unfold process_data.
destruct (bool_decide (eventType = js "token") || has_type data "token").
{ unfold on_token. repeat case_decide; simpl; done. }
destruct (has_type data "start"); [done|].
destruct (has_type data "step").
{ unfold on_step.
  destruct (nonempty _); destruct (truthy _ && _ && _);
    try destruct (truthy (ChatSteps.parseActionToObject _));
    destruct (si_finished _ && _); simpl; try done;
    rewrite <-?app_assoc; by apply prefix_app_r. }
destruct (has_type data "sensitive"); [simpl; by apply prefix_app_r|].
destruct (has_type data "takeover"); [simpl; by apply prefix_app_r|].
destruct (has_type data "done").
{ unfold on_done. destruct (d_paused data).
  - case_decide; simpl; done.
  - destruct (truthy_str _ && _); simpl; [by apply prefix_app_r|done]. }
destruct (has_type data "error"); simpl; [by apply prefix_app_r|done].
Qed.

Lemma transition_items_grow (s s' : state) :
  transition s s' → chatItems s `prefix_of` chatItems s'.
Proof.
intros Hstep. destruct Hstep as [text s|now s|now s|now s|now s
  |now command eventType data s Hin|s|now message s|s]; try done.
- unfold handleSend.
  destruct (negb (nonempty (trim (input s))) || isExecuting s); [done|].
  simpl. by apply prefix_app_r.
- unfold handleConfirmSensitive. destruct (truthy_str (pendingCommand s));
    simpl; by apply prefix_app_r.
- simpl. by apply prefix_app_r.
- unfold fire_timer. destruct (timers s) as [|[i c] r]; [done|].
  simpl. by apply prefix_app_r.
- apply process_data_items.
- simpl. by apply prefix_app_r.
Qed.

(** X15.  The conversation is only added to: whatever happens on the
    page, the items shown before are still there, in the same order,
    before the new ones. *)
Theorem chat_items_only_grow (s s' : state) :
  rtc transition s s' → chatItems s `prefix_of` chatItems s'.
Proof.
induction 1 as [|s1 s2 s3 Hstep Hrtc IH]; [done|].
etrans; [by apply transition_items_grow|done].
Qed.

Lemma chat_items_only_grow_witness :
  chatItems greeted `prefix_of` chatItems (stream_failed 1 (js "offline") greeted).
Proof.
apply chat_items_only_grow.
eapply rtc_l; [apply (t_failed 1 (js "offline"))|]. apply rtc_refl.
Defined.

(** X16.  However the body of the response ends, the page is no longer
    executing: the body ends, a [done] or an [error] stops the reading,
    or the request fails. *)
Theorem stream_end_stops_executing (command eventType : jsstring)
    (ls : list (Z * line)) (s : state) :
  isExecuting (read_loop command eventType ls s) = false
  ∧ ∀ now message, isExecuting (stream_failed now message s) = false.
Proof.
split; [|done].
revert eventType s. induction ls as [|[now l] ls IH]; intros eventType s; [done|].
destruct l as [name|data|]; simpl; [apply IH| |apply IH].
destruct (process_data now command eventType data s) as [s' returned] eqn:E.
destruct returned; [|apply IH].
unfold process_data in E.
destruct (bool_decide (eventType = js "token") || has_type data "token");
  [by simplify_eq|].
destruct (has_type data "start"); [by simplify_eq|].
destruct (has_type data "step"); [by simplify_eq|].
destruct (has_type data "sensitive"); [by simplify_eq|].
destruct (has_type data "takeover"); [by simplify_eq|].
destruct (has_type data "done").
{ unfold on_done in E. destruct (d_paused data).
  - case_decide; by simplify_eq.
  - by simplify_eq. }
destruct (has_type data "error"); by simplify_eq.
Qed.

(** X17.  The dialog opens on the [sensitive] event; the command
    becomes pending only on the [done] event that follows.  A confirmation
    given in between finds no pending command: it closes the dialog and
    posts nothing, and the [done] event then leaves the command pending
    with no dialog open to confirm it. *)
Theorem early_confirmation_posts_nothing
    (now1 now2 now3 : Z) (command eventType : jsstring)
    (asked paused : SseData) (s : state) :
  eventType ≠ js "token" →
  d_type asked = Some (js "sensitive") →
  d_type paused = Some (js "done") → d_paused paused = true →
  d_pauseReason paused = Some (js "sensitive") →
  truthy_str (pendingCommand s) = false →
  let s1 := (process_data now1 command eventType asked s).1 in
  let s2 := handleConfirmSensitive now2 s1 in
  let s3 := (process_data now3 command eventType paused s2).1 in
  sensitiveAction s1 ≠ None
  ∧ requests s3 = requests s
  ∧ isExecuting s2 = isExecuting s
  ∧ sensitiveAction s3 = None
  ∧ pendingCommand s3 = Some command
  ∧ isExecuting s3 = false.
Proof.
intros Het Ha Hd Hp Hr Hs s1 s2 s3.
assert (s1 = push_item (item now1 sensitive (default [] (d_message asked)) now1 None None)
               (set_sensitiveAction
                  (Some {| sa_message := default [] (d_message asked);
                           sa_step := d_step asked; sa_action := d_action asked |}) s))
  as E1.
{ unfold s1, process_data, has_type. rewrite Ha.
  rewrite (bool_decide_eq_false_2 (eventType = js "token")) by done.
  done. }
assert (s2 = push_item (item now2 result (js "已确认操作，继续执行...") now2 None None)
               (set_sensitiveAction None s1)) as E2.
{ unfold s2, handleConfirmSensitive. rewrite E1 at 1. simpl. by rewrite Hs. }
assert (s3 = set_pendingCommand (Some command)
               (set_isExecuting false (set_streaming [] [] 0 s2))) as E3.
{ unfold s3, process_data, has_type. rewrite Hd.
  rewrite (bool_decide_eq_false_2 (eventType = js "token")) by done.
  simpl. unfold on_done. rewrite Hp, Hr. by rewrite decide_True by done. }
rewrite E3, E2, E1. simpl. done.
Qed.

Lemma early_confirmation_posts_nothing_witness :
  requests
    (process_data 3 (js "hi") [] (Buffers.a_done true (Some (js "sensitive")))
       (handleConfirmSensitive 2 (process_data 1 (js "hi") [] asking greeted).1)).1
  = [js "hi"]
  ∧ pendingCommand
      (process_data 3 (js "hi") [] (Buffers.a_done true (Some (js "sensitive")))
         (handleConfirmSensitive 2 (process_data 1 (js "hi") [] asking greeted).1)).1
    = Some (js "hi").
Proof.
destruct (early_confirmation_posts_nothing 1 2 3 (js "hi") [] asking
            (Buffers.a_done true (Some (js "sensitive"))) greeted)
  as (_ & H1 & _ & _ & H2 & _); try done.
Defined.

(** X18.  The items of one [step] event and the result it schedules get
    the ids [now + 100 * step], [now + 100 * step + 1] and [now + 2000],
    from one clock reading [now]: they are distinct except at step 20,
    where the thinking item and the result share their id. *)
Theorem step_ids_collide_at_twenty (now shown : Z) (data : SseData) (s : state) :
  nonempty (d_thinking data) = true →
  truthy (d_action data) = true →
  d_takeover data = false → d_sensitive data = false →
  truthy (ChatSteps.parseActionToObject (d_action data)) = true →
  d_finished data = true → truthy_str (d_message data) = true →
  timers s = [] →
  ∃ items,
    chatItems (fire_timer shown (on_step now data s)) = chatItems s ++ items
    ∧ type <$> items = [thinking; action; result]
    ∧ id <$> items = [now + d_step data * 100; now + d_step data * 100 + 1;
                      now + 2000]%Z
    ∧ (NoDup (id <$> items) ↔ d_step data ≠ 20%Z).
Proof.
intros Hth Ha Ht Hs Hp Hf Hm Htm.
unfold on_step, stepInfo_of. cbn [si_thinking si_action si_step si_finished si_message].
rewrite Hth, Ha, Ht, Hs, Hp, Hf, Hm. cbn [negb andb].
unfold fire_timer. cbn [timers push_item set_streaming]. rewrite Htm.
cbn [app chatItems push_item]. rewrite <-!app_assoc.
eexists. split; [reflexivity|]. cbn [fmap list_fmap type id item app].
split; [done|]. split; [done|].
split.
- intros [Hn _]%list.NoDup_cons E. apply Hn. rewrite E.
  replace (now + 20 * 100)%Z with (now + 2000)%Z by lia.
  apply list_elem_of_further, list_elem_of_here.
- intros H. apply list.NoDup_cons. split.
  { intros [E|[E|E%elem_of_nil]%elem_of_cons]%elem_of_cons; [lia|lia|done]. }
  apply list.NoDup_cons. split.
  { intros [E|E%elem_of_nil]%elem_of_cons; [lia|done]. }
  apply NoDup_singleton.
Qed.

Lemma step_ids_collide_at_twenty_witness :
  ∃ items,
    chatItems (fire_timer 7 (on_step 5 (last_step 20) greeted))
    = chatItems greeted ++ items
    ∧ id <$> items = [2005; 2006; 2005]%Z.
Proof.
destruct (step_ids_collide_at_twenty 5 7 (last_step 20) greeted)
  as (items & H1 & _ & H2 & _); try done.
exists items. split; [exact H1|exact H2].
Defined.

End console.

(** ** The reading loop: lines and chunks *)

Section framing.
Import Debug.

Lemma split_lines_nonempty (s : jsstring) : split_lines s ≠ [].
Proof.
destruct s as [|c r]; [done|]. simpl. destruct (c =? 10); [done|].
by destruct (split_lines r).
Qed.

Lemma split_lines_line (b : jsstring) : 10 ∉ b → split_lines b = [b].
Proof.
induction b as [|c r IH]; [done|]. intros [Hc Hr]%not_elem_of_cons.
simpl. rewrite (proj2 (N.eqb_neq c 10)) by done. by rewrite IH.
Qed.

Lemma split_lines_no_newline (s : jsstring) :
  Forall (λ l, 10 ∉ l) (split_lines s).
Proof.
induction s as [|c r IH]; simpl.
- constructor; [|done]. by intros H%elem_of_nil.
- destruct (N.eqb_spec c 10) as [->|Hc].
  + constructor; [|done]. by intros H%elem_of_nil.
  + destruct (split_lines r) as [|l ls]; inversion IH; subst.
    * constructor; [|done]. by intros ?%list_elem_of_singleton.
    * constructor; [|done]. by intros [?|?]%elem_of_cons.
Qed.

Lemma removelast_more {A} (x : A) (l : list A) :
  l ≠ [] → removelast (x :: l) = x :: removelast l.
Proof. by destruct l. Qed.

Lemma last_more {A} (x d : A) (l : list A) :
  l ≠ [] → List.last (x :: l) d = List.last l d.
Proof. by destruct l. Qed.

Lemma last_app_more {A} (d : A) (l k : list A) :
  k ≠ [] → List.last (l ++ k) d = List.last k d.
Proof.
intros Hk. induction l as [|x l IH]; [done|].
simpl app. rewrite last_more; [done|]. by destruct l, k.
Qed.

(** Splitting a text that is given in two parts: the last line of the
    first part is completed by the second part. *)
Lemma split_lines_app (a b : jsstring) :
  split_lines (a ++ b)
  = removelast (split_lines a) ++ split_lines (List.last (split_lines a) [] ++ b).
Proof.
induction a as [|c r IH]; [done|].
pose proof (split_lines_nonempty r) as Hr.
simpl app. simpl split_lines at 1 2 4. destruct (c =? 10) eqn:Ec.
- rewrite removelast_more, last_more by done. simpl. by rewrite IH.
- rewrite IH. destruct (split_lines r) as [|x [|y ys]]; [done| |].
  + simpl. by rewrite Ec.
  + by rewrite removelast_more, last_more.
Qed.

Lemma read_chunks_from (chunks : list jsstring) (lines : list jsstring)
    (buffer : jsstring) :
  10 ∉ buffer →
  foldl (λ acc chunk, let '(lines, buffer) := read_chunk acc.2 chunk in
                      (acc.1 ++ lines, buffer))
    (lines, buffer) chunks
  = (lines ++ removelast (split_lines (buffer ++ concat chunks)),
     List.last (split_lines (buffer ++ concat chunks)) []).
Proof.
revert lines buffer. induction chunks as [|ch chunks IH]; intros lines buffer Hb.
- simpl. rewrite !app_nil_r, split_lines_line by done. simpl.
  by rewrite app_nil_r.
- cbn [foldl]. unfold read_chunk at 2. cbn [fst snd]. cbv zeta.
  pose proof (split_lines_no_newline (buffer ++ ch)) as Hall.
  pose proof (split_lines_nonempty (buffer ++ ch)) as Hne.
  rewrite IH.
  + simpl concat. rewrite (app_assoc buffer ch), (split_lines_app (buffer ++ ch)).
    pose proof (split_lines_nonempty
                  (List.last (split_lines (buffer ++ ch)) [] ++ concat chunks)) as Hne'.
    rewrite removelast_app by done. rewrite last_app_more by done.
    by rewrite <-app_assoc.
  + rewrite list.Forall_forall in Hall. apply Hall.
    rewrite (app_removelast_last [] Hne) at 2.
    apply elem_of_app. right. apply list_elem_of_here.
Qed.

(** X19.  How the body is cut into chunks does not matter: the lines
    handed to the loop body are those of the whole text up to its last
    line feed, in order.  What follows the last line feed stays in the
    buffer, and it is not handled when the body ends. *)
Theorem chunking_is_invisible (chunks : list jsstring) :
  read_chunks chunks = read_chunks [concat chunks]
  ∧ (read_chunks chunks).1 ++ [(read_chunks chunks).2]
    = split_lines (concat chunks).
Proof.
unfold read_chunks. rewrite !read_chunks_from by (by intros ?%elem_of_nil).
simpl. rewrite app_nil_r. split; [done|].
symmetry. apply app_removelast_last, split_lines_nonempty.
Qed.

End framing.

(** ** [handleVideoData]: the packets handed to the decoder *)

Section video_stream.
Import VideoStream Packets.

Lemma handle_configured (s : state) (e : event) :
  configured s → configured (handle s e).
Proof.
destruct s as [sent pend wr aw]. unfold configured. simpl.
intros H. destruct e as [d|]; simpl.
- unfold handleVideoData. simpl. repeat case_decide; simpl; [| |done].
  + destruct sent.
    * destruct H as (p & r & -> & Hp). by eexists _, _.
    * destruct H as [-> _]. by eexists _, _.
  + destruct sent; simpl; [|done].
    destruct H as (p & r & -> & Hp). by eexists _, _.
- destruct aw as [|k w]; simpl; [done|].
  destruct sent; [|by destruct H].
  destruct k as [|i]; simpl; [done|].
  destruct (pend !! i); simpl; [|done].
  destruct H as (p & r & -> & Hp). by eexists _, _.
Qed.

Lemma run_configured (es : list event) (s : state) :
  configured s → configured (run s es).
Proof.
revert s. induction es as [|e es IH]; intros s H; [done|].
apply IH, handle_configured, H.
Qed.

(** X20.  Whatever arrives and whenever the writes complete, the first
    chunk handed to the decoder is a configuration packet: no data packet
    is written before one. *)
Theorem configuration_is_written_first (es : list event) :
  match written (run initial es) with
  | [] => True
  | p :: _ => vp_type p = js "configuration"
  end.
Proof.
pose proof (run_configured es initial) as H. unfold configured in H.
destruct (configurationPacketSent (run initial es)).
- destruct H as (p & r & -> & Hp); done.
- destruct H as [-> _]; done.
Qed.

Lemma handleVideoData_data (d : VideoPacket) (s : state) :
  is_data d →
  handleVideoData d s
  = if negb (configurationPacketSent s) then
      {| configurationPacketSent := configurationPacketSent s;
         pendingDataPackets := pendingDataPackets s ++ [d];
         written := written s; awaiting := awaiting s |}
    else write (packet_of d) Return s.
Proof.
intros Hd. unfold handleVideoData. rewrite Hd.
rewrite decide_False by done. by rewrite decide_True by done.
Qed.

Lemma handleVideoData_configuration (c : VideoPacket) (s : state) :
  is_configuration c →
  handleVideoData c s
  = {| configurationPacketSent := true;
       pendingDataPackets := pendingDataPackets s;
       written := written s ++ [packet_of c];
       awaiting := awaiting s ++ [Flush 0] |}.
Proof.
intros Hc. unfold handleVideoData. rewrite Hc. by rewrite decide_True by done.
Qed.

(** Until a configuration packet arrives nothing is written: the data
    packets are kept, in the order of their arrival. *)
Lemma data_is_kept (ds : list VideoPacket) (s : state) :
  Forall is_data ds → configurationPacketSent s = false →
  run s (VideoData <$> ds)
  = {| configurationPacketSent := false;
       pendingDataPackets := pendingDataPackets s ++ ds;
       written := written s; awaiting := awaiting s |}.
Proof.
intros H. revert s. induction H as [|d ds Hd Hds IH]; intros s Hs.
- destruct s. simpl in *. by rewrite Hs, app_nil_r.
- cbn [fmap list_fmap run foldl handle]. rewrite handleVideoData_data by done.
  rewrite Hs. cbn [negb]. unfold run in IH. rewrite IH by done.
  simpl. by rewrite <-app_assoc.
Qed.

(** Once the configuration is sent, data packets are written as they
    arrive. *)
Lemma data_is_written (ds : list VideoPacket) (s : state) :
  Forall is_data ds → configurationPacketSent s = true →
  run s (VideoData <$> ds)
  = {| configurationPacketSent := true;
       pendingDataPackets := pendingDataPackets s;
       written := written s ++ (packet_of <$> ds);
       awaiting := awaiting s ++ replicate (length ds) Return |}.
Proof.
intros H. revert s. induction H as [|d ds Hd Hds IH]; intros s Hs.
- destruct s. simpl in *. by rewrite Hs, !app_nil_r.
- cbn [fmap list_fmap run foldl handle]. rewrite handleVideoData_data by done.
  rewrite Hs. cbn [negb]. unfold run in IH. rewrite IH by done.
  simpl. by rewrite <-!app_assoc.
Qed.

(** The loop over the pending packets, run to its end while nothing else
    arrives: the packets from its index on are written in order and the
    list is emptied. *)
Lemma flush_completes (n : nat) :
  ∀ (k m i : nat) (P W : list VideoPacket),
    (length P - i = n)%nat → (i ≤ length P)%nat →
    run {| configurationPacketSent := true; pendingDataPackets := P;
           written := W;
           awaiting := replicate k Return ++ Flush i :: replicate m Return |}
        (replicate (k + m + S n) WriteDone)
    = {| configurationPacketSent := true; pendingDataPackets := [];
         written := W ++ (packet_of <$> drop i P); awaiting := [] |}.
Proof.
assert (∀ (k : nat) s es,
          run {| configurationPacketSent := configurationPacketSent s;
                 pendingDataPackets := pendingDataPackets s;
                 written := written s;
                 awaiting := replicate k Return ++ awaiting s |}
              (replicate k WriteDone ++ es)
          = run s es) as Hpop.
{ induction k as [|k IH]; intros s es; [by destruct s|]. simpl. apply IH. }
induction n as [|n IH]; intros k m i P W Hn Hi.
- replace (k + m + 1)%nat with (k + (1 + m))%nat by lia.
  rewrite replicate_add.
  rewrite (Hpop k {| configurationPacketSent := true; pendingDataPackets := P;
                     written := W; awaiting := Flush i :: replicate m Return |}).
  simpl. rewrite lookup_ge_None_2 by lia.
  rewrite drop_ge by lia. simpl. rewrite app_nil_r.
  pose proof (Hpop m {| configurationPacketSent := true; pendingDataPackets := [];
                        written := W; awaiting := [] |} []) as E.
  simpl in E. by rewrite !app_nil_r in E.
- replace (k + m + S (S n))%nat with (k + (1 + (m + 0 + S n)))%nat by lia.
  rewrite replicate_add.
  rewrite (Hpop k {| configurationPacketSent := true; pendingDataPackets := P;
                     written := W; awaiting := Flush i :: replicate m Return |}).
  simpl. destruct (P !! i) as [p|] eqn:E.
  + unfold write. simpl.
    pose proof (IH m 0%nat (S i) P (W ++ [packet_of p])) as IH'.
    simpl in IH'. rewrite IH' by lia.
    rewrite (drop_S _ _ _ E). simpl. by rewrite <-app_assoc.
  + apply lookup_ge_None_1 in E. lia.
Qed.

(** X21.  Data packets that arrive before the configuration are kept
    and written after it in the order of their arrival, when the loop
    that writes them runs to its end before the next packet arrives; the
    packets that arrive then follow. *)
Theorem pending_packets_keep_their_order (ds es : list VideoPacket) (c : VideoPacket) :
  Forall is_data ds → is_configuration c → Forall is_data es →
  let s := run initial ((VideoData <$> ds) ++ [VideoData c]
                        ++ replicate (S (length ds)) WriteDone
                        ++ (VideoData <$> es)) in
  written s = packet_of <$> (c :: ds ++ es)
  ∧ pendingDataPackets s = [].
Proof.
intros Hds Hc Hes s. subst s. unfold run. rewrite !foldl_app.
fold (run initial (VideoData <$> ds)). rewrite (data_is_kept ds initial Hds eq_refl).
cbn [foldl handle]. rewrite handleVideoData_configuration by done. simpl.
pose proof (flush_completes (length ds) 0 0 0 ds [packet_of c]) as E.
simpl in E. unfold run in E. rewrite E by lia.
fold (run {| configurationPacketSent := true; pendingDataPackets := [];
             written := [packet_of c] ++ (packet_of <$> ds); awaiting := [] |}
          (VideoData <$> es)).
rewrite data_is_written by done. simpl. by rewrite fmap_app.
Qed.

Lemma pending_packets_keep_their_order_witness :
  written (run initial ((VideoData <$> [frame 1; frame 2]) ++ [VideoData configuration]
                        ++ replicate 3 WriteDone ++ (VideoData <$> [frame 3])))
  = packet_of <$> [configuration; frame 1; frame 2; frame 3].
Proof.
apply (pending_packets_keep_their_order [frame 1; frame 2] [frame 3] configuration);
  by repeat constructor.
Defined.

(** X22.  Data packets that arrive while the write of the
    configuration is still awaited are written at once, ahead of the
    packets that were waiting for the configuration: the order of arrival
    is not kept then. *)
Theorem late_packets_overtake_pending (ds late : list VideoPacket) (c : VideoPacket) :
  Forall is_data ds → is_configuration c → Forall is_data late →
  let s := run initial ((VideoData <$> ds) ++ [VideoData c]
                        ++ (VideoData <$> late)
                        ++ replicate (length late + S (length ds)) WriteDone) in
  written s = packet_of <$> (c :: late ++ ds)
  ∧ pendingDataPackets s = [] ∧ awaiting s = [].
Proof.
intros Hds Hc Hl s. subst s. unfold run. rewrite !foldl_app.
fold (run initial (VideoData <$> ds)). rewrite (data_is_kept ds initial Hds eq_refl).
cbn [foldl handle]. rewrite handleVideoData_configuration by done. simpl.
fold (run {| configurationPacketSent := true; pendingDataPackets := ds;
             written := [packet_of c]; awaiting := [Flush 0] |}
          (VideoData <$> late)).
rewrite data_is_written by done. simpl.
pose proof (flush_completes (length ds) 0 (length late) 0 ds
              (packet_of c :: (packet_of <$> late))) as E.
simpl in E. unfold run in E. rewrite E by lia.
simpl. by rewrite fmap_app.
Qed.

Lemma late_packets_overtake_pending_witness :
  written (run initial ((VideoData <$> [frame 1; frame 2]) ++ [VideoData configuration]
                        ++ (VideoData <$> [frame 3])
                        ++ replicate 4 WriteDone))
  = packet_of <$> [configuration; frame 3; frame 1; frame 2].
Proof.
apply (late_packets_overtake_pending [frame 1; frame 2] [frame 3] configuration);
  by repeat constructor.
Defined.

Lemma handle_accounted (A : list VideoPacket) (s : state) (e : event) :
  accounted A s → accounted (A ++ arrived [e]) (handle s e).
Proof.
destruct s as [sent pend wr aw]. intros (Ha & Hb & Hc & Hd). simpl in *.
destruct e as [d|]; simpl.
- unfold handleVideoData. simpl. case_decide as Ec; [|case_decide as Ed].
  + unfold accounted. simpl. split_and!.
    * intros x [Hx| ->%list_elem_of_singleton]%elem_of_app Ht.
      -- destruct (Ha x Hx Ht) as [H|H]; [left|by right].
         apply elem_of_app. by left.
      -- left. apply elem_of_app. right. apply list_elem_of_here.
    * intros i j p [Hi|Hi%list_elem_of_singleton]%elem_of_app Hj Hp.
      -- apply elem_of_app. left. by apply (Hb i j p).
      -- injection Hi as ->. lia.
    * intros _. right. exists 0%nat. apply elem_of_app. right.
      apply list_elem_of_here.
    * done.
  + destruct sent; unfold accounted; simpl; split_and!.
    * intros x [Hx| ->%list_elem_of_singleton]%elem_of_app Ht.
      -- destruct (Ha x Hx Ht) as [H|H]; [left|by right].
         apply elem_of_app. by left.
      -- left. apply elem_of_app. right. apply list_elem_of_here.
    * intros i j p [Hi|Hi%list_elem_of_singleton]%elem_of_app Hj Hp; [|done].
      apply elem_of_app. left. by apply (Hb i j p).
    * intros _. destruct (Hc eq_refl) as [H|[i Hi]]; [by left|right].
      exists i. apply elem_of_app. by left.
    * done.
    * intros x [Hx| ->%list_elem_of_singleton]%elem_of_app Ht.
      -- destruct (Ha x Hx Ht) as [H|H]; [by left|right].
         apply elem_of_app. by left.
      -- right. apply elem_of_app. right. apply list_elem_of_here.
    * intros i j p Hi. rewrite (Hd eq_refl) in Hi. by apply elem_of_nil in Hi.
    * done.
    * done.
  + unfold accounted. simpl. split_and!; [|done|done|done].
    intros x [Hx| ->%list_elem_of_singleton]%elem_of_app Ht; [by apply Ha|].
    by destruct Ht.
- change (arrived [WriteDone]) with (@nil VideoPacket).
  rewrite app_nil_r. destruct aw as [|k w]; [done|]. simpl.
  destruct k as [|i]; simpl.
  + unfold accounted. simpl. split_and!.
    * done.
    * intros i j p Hi. apply (Hb i j p). by apply list_elem_of_further.
    * intros Hs. destruct (Hc Hs) as [H|[i Hi]]; [by left|right].
      exists i. by apply elem_of_cons in Hi as [Hi|Hi].
    * intros Hs. by specialize (Hd Hs).
  + destruct (pend !! i) as [p|] eqn:E; unfold accounted; simpl; split_and!.
    * intros x Hx Ht. destruct (Ha x Hx Ht) as [H|H]; [left|by right].
      apply elem_of_app. by left.
    * intros i' j q [Hi|Hi%list_elem_of_singleton]%elem_of_app Hj Hq.
      -- apply elem_of_app. left. apply (Hb i' j q); [|done|done].
         by apply list_elem_of_further.
      -- injection Hi as ->. apply elem_of_app.
         destruct (decide (j = i)) as [->|Hne].
         ++ right. rewrite E in Hq. injection Hq as ->. apply list_elem_of_here.
         ++ left. apply (Hb i j q); [apply list_elem_of_here|lia|done].
    * intros _. right. exists (S i). apply elem_of_app. right.
      apply list_elem_of_here.
    * intros Hs. by specialize (Hd Hs).
    * intros x Hx Ht. destruct (Ha x Hx Ht) as [H|H]; [by left|left].
      apply list_elem_of_lookup in H as [j Hj].
      apply (Hb i j x); [apply list_elem_of_here| |done].
      apply lookup_ge_None_1 in E. apply lookup_lt_Some in Hj. lia.
    * intros i' j q _ _ Hq. done.
    * by left.
    * intros Hs. by specialize (Hd Hs).
Qed.

Lemma run_accounted (es : list event) (A : list VideoPacket) (s : state) :
  accounted A s → accounted (A ++ arrived es) (run s es).
Proof.
revert A s. induction es as [|e es IH]; intros A s H.
- by rewrite app_nil_r.
- replace (A ++ arrived (e :: es)) with ((A ++ arrived [e]) ++ arrived es).
  + apply IH, handle_accounted, H.
  + rewrite <-app_assoc. f_equal. unfold arrived. simpl.
    by destruct e.
Qed.



End video_stream.

(** ** The player and the viewer: data seen, disconnecting, unmounting *)

Section live_screen_more.
Import Watchdog.

Section watchdog_more.
Variable fallbackTimeout : Z.

Lemma handle_keeps_data (p : ScrcpyPlayer.state) (e : ScrcpyPlayer.event) :
  ScrcpyPlayer.hasReceivedData p = true →
  ScrcpyPlayer.hasReceivedData (ScrcpyPlayer.handle fallbackTimeout p e).1 = true.
Proof.
intros H. destruct e as [|h|[|]| |m|m|]; simpl;
  try (destruct (ScrcpyPlayer.socket_open p); done).
- unfold ScrcpyPlayer.on_fallback_timer.
  destruct (Timers.is_armed h _); [|done]. by rewrite H.
- destruct (ScrcpyPlayer.socket_open p); [|done]. simpl.
  by destruct (ScrcpyPlayer.handlers p).
Qed.

(** What calls [onFallback]. *)
Lemma handle_signal (p : ScrcpyPlayer.state) (e : ScrcpyPlayer.event) :
  (ScrcpyPlayer.handle fallbackTimeout p e).2 = true →
  e = ScrcpyPlayer.VideoMetadata false
  ∨ (∃ m, e = ScrcpyPlayer.ConnectError m)
  ∨ ∃ h, e = ScrcpyPlayer.FallbackTimer h
         ∧ ScrcpyPlayer.hasReceivedData p = false.
Proof.
destruct e as [|h|[|]| |m|m|]; simpl; eauto;
  try (destruct (ScrcpyPlayer.socket_open p); done).
- unfold ScrcpyPlayer.on_fallback_timer.
  destruct (Timers.is_armed h _); [|done].
  destruct (ScrcpyPlayer.hasReceivedData p); [done|]. eauto.
- destruct (ScrcpyPlayer.socket_open p); [|done]. simpl.
  by destruct (ScrcpyPlayer.handlers p).
Qed.

(** X24.  After video data has been handled, the page is told to fall
    back only by a decoder that fails to start or by a connection error:
    never by the timer, whichever timer fires. *)
Theorem video_data_silences_watchdog
    (es : list ScrcpyPlayer.event) (p : ScrcpyPlayer.state) :
  ScrcpyPlayer.hasReceivedData p = true →
  ScrcpyPlayer.VideoMetadata false ∉ es →
  (∀ m, ScrcpyPlayer.ConnectError m ∉ es) →
  (run fallbackTimeout (false, p) es).1 = false.
Proof.
revert p. induction es as [|e es IH]; intros p Hd Hm Hc; [done|].
apply not_elem_of_cons in Hm as [Hm1 Hm2].
assert (∀ m, ScrcpyPlayer.ConnectError m ∉ es) as Hc2.
{ intros m H. apply (Hc m). by apply list_elem_of_further. }
assert (∀ m, e ≠ ScrcpyPlayer.ConnectError m) as Hc1.
{ intros m ->. apply (Hc m). apply list_elem_of_here. }
pose proof (handle_keeps_data p e Hd) as Hd'.
unfold run in *. simpl. unfold LiveScreen.step at 2. simpl.
destruct (ScrcpyPlayer.handle fallbackTimeout p e) as [p' c] eqn:E.
simpl in Hd'.
assert (c = false) as ->.
{ destruct c; [|done].
  destruct (handle_signal p e) as [->|[[m ->]|(h & -> & H)]]; try done.
  - by rewrite E.
  - by destruct (Hc1 m).
  - congruence. }
simpl. by apply IH.
Qed.

(** Video data that arrives before the decoder is set up has no
    listener: it does not stop the timer. *)
Lemma watchdog_waits_unheard (h : nat) (e : ScrcpyPlayer.event) (p : ScrcpyPlayer.state) :
  e ≠ ScrcpyPlayer.VideoMetadata true → e ≠ ScrcpyPlayer.FallbackTimer h →
  ScrcpyPlayer.handlers p = 0%nat →
  ScrcpyPlayer.hasReceivedData p = false →
  Timers.is_armed h (ScrcpyPlayer.timers p) = true →
  ScrcpyPlayer.handlers (ScrcpyPlayer.handle fallbackTimeout p e).1 = 0%nat
  ∧ ScrcpyPlayer.hasReceivedData (ScrcpyPlayer.handle fallbackTimeout p e).1 = false
  ∧ Timers.is_armed h
      (ScrcpyPlayer.timers (ScrcpyPlayer.handle fallbackTimeout p e).1) = true.
Proof.
intros Hm Ht Hh Hd Ha.
assert (e = ScrcpyPlayer.VideoData ∨ e ≠ ScrcpyPlayer.VideoData) as [->|Hv].
{ destruct e; (by left) || by right. }
- simpl. destruct (ScrcpyPlayer.socket_open p); simpl; [|done]. by rewrite Hh.
- destruct (watchdog_waits fallbackTimeout h e p) as [H1 H2]; try done.
  split; [|done].
  destruct e as [|h'|[|]| |m|m|]; simpl; try done;
    try (destruct (ScrcpyPlayer.socket_open p); done).
  unfold ScrcpyPlayer.on_fallback_timer.
  destruct (Timers.is_armed h' _); [|done]. by rewrite Hd.
Qed.

Lemma watchdog_fires_unheard (h : nat) (es : list ScrcpyPlayer.event)
    (u : bool) (p : ScrcpyPlayer.state) :
  ScrcpyPlayer.VideoMetadata true ∉ es → ScrcpyPlayer.FallbackTimer h ∉ es →
  ScrcpyPlayer.handlers p = 0%nat →
  ScrcpyPlayer.hasReceivedData p = false →
  Timers.is_armed h (ScrcpyPlayer.timers p) = true →
  (run fallbackTimeout (u, p) (es ++ [ScrcpyPlayer.FallbackTimer h])).1 = true
  ∧ ScrcpyPlayer.hasReceivedData
      (run fallbackTimeout (u, p) (es ++ [ScrcpyPlayer.FallbackTimer h])).2 = false.
Proof.
revert u p. induction es as [|e es IH]; intros u p Hm Ht Hh Hd Ha.
- unfold run. simpl. unfold LiveScreen.step. simpl.
  unfold ScrcpyPlayer.on_fallback_timer. by rewrite Ha, Hd.
- apply not_elem_of_cons in Hm as [Hm1 Hm2].
  apply not_elem_of_cons in Ht as [Ht1 Ht2].
  destruct (watchdog_waits_unheard h e p) as (Hh' & Hd' & Ha'); try done.
  unfold run in *. simpl. unfold LiveScreen.step at 2 4. simpl.
  destruct (ScrcpyPlayer.handle fallbackTimeout p e) as [p' c]. simpl in *.
  by apply IH.
Qed.

(** X25.  Video data that arrives before the decoder is set up has no
    listener and is not seen: when the timer then fires, the page is told
    to fall back although data did arrive. *)
Theorem early_video_data_is_not_seen (es : list ScrcpyPlayer.event) :
  ScrcpyPlayer.VideoMetadata true ∉ es →
  ScrcpyPlayer.FallbackTimer 1 ∉ es →
  let live := ScrcpyPlayer.SocketConnect :: es ++ [ScrcpyPlayer.FallbackTimer 1] in
  (run fallbackTimeout (false, ScrcpyPlayer.connect) live).1 = true
  ∧ ScrcpyPlayer.hasReceivedData
      (run fallbackTimeout (false, ScrcpyPlayer.connect) live).2 = false.
Proof.
intros Hm Ht live.
set (p1 := (ScrcpyPlayer.handle fallbackTimeout ScrcpyPlayer.connect
              ScrcpyPlayer.SocketConnect).1).
change (run fallbackTimeout (false, ScrcpyPlayer.connect) live)
  with (run fallbackTimeout (false, p1) (es ++ [ScrcpyPlayer.FallbackTimer 1])).
by apply watchdog_fires_unheard.
Qed.

Lemma is_armed_cleared (h h' : nat) (t : Timers.table) :
  Timers.is_armed h (Timers.clearTimeout h' t) = true →
  h ≠ h' ∧ Timers.is_armed h t = true.
Proof.
unfold Timers.is_armed, Timers.clearTimeout. simpl.
rewrite !bool_decide_eq_true, !list_elem_of_fmap.
intros ([a b] & -> & [Hne Hin]%list_elem_of_filter). split; [done|].
by exists (a, b).
Qed.

Lemma handle_tracked (p : ScrcpyPlayer.state) (e : ScrcpyPlayer.event) :
  e ≠ ScrcpyPlayer.SocketConnect → tracked p →
  tracked (ScrcpyPlayer.handle fallbackTimeout p e).1.
Proof.
intros He Hp. unfold tracked in *.
destruct e as [|h'|[|]| |m|m|]; simpl; try done;
  try (destruct (ScrcpyPlayer.socket_open p); done).
- unfold ScrcpyPlayer.on_fallback_timer.
  destruct (Timers.is_armed h' _); [|done].
  destruct (ScrcpyPlayer.hasReceivedData p); simpl;
    intros h [_ H]%is_armed_cleared; by apply Hp.
- destruct (ScrcpyPlayer.socket_open p); [|done]. simpl.
  destruct (ScrcpyPlayer.handlers p); [done|]. simpl.
  destruct (ScrcpyPlayer.fallbackTimer p) as [h0|] eqn:E.
  + intros h [Hne H]%is_armed_cleared. apply Hp in H. congruence.
  + intros h H. apply Hp in H. congruence.
Qed.

Lemma run_tracked (es : list ScrcpyPlayer.event) (u : bool) (p : ScrcpyPlayer.state) :
  connects es = 0%nat → tracked p → tracked (run fallbackTimeout (u, p) es).2.
Proof.
revert u p. induction es as [|e es IH]; intros u p Hn Hp; [done|].
assert (e ≠ ScrcpyPlayer.SocketConnect) as He by (by intros ->).
assert (connects es = 0%nat) as Hn' by (by destruct e).
unfold run. simpl. unfold LiveScreen.step at 2. cbn [fst snd].
pose proof (handle_tracked p e He Hp) as Hp'.
destruct (ScrcpyPlayer.handle fallbackTimeout p e) as [p' c]. by apply IH.
Qed.

Lemma run_tracked_once (es : list ScrcpyPlayer.event) (u : bool) (p : ScrcpyPlayer.state) :
  (connects es ≤ 1)%nat → Timers.armed (ScrcpyPlayer.timers p) = [] →
  tracked (run fallbackTimeout (u, p) es).2.
Proof.
revert u p. induction es as [|e es IH]; intros u p Hn Hp.
- intros h. simpl. unfold Timers.is_armed. rewrite Hp. done.
- assert (e = ScrcpyPlayer.SocketConnect
          ∨ (e ≠ ScrcpyPlayer.SocketConnect ∧ (connects es ≤ 1)%nat)) as [->|[He Hn']].
  { destruct e; (by left) || by right. }
  + simpl in Hn. unfold run. simpl. unfold LiveScreen.step at 2. simpl.
    destruct (ScrcpyPlayer.socket_open p); simpl.
    * apply run_tracked; [lia|].
      intros h. unfold Timers.is_armed. simpl. rewrite Hp. simpl.
      rewrite bool_decide_eq_true. by intros ->%list_elem_of_singleton.
    * apply IH; [lia|done].
  + unfold run. simpl. unfold LiveScreen.step at 2. cbn [fst snd].
    assert (Timers.armed (ScrcpyPlayer.timers
                            (ScrcpyPlayer.handle fallbackTimeout p e).1) = []) as Hp'.
    { destruct e as [|h'|[|]| |m|m|]; simpl; try done;
        try (destruct (ScrcpyPlayer.socket_open p); done).
      - unfold ScrcpyPlayer.on_fallback_timer, Timers.is_armed. by rewrite Hp.
      - destruct (ScrcpyPlayer.socket_open p); [|done]. simpl.
        destruct (ScrcpyPlayer.handlers p); [done|]. simpl.
        destruct (ScrcpyPlayer.fallbackTimer p); [|done].
        unfold Timers.clearTimeout. simpl. by rewrite Hp. }
    destruct (ScrcpyPlayer.handle fallbackTimeout p e) as [p' c]. by apply IH.
Qed.

Lemma disconnect_silent (p : ScrcpyPlayer.state) (es : list ScrcpyPlayer.event) :
  tracked p →
  run fallbackTimeout (false, ScrcpyPlayer.disconnect p) es = (false, ScrcpyPlayer.disconnect p).
Proof.
intros Hp. induction es as [|e es IH]; [done|].
unfold run in *. simpl. unfold LiveScreen.step at 2. cbn [fst snd].
assert (ScrcpyPlayer.handle fallbackTimeout (ScrcpyPlayer.disconnect p) e = (ScrcpyPlayer.disconnect p, false))
  as ->; [|done].
destruct e as [|h|[|]| |m|m|]; try done.
simpl. unfold ScrcpyPlayer.on_fallback_timer.
destruct (Timers.is_armed h _) eqn:E; [|done]. exfalso.
simpl in E. destruct (ScrcpyPlayer.fallbackTimer p) as [h0|] eqn:E0.
- apply is_armed_cleared in E as [Hne E]. apply Hp in E. congruence.
- apply Hp in E. congruence.
Qed.

(** X26.  A player whose socket connected at most once is silent after
    [disconnect]: no timer is left armed, and whatever happens next
    changes nothing and does not tell the page to fall back. *)
Theorem disconnect_stops_watchdog (es after : list ScrcpyPlayer.event) :
  (connects es ≤ 1)%nat →
  let p := (run fallbackTimeout (false, ScrcpyPlayer.connect) es).2 in
  Timers.armed (ScrcpyPlayer.timers (ScrcpyPlayer.disconnect p)) = []
  ∧ run fallbackTimeout (false, ScrcpyPlayer.disconnect p) after = (false, ScrcpyPlayer.disconnect p).
Proof.
intros Hn p.
assert (tracked p) as Hp by by apply run_tracked_once.
split; [|by apply disconnect_silent].
destruct (Timers.armed (ScrcpyPlayer.timers (ScrcpyPlayer.disconnect p))) as [|[h d] l] eqn:E;
  [done|exfalso].
assert (Timers.is_armed h (ScrcpyPlayer.timers (ScrcpyPlayer.disconnect p)) = true) as Ha.
{ unfold Timers.is_armed. rewrite E. apply bool_decide_eq_true. simpl.
  apply list_elem_of_here. }
simpl in Ha. destruct (ScrcpyPlayer.fallbackTimer p) as [h0|] eqn:E0.
- apply is_armed_cleared in Ha as [Hne Ha]. apply Hp in Ha. congruence.
- apply Hp in Ha. congruence.
Qed.

(** X27.  [disconnect] clears only the timer that [fallbackTimerRef]
    holds.  A timer armed by an earlier [connect] event stays armed, and
    when it fires with no video data seen it tells the page to fall back,
    after the player was disconnected. *)
Theorem untracked_timer_fires_after_disconnect (p : ScrcpyPlayer.state) (h : nat) :
  Timers.is_armed h (ScrcpyPlayer.timers p) = true →
  ScrcpyPlayer.fallbackTimer p ≠ Some h →
  ScrcpyPlayer.hasReceivedData p = false →
  (ScrcpyPlayer.handle fallbackTimeout (ScrcpyPlayer.disconnect p) (ScrcpyPlayer.FallbackTimer h)).2
  = true.
Proof.
intros Ha Hne Hd. simpl. unfold ScrcpyPlayer.on_fallback_timer. simpl.
assert (Timers.is_armed h
          match ScrcpyPlayer.fallbackTimer p with
          | Some h0 => Timers.clearTimeout h0 (ScrcpyPlayer.timers p)
          | None => ScrcpyPlayer.timers p
          end = true) as ->.
{ destruct (ScrcpyPlayer.fallbackTimer p) as [h0|]; [|done].
  apply is_armed_clear; [congruence|done]. }
by rewrite Hd.
Qed.

End watchdog_more.


Lemma video_data_silences_watchdog_witness :
  (run 8000 (false, streaming 8000)
     [ScrcpyPlayer.FallbackTimer 1; ScrcpyPlayer.SocketDisconnect;
      ScrcpyPlayer.FallbackTimer 2]).1 = false.
Proof.
apply video_data_silences_watchdog.
- reflexivity.
- not_listed.
- intros m. not_listed.
Defined.

Lemma early_video_data_is_not_seen_witness :
  (run 8000 (false, ScrcpyPlayer.connect)
     (ScrcpyPlayer.SocketConnect
      :: [ScrcpyPlayer.VideoData; ScrcpyPlayer.VideoData]
      ++ [ScrcpyPlayer.FallbackTimer 1])).1 = true
  ∧ ScrcpyPlayer.hasReceivedData
      (run 8000 (false, ScrcpyPlayer.connect)
         (ScrcpyPlayer.SocketConnect
          :: [ScrcpyPlayer.VideoData; ScrcpyPlayer.VideoData]
          ++ [ScrcpyPlayer.FallbackTimer 1])).2 = false.
Proof.
apply (early_video_data_is_not_seen 8000
         [ScrcpyPlayer.VideoData; ScrcpyPlayer.VideoData]).
- not_listed.
- not_listed.
Defined.

Lemma disconnect_stops_watchdog_witness :
  Timers.armed
    (ScrcpyPlayer.timers
       (ScrcpyPlayer.disconnect
          (run 8000 (false, ScrcpyPlayer.connect)
             [ScrcpyPlayer.SocketConnect; ScrcpyPlayer.VideoMetadata true]).2)) = []
  ∧ run 8000
      (false,
       ScrcpyPlayer.disconnect
         (run 8000 (false, ScrcpyPlayer.connect)
            [ScrcpyPlayer.SocketConnect; ScrcpyPlayer.VideoMetadata true]).2)
      [ScrcpyPlayer.FallbackTimer 1; ScrcpyPlayer.VideoData]
    = (false,
       ScrcpyPlayer.disconnect
         (run 8000 (false, ScrcpyPlayer.connect)
            [ScrcpyPlayer.SocketConnect; ScrcpyPlayer.VideoMetadata true]).2).
Proof.
apply (disconnect_stops_watchdog 8000
         [ScrcpyPlayer.SocketConnect; ScrcpyPlayer.VideoMetadata true]
         [ScrcpyPlayer.FallbackTimer 1; ScrcpyPlayer.VideoData]).
simpl. lia.
Defined.

Lemma untracked_timer_fires_after_disconnect_witness :
  ScrcpyPlayer.fallbackTimer (reconnected 8000) = Some 2%nat
  ∧ (ScrcpyPlayer.handle 8000 (ScrcpyPlayer.disconnect (reconnected 8000))
       (ScrcpyPlayer.FallbackTimer 1)).2 = true.
Proof.
split; [reflexivity|].
apply untracked_timer_fires_after_disconnect.
- reflexivity.
- discriminate.
- reflexivity.
Defined.

Section viewer_more.
Variable refreshInterval : Z.

Lemma handle_unmounted (v : ScreenshotViewer.state) (e : ScreenshotViewer.event) :
  ScreenshotViewer.mounted v = false →
  let v' := ScreenshotViewer.handle refreshInterval v e in
  ScreenshotViewer.mounted v' = false
  ∧ ScreenshotViewer.imageUrl v' = ScreenshotViewer.imageUrl v
  ∧ Timers.next (ScreenshotViewer.timers v') = Timers.next (ScreenshotViewer.timers v)
  ∧ Timers.armed (ScreenshotViewer.timers v')
    ⊆ Timers.armed (ScreenshotViewer.timers v).
Proof.
intros Hm. destruct e as [h now| |]; simpl; [|done|done].
destruct (Timers.is_armed h _); [|done].
unfold ScreenshotViewer.scheduleNext, ScreenshotViewer.updateImage. simpl.
rewrite Hm. simpl. split_and!; try done.
intros x [_ Hx]%list_elem_of_filter. done.
Qed.

(** X28.  After the component is unmounted no screenshot is requested
    and no timer is armed any more, whatever timers still fire. *)
Theorem unmount_stops_polling (v : ScreenshotViewer.state)
    (es : list ScreenshotViewer.event) :
  let u := poll refreshInterval (ScreenshotViewer.unmount v) es in
  ScreenshotViewer.imageUrl u = ScreenshotViewer.imageUrl v
  ∧ ScreenshotViewer.mounted u = false
  ∧ Timers.next (ScreenshotViewer.timers u) = Timers.next (ScreenshotViewer.timers v)
  ∧ Timers.armed (ScreenshotViewer.timers u)
    ⊆ Timers.armed (ScreenshotViewer.timers v).
Proof.
assert (∀ w, ScreenshotViewer.mounted w = false →
             let u := poll refreshInterval w es in
             ScreenshotViewer.imageUrl u = ScreenshotViewer.imageUrl w
             ∧ ScreenshotViewer.mounted u = false
             ∧ Timers.next (ScreenshotViewer.timers u)
               = Timers.next (ScreenshotViewer.timers w)
             ∧ Timers.armed (ScreenshotViewer.timers u)
               ⊆ Timers.armed (ScreenshotViewer.timers w)) as H.
{ induction es as [|e es IH]; intros w Hw; [done|].
  destruct (handle_unmounted w e Hw) as (H1 & H2 & H3 & H4).
  destruct (IH _ H1) as (I1 & I2 & I3 & I4). simpl.
  unfold poll in *. simpl in *. rewrite I1, I3. split_and!; try done.
  by etrans. }
destruct (H (ScreenshotViewer.unmount v) eq_refl) as (H1 & H2 & H3 & H4).
simpl. split_and!; [done|done| |].
- rewrite H3. simpl. by destruct (ScreenshotViewer.timeoutRef v).
- etrans; [exact H4|]. simpl.
  destruct (ScreenshotViewer.timeoutRef v); [|done].
  intros x [_ Hx]%list_elem_of_filter. done.
Qed.

(** X29.  Unmounting a viewer that is polling leaves no timer armed:
    every later event leaves it as it is. *)
Theorem unmount_clears_timer (v : ScreenshotViewer.state)
    (es : list ScreenshotViewer.event) :
  polling refreshInterval v →
  Timers.armed (ScreenshotViewer.timers (ScreenshotViewer.unmount v)) = []
  ∧ poll refreshInterval (ScreenshotViewer.unmount v) es = ScreenshotViewer.unmount v.
Proof.
intros (He & Hm & Hu & h & Hr & Ht).
assert (Timers.armed (ScreenshotViewer.timers (ScreenshotViewer.unmount v)) = []) as E.
{ simpl. rewrite Hr. unfold Timers.clearTimeout. simpl. rewrite Ht.
  rewrite filter_cons_False by (simpl; intros H; by apply H). done. }
split; [done|].
induction es as [|e es IH]; [done|].
unfold poll in *. simpl.
assert (ScreenshotViewer.handle refreshInterval (ScreenshotViewer.unmount v) e
        = ScreenshotViewer.unmount v) as ->; [|done].
destruct e as [h' now| |]; [| |done].
- cbn [ScreenshotViewer.handle]. unfold Timers.is_armed. rewrite E. done.
- unfold ScreenshotViewer.handle, ScreenshotViewer.handleLoad,
    ScreenshotViewer.unmount. simpl. by rewrite He.
Qed.

End viewer_more.

Lemma unmount_clears_timer_witness :
  Timers.armed
    (ScreenshotViewer.timers (ScreenshotViewer.unmount (ScreenshotViewer.mount 500 0)))
  = []
  ∧ poll 500 (ScreenshotViewer.unmount (ScreenshotViewer.mount 500 0))
      [ScreenshotViewer.Tick 1 5; ScreenshotViewer.Load]
    = ScreenshotViewer.unmount (ScreenshotViewer.mount 500 0).
Proof.
apply unmount_clears_timer, polling_mount.
Defined.

End live_screen_more.
